(** * sema.Group: a wait group and weighted semaphore over one packed counter

    A shallow embedding of the Go package [sema] (type [Group] and its
    methods) and the properties of its counter arithmetic, its
    non-blocking paths, its capacity configuration and its misuse faults,
    then of its queueing and wake-up paths, its wait channel, the
    invariants it keeps under scheduling, the benchmark code that
    drives it, what each call adds to the counter and where it parks.

    Conventions of the embedding.

    - Go's fixed-width integers are values of [Z]; every conversion and
      every operation that can wrap is written with an explicit reduction
      ([uint32], [int32], [uint64], [int]).  [int] is 64 bits wide.
    - The shared state touched by a method (the [Group] fields and the
      channels it can reach) is the record [World]; a method is a function
      from the world before the call to an [outcome].
    - A goroutine runs without interference between two points where it
      can be descheduled by its own doing (a channel operation that cannot
      proceed, a select the runtime has to arbitrate, [runtime.Gosched]).
      At such a point the outcome is [Blocked] and carries the rest of the
      method as a function of the world found at wake-up, which is
      arbitrary: whatever other goroutines did in between.
    - Loops of the source are recursive functions on a [fuel] bound on the
      number of iterations; [Spin] is the outcome of a loop that used it up. *)

From Stdlib Require Import ZArith String Bool Lia.
From stdpp Require Import base list.

Local Open Scope string_scope.
Local Open Scope Z_scope.

Module sema.

(** ** Fixed-width integers *)

Definition uint32 (z : Z) : Z := z mod 2^32.
Definition int32 (z : Z) : Z := (z + 2^31) mod 2^32 - 2^31.
Definition uint64 (z : Z) : Z := z mod 2^64.
Definition int (z : Z) : Z := (z + 2^63) mod 2^64 - 2^63.

Definition maxInt32 : Z := 2^31 - 1.
Definition minInt32 : Z := - 2^31.
Definition maxUint32 : Z := 2^32 - 1.
Definition maxInt : Z := 2^63 - 1.

(** ** Channels *)

(** A channel value: the nil channel (the source's [nilChan]), the
    package-level [closedChan] that [init] closes, or a channel made by
    [make(chan struct{})], named by its allocation index. *)
Inductive chan : Type :=
| nilChan
| closedChan
| Chan (id : nat).

#[global] Instance chan_eq_dec : EqDecision chan.
Proof. solve_decision. Defined.

(** The runtime state of an unbuffered channel: whether it was closed, and
    how many other goroutines are parked on it as senders and as receivers. *)
Record chanState : Type := mkChanState {
  closed : bool;
  sendq : nat;
  recvq : nat
}.

(** ** The Group *)

Record Group : Type := mkGroup {
  waitChan : option chan;   (* atomic.Value; None: nothing stored yet *)
  blockChan : option chan;  (* atomic.Value; None: nothing stored yet *)
  counter : Z;              (* atomic.Uint64: pending << 32 | active *)
  size : Z                  (* atomic.Uint32 *)
}.

Record World : Type := mkWorld {
  grp : Group;
  chans : list chanState
}.

(** The zero value of [Group]. *)
Definition zeroGroup : Group := mkGroup None None 0 0.

(** ** Outcomes and the method monad *)

(** One side of a communication a goroutine can be suspended on. *)
Inductive comm : Type :=
| Recv (c : chan)
| Send (c : chan)
| Sched.

Inductive outcome (A : Type) : Type :=
| Done (a : A) (w : World)
| Fault (msg : string) (w : World)
| Blocked (on : list comm) (w : World) (k : nat -> World -> outcome A)
| Spin (w : World).

Arguments Done {A} a w.
Arguments Fault {A} msg w.
Arguments Blocked {A} on w k.
Arguments Spin {A} w.

Definition M (A : Type) : Type := World -> outcome A.

Definition ret {A} (a : A) : M A := fun w => Done a w.

Fixpoint bindO {A B} (o : outcome A) (f : A -> M B) : outcome B :=
  match o with
  | Done a w => f a w
  | Fault msg w => Fault msg w
  | Blocked on w k => Blocked on w (fun i w' => bindO (k i w') f)
  | Spin w => Spin w
  end.

Definition bind {A B} (m : M A) (f : A -> M B) : M B :=
  fun w => bindO (m w) f.

Notation "x <- m ;; k" := (bind m (fun x => k))
  (at level 20, m at level 99, k at level 200, only parsing).
Notation "' p <- m ;; k" := (bind m (fun x => let 'p := x in k))
  (at level 20, p pattern, m at level 99, k at level 200, only parsing).

Definition panic {A} (msg : string) : M A := fun w => Fault msg w.
Definition spin {A} : M A := fun w => Spin w.

(** ** The packed counter *)

(** [counterParts]: the high 32 bits are the pending count, the low 32
    bits the active count. *)
Definition counterParts (counter : Z) : Z * Z :=
  (uint32 (Z.shiftr counter 32), int32 counter).

(** The word that [counterUpdate] computes before its compare-and-swap. *)
Definition newCounterOf (oldCounter pendingDelta activeDelta : Z) : Z :=
  let '(oldPending, oldActive) := counterParts oldCounter in
  let newPending := uint32 (oldPending + uint32 pendingDelta) in
  let newActive := int32 (oldActive + int32 activeDelta) in
  let newPending :=
    if (activeDelta >? 0) && (newActive <? oldActive)
    then uint32 (newPending + 1)
    else if (activeDelta <? 0) && (newActive >? oldActive)
    then uint32 (newPending - 1)
    else newPending in
  Z.lor (uint64 (Z.shiftl (uint64 newPending) 32)) (uint64 (uint32 newActive)).

(** The word that holds [p] in its upper and [a], taken as unsigned, in
    its lower 32 bits. *)
Definition pack (p a : Z) : Z := p * 2^32 + uint32 a.

(** The carry (+1) or borrow (-1) between the halves: a carry when a
    positive delta left the active count smaller, a borrow when a negative
    delta left it greater. *)
Definition carry (oldActive activeDelta newActive : Z) : Z :=
  if (activeDelta >? 0) && (newActive <? oldActive) then 1
  else if (activeDelta <? 0) && (newActive >? oldActive) then -1
  else 0.

(** ** Atomic fields *)

Definition withGrp (f : Group -> Group) (w : World) : World :=
  mkWorld (f (grp w)) (chans w).

Definition setCounter (c : Z) (w : World) : World :=
  withGrp (fun g => mkGroup (waitChan g) (blockChan g) c (size g)) w.

Definition counter_Load : M Z := fun w => Done (counter (grp w)) w.

Definition counter_CompareAndSwap (old new : Z) : M bool := fun w =>
  if counter (grp w) =? old then Done true (setCounter new w)
  else Done false w.

Definition size_Load : M Z := fun w => Done (size (grp w)) w.

Definition size_Store (s : Z) : M unit := fun w =>
  Done tt (withGrp (fun g => mkGroup (waitChan g) (blockChan g) (counter g) s) w).

Definition blockChan_Load : M (option chan) := fun w =>
  Done (blockChan (grp w)) w.

Definition blockChan_Store (c : chan) : M unit := fun w =>
  Done tt
    (withGrp (fun g => mkGroup (waitChan g) (Some c) (counter g) (size g)) w).

Definition waitChan_Load : M (option chan) := fun w =>
  Done (waitChan (grp w)) w.

Definition waitChan_CompareAndSwap (old : option chan) (new : chan) : M bool :=
  fun w =>
    if decide (waitChan (grp w) = old)
    then Done true
           (withGrp
              (fun g => mkGroup (Some new) (blockChan g) (counter g) (size g)) w)
    else Done false w.

(** ** Channel operations *)

Definition withChan (id : nat) (s : chanState) (w : World) : World :=
  mkWorld (grp w) (<[id := s]> (chans w)).

(** [make(chan struct{})] *)
Definition make_chan : M chan := fun w =>
  Done (Chan (length (chans w)))
       (mkWorld (grp w) (chans w ++ [mkChanState false 0 0])).

(** [close(c)]; closing wakes every parked receiver. *)
Definition close_chan (c : chan) : M unit := fun w =>
  match c with
  | nilChan => Fault "close of nil channel" w
  | closedChan => Fault "close of closed channel" w
  | Chan id =>
      match chans w !! id with
      | Some s =>
          if closed s then Fault "close of closed channel" w
          else Done tt (withChan id (mkChanState true (sendq s) 0) w)
      | None => Fault "close of nil channel" w
      end
  end.

(** Whether a communication can proceed at once: a receive when the channel
    is closed or a sender is parked on it, a send when a receiver is parked
    on it (or when the channel is closed, and then it proceeds by
    panicking).  Nothing proceeds on a nil channel. *)
Definition ready (w : World) (op : comm) : bool :=
  match op with
  | Recv closedChan => true
  | Recv (Chan id) =>
      match chans w !! id with
      | Some s => closed s || (0 <? sendq s)%nat
      | None => false
      end
  | Send closedChan => true
  | Send (Chan id) =>
      match chans w !! id with
      | Some s => closed s || (0 <? recvq s)%nat
      | None => false
      end
  | _ => false
  end.

(** The effect of a communication that is ready. *)
Definition perform (op : comm) : M unit := fun w =>
  match op with
  | Recv (Chan id) =>
      match chans w !! id with
      | Some s =>
          if closed s then Done tt w
          else Done tt (withChan id (mkChanState false (pred (sendq s)) (recvq s)) w)
      | None => Done tt w
      end
  | Send closedChan => Fault "send on closed channel" w
  | Send (Chan id) =>
      match chans w !! id with
      | Some s =>
          if closed s then Fault "send on closed channel" w
          else Done tt (withChan id (mkChanState false (sendq s) (pred (recvq s))) w)
      | None => Done tt w
      end
  | _ => Done tt w
  end.

Fixpoint readyFrom (w : World) (i : nat) (cases : list comm) : list (nat * comm) :=
  match cases with
  | [] => []
  | op :: rest =>
      (if ready w op then [(i, op)] else []) ++ readyFrom w (S i) rest
  end.

(** A [select] over [cases], with a [default] branch when [dflt]; the
    result is the index of the case taken, [length cases] for the default.
    With exactly one ready case it is taken; with none and no default the
    goroutine parks; with several the runtime picks one at random, which
    is left to whoever resumes the goroutine. *)
Definition select (cases : list comm) (dflt : bool) : M nat := fun w =>
  match readyFrom w 0 cases with
  | [] =>
      if dflt then Done (length cases) w
      else Blocked cases w (fun i w' => Done i w')
  | [(i, op)] => bindO (perform op w) (fun _ => ret i)
  | _ => Blocked cases w (fun i w' => Done i w')
  end.

(** [<-c] *)
Definition recv (c : chan) : M unit := _ <- select [Recv c] false ;; ret tt.

(** [runtime.Gosched()] *)
Definition Gosched : M unit := fun w =>
  Blocked [Sched] w (fun _ w' => Done tt w').

(** ** Construction and capacity *)

Definition setSize (size : Z) : M unit :=
  (* normalize negative size to 0. *)
  let size := if size <? 0 then 0 else size in
  (* only create the blockChan if size is not zero. *)
  if size >? 0 then
    let s := uint32 size in
    if negb (s =? size) then panic "sema.Group: incorrect group size"
    else
      _ <- size_Store s ;;
      c <- make_chan ;;
      blockChan_Store c
  else ret tt.

(** [NewGroup]: the group of the world becomes a fresh zero [Group], then
    [setSize]. *)
Definition NewGroup (size : Z) : M unit := fun w =>
  setSize size (mkWorld zeroGroup (chans w)).

Definition counterUpdate (oldCounter pendingDelta activeDelta : Z) : M (Z * bool) :=
  let newCounter := newCounterOf oldCounter pendingDelta activeDelta in
  ok <- counter_CompareAndSwap oldCounter newCounter ;;
  if ok then ret (newCounter, true) else ret (newCounter, false).

Definition SetSize (size : Z) : M unit :=
  c <- counter_Load ;;
  if negb (c =? 0)
  then panic "sema.Group: concurrent Reserve calls while initializing group"
  else
    b <- blockChan_Load ;;
    match b with
    | Some _ => panic "sema.Group: group already initialized"
    | None =>
        _ <- setSize size ;;
        c <- counter_Load ;;
        if negb (c =? 0)
        then panic "sema.Group: concurrent Reserve calls while initializing group"
        else ret tt
    end.

Definition Size : M Z := s <- size_Load ;; ret s.

Definition ActiveCount : M Z :=
  c <- counter_Load ;; ret (snd (counterParts c)).

Definition PendingCount : M Z :=
  c <- counter_Load ;; ret (fst (counterParts c)).

(** ** Waking up waiters *)

(** The retry loop
    [for ok := false; !ok; { counter, ok = g.counterUpdate(g.counter.Load(), pd, ad) }]
    of [ReserveN], [TryReserveN], [reserveNAbortWait] and [FreeN]; the
    result is the counter of the update that committed. *)
Fixpoint counterAdd (fuel : nat) (pendingDelta activeDelta : Z) : M Z :=
  match fuel with
  | O => spin
  | S fuel' =>
      c <- counter_Load ;;
      ' (c', ok) <- counterUpdate c pendingDelta activeDelta ;;
      if ok then ret c' else counterAdd fuel' pendingDelta activeDelta
  end.

Fixpoint notifyFreeLoop (fuel : nat) (blockChan : chan) (counter pending : Z) : M Z :=
  if pending >? 0 then
    match fuel with
    | O => spin
    | S fuel' =>
        (* attempt to wakeup a Reserve call, or update pending until it's 0. *)
        i <- select [Send blockChan] true ;;
        match i with
        | O => counter <- counter_Load ;; ret counter
        | _ =>
            _ <- Gosched ;;
            counter <- counter_Load ;;
            notifyFreeLoop fuel' blockChan counter (fst (counterParts counter))
        end
    end
  else ret counter.

Definition notifyFree (fuel : nat) (blockChan : chan) : M Z :=
  counter <- counter_Load ;;
  notifyFreeLoop fuel blockChan counter (fst (counterParts counter)).

Definition notifyWait (pending active : Z) : M unit :=
  if (pending >? 0) || (active >? 0) then ret tt
  else
    (* waitChan will be nil only if no Wait calls have been made. *)
    waitChan <- waitChan_Load ;;
    match waitChan with
    | None => ret tt
    | Some c =>
        if decide (c = nilChan) then ret tt
        else
          ok <- waitChan_CompareAndSwap (Some c) nilChan ;;
          if negb ok then ret tt else close_chan c
    end.

(** ** Reserving *)

Fixpoint tryReserve (fuel : nat) (size reserveN : Z) (tryCall : bool) : M bool :=
  match fuel with
  | O => spin
  | S fuel' =>
      counter <- counter_Load ;;
      let '(pending, active) := counterParts counter in
      (* if the group has room and doesn't have any waiters *)
      if (pending =? 0) && (int (active + reserveN) <=? size) then
        ' (_, ok) <- counterUpdate counter 0 reserveN ;;
        if ok then ret true else tryReserve fuel' size reserveN tryCall
      else if negb tryCall then
        ' (_, ok) <- counterUpdate counter reserveN 0 ;;
        if ok then ret false else tryReserve fuel' size reserveN tryCall
      else ret false
  end.

Definition reserveNAbortWait (fuel : nat) (blockChan : chan) (reserveN : Z) : M unit :=
  _ <- counterAdd fuel (int (- reserveN)) 0 ;;
  counter <- notifyFree fuel blockChan ;;
  let '(pending, active) := counterParts counter in
  notifyWait pending active.

Fixpoint reserveNSuccessWait (fuel : nat) (size : Z) (doneChan : chan)
    (reserveN : Z) (blockChan : chan) : M (bool * bool) :=
  match fuel with
  | O => spin
  | S fuel' =>
      counter <- counter_Load ;;
      let '(pending, active) := counterParts counter in
      let diffN := int (int (size - active) - reserveN) in
      (* if we got what we need, update the counter and return true. *)
      if diffN >=? 0 then
        (* only move forward if the doneChan wasn't closed. *)
        i <- select [Recv doneChan] true ;;
        match i with
        | O => _ <- reserveNAbortWait fuel blockChan reserveN ;; ret (false, false)
        | _ =>
            ' (_, ok) <- counterUpdate counter (int (- reserveN)) reserveN ;;
            if negb ok
            then reserveNSuccessWait fuel' size doneChan reserveN blockChan
            else ret (false, true)
        end
      (* if this is the only blocked call, wait for the next free call. *)
      else if pending =? reserveN then ret (true, false)
      (* if there are still potentially active calls, wait as well. *)
      else if int (pending + active) >? size then ret (true, false)
      (* only proceed if there are other pending calls. *)
      else if int (pending - reserveN) <=? 0
      then reserveNSuccessWait fuel' size doneChan reserveN blockChan
      else
        (* wake up a Reserve call, or unblock another that's trying the same. *)
        i <- select [Send blockChan; Recv blockChan] false ;;
        match i with
        | O => ret (true, false)
        | _ => reserveNSuccessWait fuel' size doneChan reserveN blockChan
        end
  end.

Fixpoint reserveNSlowLoop (fuel : nat) (size : Z) (doneChan : chan)
    (reserveN : Z) (blockChanVal : chan) : M bool :=
  match fuel with
  | O => spin
  | S fuel' =>
      i <- select [Recv blockChanVal; Recv doneChan] false ;;
      match i with
      | O =>
          (* block for a FreeN call. *)
          ' (reloop, ok) <- reserveNSuccessWait fuel size doneChan reserveN blockChanVal ;;
          if ok then ret true
          else if negb reloop then ret false
          else reserveNSlowLoop fuel' size doneChan reserveN blockChanVal
      | _ =>
          (* or abort on demand. *)
          _ <- reserveNAbortWait fuel blockChanVal reserveN ;; ret false
      end
  end.

Definition reserveNSlow (fuel : nat) (size : Z) (doneChan : chan) (reserveN : Z) : M bool :=
  blockChan <- blockChan_Load ;;
  match blockChan with
  | None => panic "sema.Group: concurrent Reserve calls while initializing group"
  | Some blockChanVal => reserveNSlowLoop fuel size doneChan reserveN blockChanVal
  end.

Definition ReserveN (fuel : nat) (doneChan : chan) (n : Z) : M bool :=
  if n <=? 0 then panic "sema.Group: invalid group reserve N value"
  else
    (* return and don't update any counters if the provided doneChan
       is already closed. *)
    i <- (if decide (doneChan = nilChan) then ret 1%nat
          else select [Recv doneChan] true) ;;
    match i with
    | O => ret false
    | _ =>
        size <- size_Load ;;
        if size =? 0 then
          _ <- counterAdd fuel 0 n ;; ret true
        else if n >? size then
          _ <- (if decide (doneChan = nilChan) then ret tt else recv doneChan) ;;
          ret false
        else
          ok <- tryReserve fuel size n false ;;
          if ok then ret true else reserveNSlow fuel size doneChan n
    end.

(** The check of the cancellation channel at the start of [ReserveN], on
    its own: 0 when the channel is ready, 1 otherwise. *)
Definition precheck (doneChan : chan) : M nat :=
  if decide (doneChan = nilChan) then ret 1%nat
  else select [Recv doneChan] true.

Definition Reserve (fuel : nat) : M unit := _ <- ReserveN fuel nilChan 1 ;; ret tt.

Definition TryReserveN (fuel : nat) (n : Z) : M bool :=
  if n <=? 0 then panic "sema.Group: invalid group reserve N value"
  else
    size <- size_Load ;;
    if size =? 0 then
      (* no limitation on the Reserve calls, so the call is allowed. *)
      _ <- counterAdd fuel 0 n ;; ret true
    else if n >? size then ret false
    else tryReserve fuel size n true.

(** ** Freeing *)

Definition FreeN (fuel : nat) (n : Z) : M unit :=
  if n <=? 0 then panic "sema.Group: invalid group free N value"
  else
    blockChan <- blockChan_Load ;;
    (* update the counter, and read its values. *)
    counter <- counterAdd fuel 0 (int (- n)) ;;
    let active := snd (counterParts counter) in
    (* notify any blocked ReserveN calls of the counter update. *)
    pending <- match blockChan with
               | Some c => counter <- notifyFree fuel c ;; ret (fst (counterParts counter))
               | None => ret 0
               end ;;
    (* attempt to wake up any blocked Wait calls. *)
    _ <- notifyWait pending active ;;
    (* handle any misuse, assuming valid usage so far. *)
    if active <? 0 then panic "sema.Group: negative group counter" else ret tt.

Definition Free (fuel : nat) : M unit := FreeN fuel 1.

(** The negative-counter fault of [FreeN]. *)
Definition negativeCounter : string := "sema.Group: negative group counter".

(** What [FreeN] does once it has committed its decrement, on its own:
    [bc] is the block channel it loaded and [a1] the active count it left. *)
Definition afterDecrement (fuel : nat) (bc : option chan) (a1 : Z) : M unit :=
  pending <- match bc with
             | Some c => counter <- notifyFree fuel c ;; ret (fst (counterParts counter))
             | None => ret 0
             end ;;
  _ <- notifyWait pending a1 ;;
  if a1 <? 0 then panic negativeCounter else ret tt.

(** ** Waiting *)

Definition initWaitChanSlow (waitChan : option chan) : M chan :=
  newWaitChan <- make_chan ;;
  ok <- waitChan_CompareAndSwap waitChan newWaitChan ;;
  if ok then
    counter <- counter_Load ;;
    let '(pending, active) := counterParts counter in
    if (pending <=? 0) && (active <=? 0) then ret closedChan
    else ret newWaitChan
  else
    loadedWaitChan <- waitChan_Load ;;
    match loadedWaitChan with
    | Some c => if decide (c = nilChan) then ret closedChan else ret c
    | None => panic "interface conversion: interface is nil, not chan struct {}"
    end.

Definition initWaitChan : M chan :=
  waitChan <- waitChan_Load ;;
  counter <- counter_Load ;;
  let '(pending, active) := counterParts counter in
  if (pending <=? 0) && (active <=? 0) then ret closedChan
  else
    match waitChan with
    | Some c =>
        if decide (c = nilChan) then initWaitChanSlow waitChan else ret c
    | None => initWaitChanSlow waitChan
    end.

Definition Wait : M unit := waitChan <- initWaitChan ;; recv waitChan.

Definition WaitChan : M chan := initWaitChan.

(** ** Observations *)

(** The two halves of the counter of a world. *)
Definition pending (w : World) : Z := fst (counterParts (counter (grp w))).
Definition active (w : World) : Z := snd (counterParts (counter (grp w))).

(** Whether a channel value denotes a channel that is allocated and open. *)
Definition isOpen (w : World) (c : chan) : bool :=
  match c with
  | Chan id =>
      match chans w !! id with
      | Some s => negb (closed s)
      | None => false
      end
  | _ => false
  end.

(** The wait slot is empty, holds [nilChan], or holds a channel that is
    still open: [notifyWait] closes a channel only after it swapped it out
    of the slot. *)
Definition waitOk (w : World) : bool :=
  match waitChan (grp w) with
  | None => true
  | Some nilChan => true
  | Some c => isOpen w c
  end.

(** A channel on which no send can panic: it is not closed. *)
Definition sendOk (w : World) (c : chan) : bool :=
  match c with
  | nilChan => true
  | closedChan => false
  | Chan id =>
      match chans w !! id with
      | Some s => negb (closed s)
      | None => true
      end
  end.

(** Another goroutine is parked on [c] as a receiver. *)
Definition hasReceiver (w : World) (c : chan) : bool :=
  match c with
  | Chan id =>
      match chans w !! id with
      | Some s => (0 <? recvq s)%nat
      | None => false
      end
  | _ => false
  end.

(** The block slot is empty or holds a channel that is never closed. *)
Definition blockOk (w : World) : bool :=
  match blockChan (grp w) with
  | None => true
  | Some c => sendOk w c
  end.

(** The worlds a goroutine suspended in a method of the group can wake up
    in: the block channel is the one it loaded, still not closed, and the
    wait slot is in order. *)
Definition wakeOk (w0 : World) (w : World) : Prop :=
  blockChan (grp w) = blockChan (grp w0) /\ blockOk w = true /\ waitOk w = true.

(** A world in which a send on [bc] cannot panic and the wait slot is in
    order. *)
Definition calm (bc : chan) (w : World) : Prop :=
  sendOk w bc = true /\ waitOk w = true.

(** [finishes env o r]: [r] is a way in which [o] can end, a return or a
    fault, when every suspension is resumed in a world allowed by [env]. *)
Inductive finishes {A : Type} (env : World -> Prop) : outcome A -> outcome A -> Prop :=
| finishes_Done (a : A) (w : World) :
    finishes env (Done a w) (Done a w)
| finishes_Fault (msg : string) (w : World) :
    finishes env (Fault msg w) (Fault msg w)
| finishes_Blocked (on : list comm) (w : World) (k : nat -> World -> outcome A)
    (i : nat) (w' : World) (r : outcome A) :
    env w' -> finishes env (k i w') r -> finishes env (Blocked on w k) r.

(** The world an outcome carries. *)
Definition worldOf {A} (o : outcome A) : World :=
  match o with
  | Done _ w | Fault _ w | Blocked _ w _ | Spin w => w
  end.

(** An outcome that is a return or a fault. *)
Definition final {A} (o : outcome A) : bool :=
  match o with
  | Done _ _ | Fault _ _ => true
  | _ => false
  end.

(** [w'] has the counter, the size and the block channel of [w]. *)
Definition sameCore (w w' : World) : Prop :=
  counter (grp w') = counter (grp w) /\
  size (grp w') = size (grp w) /\
  blockChan (grp w') = blockChan (grp w).

(** An outcome of a call made in [w] that is a return or a fault and
    carries a world with the counter, size and block channel of [w]. *)
Definition endsWithCore {A} (w : World) (o : outcome A) : Prop :=
  final o = true /\ sameCore w (worldOf o).

(** An outcome of a step taken in [w] that, if it is a return or a fault,
    carries a world with the counter, size and block channel of [w], and
    is not the negative-counter fault. *)
Definition keepsCore {A} (w : World) (o : outcome A) : Prop :=
  match o with
  | Done _ w' => sameCore w w'
  | Fault msg w' => sameCore w w' /\ msg <> negativeCounter
  | _ => True
  end.

(** [w'] has the group of [w] and the same channels closed. *)
Definition sameClosed (w w' : World) : Prop :=
  grp w' = grp w /\ closed <$> chans w' = closed <$> chans w.

(** ** Sequential programs *)

(** A call of a method of the group, and what the caller sees of it. *)
Inductive call : Type :=
| CReserve
| CReserveN (doneChan : chan) (n : Z)
| CTryReserveN (n : Z)
| CFree
| CFreeN (n : Z)
| CWait
| CWaitChan
| CSetSize (n : Z)
| CSize
| CActiveCount
| CPendingCount.

Inductive value : Type :=
| VUnit
| VBool (b : bool)
| VInt (z : Z)
| VChan (c : chan).

Inductive result : Type :=
| Returned (v : value)
| Panicked (msg : string)
| Parked (on : list comm)
| Spinning.

Definition observe {A} (inj : A -> value) (o : outcome A) : result * World :=
  match o with
  | Done a w => (Returned (inj a), w)
  | Fault msg w => (Panicked msg, w)
  | Blocked on w _ => (Parked on, w)
  | Spin w => (Spinning, w)
  end.

Definition exec (fuel : nat) (c : call) (w : World) : result * World :=
  match c with
  | CReserve => observe (fun _ => VUnit) (Reserve fuel w)
  | CReserveN doneChan n => observe VBool (ReserveN fuel doneChan n w)
  | CTryReserveN n => observe VBool (TryReserveN fuel n w)
  | CFree => observe (fun _ => VUnit) (Free fuel w)
  | CFreeN n => observe (fun _ => VUnit) (FreeN fuel n w)
  | CWait => observe (fun _ => VUnit) (Wait w)
  | CWaitChan => observe VChan (WaitChan w)
  | CSetSize n => observe (fun _ => VUnit) (SetSize n w)
  | CSize => observe VInt (Size w)
  | CActiveCount => observe VInt (ActiveCount w)
  | CPendingCount => observe VInt (PendingCount w)
  end.

(** A goroutine that runs the calls of [p] one after the other, alone: it
    goes on after a return and after a fault (which it recovers from), and
    stays where it is when a call parks or spins. *)
Fixpoint run (fuel : nat) (p : list call) (w : World) : list (call * result * World) :=
  match p with
  | [] => []
  | c :: p' =>
      let '(r, w') := exec fuel c w in
      (c, r, w') ::
      match r with
      | Returned _ | Panicked _ => run fuel p' w'
      | _ => []
      end
  end.

(** What the caller saw, call by call. *)
Definition results (tr : list (call * result * World)) : list result :=
  map (fun x => snd (fst x)) tr.

(** The calls of [TestGroupTryReserveN], after [NewGroup(2)]; [doneChan] is
    the cancellation channel of its [ReserveN] calls. *)
Definition tryReserveScenario (doneChan : chan) : list call :=
  [ CReserveN doneChan 1; CTryReserveN 1; CTryReserveN 1;
    CFreeN 2;
    CTryReserveN 1; CReserveN doneChan 1; CTryReserveN 1 ].

(** The calls of [TestSemaGroupMisuse], on a zero [Group]. *)
Definition misuseScenario : list call := [ CReserve; CFree; CFree ].

(** Two reservations of 2^31 - 1 and one free, on a zero [Group]. *)
Definition wrappedScenario : list call :=
  [ CReserveN nilChan (2^31 - 1); CReserveN nilChan (2^31 - 1); CFree ].

(** The world a run ends in. *)
Definition lastWorld (w : World) (tr : list (call * result * World)) : World :=
  match last tr with
  | Some (_, _, w') => w'
  | None => w
  end.

(** [checked chk fuel p w]: [chk] holds of every call of the run of [p]
    in the world it is made in. *)
Fixpoint checked (chk : World -> call -> bool) (fuel : nat) (p : list call) (w : World) : bool :=
  match p with
  | [] => true
  | c :: p' =>
      chk w c &&
      let '(r, w') := exec fuel c w in
      match r with
      | Returned _ | Panicked _ => checked chk fuel p' w'
      | _ => true
      end
  end.

(** ** Legal programs *)

(** The balance of committed weight after a call that ended in [r], or
    [None] when the call is not legal at balance [bal]: weights freed are
    positive and do not exceed the balance, and the balance stays within
    the 31 bits of the active count.  Only reservations, frees and reads
    of the counters are considered. *)
Definition legalStep (bal : Z) (c : call) (r : result) : option Z :=
  match c, r with
  | CReserve, Returned _ =>
      if bal + 1 <=? maxInt32 then Some (bal + 1) else None
  | CReserveN _ n, Returned (VBool true)
  | CTryReserveN n, Returned (VBool true) =>
      if bal + n <=? maxInt32 then Some (bal + n) else None
  | CFree, _ => if 1 <=? bal then Some (bal - 1) else None
  | CFreeN n, _ => if (0 <? n) && (n <=? bal) then Some (bal - n) else None
  | (CWait | CWaitChan | CSetSize _), _ => None
  | _, _ => Some bal
  end.

Fixpoint legal (bal : Z) (tr : list (call * result * World)) : bool :=
  match tr with
  | [] => true
  | (c, r, _) :: tr' =>
      match legalStep bal c r with
      | Some bal' => legal bal' tr'
      | None => false
      end
  end.

Definition isFree (c : call) : bool :=
  match c with
  | CFree | CFreeN _ => true
  | _ => false
  end.

(** A channel nobody is parked on and that is open. *)
Definition quiet (s : chanState) : bool :=
  negb (closed s) && (sendq s =? 0)%nat && (recvq s =? 0)%nat.

(** A world in which the group is used by one goroutine only: nothing in
    the wait slot, all channels quiet, and a block channel exactly when the
    size, which fits 32 bits, is positive. *)
Definition settled (w : World) : bool :=
  match waitChan (grp w) with None => true | Some _ => false end &&
  forallb quiet (chans w) &&
  match blockChan (grp w) with
  | None => size (grp w) =? 0
  | Some (Chan _) => (0 <? size (grp w)) && (size (grp w) <=? maxUint32)
  | Some _ => false
  end.

(** A group nobody has used yet, as [NewGroup] or the zero value give it. *)
Definition fresh (w : World) : bool :=
  (counter (grp w) =? 0) && settled w.

(** The state of a group used by one goroutine that holds a balance of
    [bal]: nobody is queued and the active count is the balance. *)
Definition balanced (bal : Z) (w : World) : Prop :=
  settled w = true /\ pending w = 0 /\ active w = bal /\ 0 <= bal <= maxInt32.

(** ** Legal programs that also wait *)

(** The balance of committed weight after a call that ended in [r], or
    [None] when the call is not legal at balance [bal], for programs of
    any calls: as [legalStep] for reservations, frees and reads, while
    [Wait], [WaitChan] and [SetSize] are always legal and leave the
    balance as it is. *)
Definition lawfulStep (bal : Z) (c : call) (r : result) : option Z :=
  match c with
  | CWait | CWaitChan | CSetSize _ => Some bal
  | _ => legalStep bal c r
  end.

Fixpoint lawful (bal : Z) (tr : list (call * result * World)) : bool :=
  match tr with
  | [] => true
  | (c, r, _) :: tr' =>
      match lawfulStep bal c r with
      | Some bal' => lawful bal' tr'
      | None => false
      end
  end.

(** A channel nobody is parked on, open or closed. *)
Definition idle (s : chanState) : bool :=
  (sendq s =? 0)%nat && (recvq s =? 0)%nat.

(** The state of a group used by one goroutine that holds a balance of
    [bal] and may have waited: nobody is queued or parked, the active
    count is the balance, the wait slot is in order, and there is a block
    channel exactly when the size, which fits 32 bits, is positive. *)
Definition orderly (bal : Z) (w : World) : Prop :=
  waitOk w = true /\ forallb idle (chans w) = true /\
  match blockChan (grp w) with
  | None => size (grp w) = 0
  | Some (Chan _) => 0 < size (grp w) <= maxUint32
  | Some _ => False
  end /\
  pending w = 0 /\ active w = bal /\ 0 <= bal <= maxInt32.

(** ** Programs on a group without a limit *)

(** A group without a limit on which nobody is queued. *)
Definition unlimited (w : World) : Prop :=
  size (grp w) = 0 /\ blockChan (grp w) = None /\ pending w = 0.

(** The two reservations of 2^31 - 1 and of 1, on a zero [Group]. *)
Definition carryScenario : list call := [ CReserveN nilChan (2^31 - 1); CReserve ].

(** The calls considered on a group of size 0: [SetSize] with a size that
    is zero or negative only, and reservations and frees that keep the
    active count within its 32 signed bits. *)
Definition unlimitedOk (w : World) (c : call) : bool :=
  match c with
  | CReserve => active w + 1 <=? maxInt32
  | CReserveN d n => ready w (Recv d) || (n <=? 0) || (active w + n <=? maxInt32)
  | CTryReserveN n => (n <=? 0) || (active w + n <=? maxInt32)
  | CFree => minInt32 <=? active w - 1
  | CFreeN n => (n <=? 0) || (minInt32 <=? active w - n)
  | CSetSize n => n <=? 0
  | _ => true
  end.

(** ** The wake-up of another reserver *)

(** [notifyReserve]; its only call, in [reserveNSuccessWait], is commented
    out, and the same steps are written out there. *)
Definition notifyReserve (blockChan : chan) (excludeN : Z) : M (Z * bool) :=
  counter <- counter_Load ;;
  let '(pending, _) := counterParts counter in
  (* only proceed if there are other pending calls. *)
  if int (pending - excludeN) <=? 0 then ret (counter, false)
  else
    (* wake up a Reserve call, or unblock another that's trying the same. *)
    i <- select [Send blockChan; Recv blockChan] false ;;
    match i with
    | O => ret (counter, true)
    | _ => ret (counter, false)
    end.

(** ** A parked reservation *)

(** What [reserveNSlow] does once the [select] it parked in is over: [i]
    is the case taken, 0 for the block channel and 1 for the cancellation
    channel. *)
Definition afterPark (fuel : nat) (size : Z) (doneChan : chan) (reserveN : Z)
    (blockChanVal : chan) (i : nat) : M bool :=
  match i with
  | O =>
      ' (reloop, ok) <- reserveNSuccessWait (S fuel) size doneChan reserveN blockChanVal ;;
      if ok then ret true
      else if negb reloop then ret false
      else reserveNSlowLoop fuel size doneChan reserveN blockChanVal
  | _ =>
      _ <- reserveNAbortWait (S fuel) blockChanVal reserveN ;; ret false
  end.

(** The world in which one more goroutine is parked on the channel [id]
    as a receiver. *)
Definition parkReceiver (id : nat) (w : World) : World :=
  match chans w !! id with
  | Some s => withChan id (mkChanState (closed s) (sendq s) (S (recvq s))) w
  | None => w
  end.

(** ** The wait channel *)

(** The world after [initWaitChanSlow] made a channel and stored it in the
    wait slot. *)
Definition installed (w : World) : World :=
  mkWorld (mkGroup (Some (Chan (length (chans w)))) (blockChan (grp w))
                   (counter (grp w)) (size (grp w)))
          (chans w ++ [mkChanState false 0 0]).

(** The world after [notifyWait] put the nil channel in the wait slot and
    closed the channel [id], in state [s], that was waiting there. *)
Definition released (id : nat) (s : chanState) (w : World) : World :=
  mkWorld (mkGroup (Some nilChan) (blockChan (grp w)) (counter (grp w)) (size (grp w)))
          (<[id := mkChanState true (sendq s) 0]> (chans w)).

(** Whether a channel value denotes a closed channel. *)
Definition chanClosed (w : World) (c : chan) : bool :=
  match c with
  | nilChan => false
  | closedChan => true
  | Chan id =>
      match chans w !! id with
      | Some s => closed s
      | None => false
      end
  end.

(** ** Invariants under scheduling *)

(** The channels of the group are in order: there is a block channel
    exactly when the size is not 0, and it is allocated and open; the wait
    slot is empty, holds the nil channel, or holds an allocated, open
    channel that is not the block channel. *)
Definition wired (w : World) : bool :=
  match blockChan (grp w) with
  | None => size (grp w) =? 0
  | Some c => isOpen w c
  end &&
  match waitChan (grp w) with
  | None => true
  | Some nilChan => true
  | Some c => isOpen w c && negb (bool_decide (blockChan (grp w) = Some c))
  end.

(** The active count is at most the size, on a group with a limit; asked
    for only when [bound] is set. *)
Definition within (bound : bool) (w : World) : Prop :=
  bound = true -> 0 < size (grp w) -> active w <= size (grp w).

(** A world of the group configured as in [w0]: the size and the block
    channel are those of [w0], and the channels are in order. *)
Definition stable (w0 : World) (bound : bool) (w : World) : Prop :=
  size (grp w) = size (grp w0) /\ blockChan (grp w) = blockChan (grp w0) /\
  wired w = true /\ within bound w.

(** [upholds inv err o]: the outcome [o] carries a world in [inv] wherever
    it stops, at a suspension as at its end, whenever it is resumed in
    worlds of [inv]; and it faults only with a message of [err]. *)
Inductive upholds {A : Type} (inv : World -> Prop) (err : string -> Prop) :
    outcome A -> Prop :=
| upholds_Done (a : A) (w : World) :
    inv w -> upholds inv err (Done a w)
| upholds_Fault (msg : string) (w : World) :
    inv w -> err msg -> upholds inv err (Fault msg w)
| upholds_Blocked (on : list comm) (w : World) (k : nat -> World -> outcome A) :
    inv w -> (forall i w', inv w' -> upholds inv err (k i w')) ->
    upholds inv err (Blocked on w k)
| upholds_Spin (w : World) :
    inv w -> upholds inv err (Spin w).

(** A call of a method, with what it does after a suspension. *)
Definition invoke (fuel : nat) (c : call) : M value :=
  match c with
  | CReserve => _ <- Reserve fuel ;; ret VUnit
  | CReserveN doneChan n => b <- ReserveN fuel doneChan n ;; ret (VBool b)
  | CTryReserveN n => b <- TryReserveN fuel n ;; ret (VBool b)
  | CFree => _ <- Free fuel ;; ret VUnit
  | CFreeN n => _ <- FreeN fuel n ;; ret VUnit
  | CWait => _ <- Wait ;; ret VUnit
  | CWaitChan => c <- WaitChan ;; ret (VChan c)
  | CSetSize n => _ <- SetSize n ;; ret VUnit
  | CSize => z <- Size ;; ret (VInt z)
  | CActiveCount => z <- ActiveCount ;; ret (VInt z)
  | CPendingCount => z <- PendingCount ;; ret (VInt z)
  end.

(** The panics of the methods other than [SetSize], on a group whose
    channels are in order. *)
Definition mayPanic (c : call) (msg : string) : Prop :=
  match c with
  | CReserveN _ n | CTryReserveN n =>
      n <= 0 /\ msg = "sema.Group: invalid group reserve N value"
  | CFreeN n =>
      (n <= 0 /\ msg = "sema.Group: invalid group free N value") \/
      (0 < n /\ msg = negativeCounter)
  | CFree => msg = negativeCounter
  | _ => False
  end.

Definition isSetSize (c : call) : bool :=
  match c with
  | CSetSize _ => true
  | _ => false
  end.

(** A free that does not take the active count below - 2^31. *)
Definition keepsBelow (w : World) (c : call) : bool :=
  match c with
  | CFree => minInt32 <=? active w - 1
  | CFreeN n => (n <=? 0) || (minInt32 <=? active w - n)
  | _ => true
  end.

(** ** The balance of a run *)

(** The balance of committed weight after each call of a run, as
    [legalStep] counts it. *)
Fixpoint tally (bal : Z) (tr : list (call * result * World)) : list Z :=
  match tr with
  | [] => []
  | (c, r, _) :: tr' =>
      match legalStep bal c r with
      | Some bal' => bal' :: tally bal' tr'
      | None => []
      end
  end.

(** A call that returned or panicked. *)
Definition ended (r : result) : bool :=
  match r with
  | Returned _ | Panicked _ => true
  | _ => false
  end.

(** ** The benchmarks *)

(** The loop of [benchmarkSemaGroupUncontended], run [iterations] times
    (as many as [pb.Next()] allows) by each goroutine on a group of its
    own. *)
Fixpoint uncontendedLoop (fuel : nat) (iterations : nat) : M unit :=
  match iterations with
  | O => ret tt
  | S iterations' =>
      _ <- Reserve fuel ;;
      _ <- Free fuel ;;
      _ <- Wait ;;
      uncontendedLoop fuel iterations'
  end.

Definition benchmarkSemaGroupUncontended (fuel : nat) (iterations : nat) : M unit :=
  fun w => uncontendedLoop fuel iterations (mkWorld zeroGroup (chans w)).










(** ** What a call adds to the counter *)

(** The counter as one number: its pending count times 2^32 plus its
    (signed) active count. *)
Definition valueOf (counter : Z) : Z :=
  let '(pending, active) := counterParts counter in pending * 2^32 + active.

Definition valueIn (w : World) : Z := valueOf (counter (grp w)).

(** What an active delta adds once [counterUpdate] has cut it to 32 bits:
    the delta itself when it is between - 2^32 and 2^32. *)
Definition eff (activeDelta : Z) : Z :=
  if activeDelta >? 0 then activeDelta mod 2^32
  else - ((- activeDelta) mod 2^32).

(** Equal as 64-bit words. *)
Definition sameMod64 (x y : Z) : Prop := (x - y) mod 2^64 = 0.

(** Whether a goroutine parked on [on] can be woken through its case
    [i]: the case is there, and it is not a communication on a nil
    channel. *)
Definition wakes (on : list comm) (i : nat) : bool :=
  match on !! i with
  | Some (Recv c) | Some (Send c) => negb (bool_decide (c = nilChan))
  | Some Sched => true
  | None => false
  end.

(** [contributes owes mid base o]: [base] is what the counter would be
    worth without this call, so that in a world [w] the call has added
    [valueIn w - base] so far.  At a return with [a] it has added an amount
    of [owes a], and at a fault, a suspension or a spin an amount of [mid];
    what the others do to the counter while it is suspended moves [base]
    and not what the call has added, whatever the world it is resumed in. *)
Inductive contributes {A : Type} (owes : A -> Z -> Prop) (mid : Z -> Prop) :
    Z -> outcome A -> Prop :=
| contributes_Done (a : A) (w : World) (base : Z) :
    owes a (valueIn w - base) -> contributes owes mid base (Done a w)
| contributes_Fault (msg : string) (w : World) (base : Z) :
    mid (valueIn w - base) -> contributes owes mid base (Fault msg w)
| contributes_Blocked (on : list comm) (w : World)
    (k : nat -> World -> outcome A) (base : Z) :
    mid (valueIn w - base) ->
    (forall i w', wakes on i = true ->
       contributes owes mid (valueIn w' - (valueIn w - base)) (k i w')) ->
    contributes owes mid base (Blocked on w k)
| contributes_Spin (w : World) (base : Z) :
    mid (valueIn w - base) -> contributes owes mid base (Spin w).

(** What a call has added to the counter when it returns [v]. *)
Definition owed (c : call) (v : value) : Z :=
  match c, v with
  | CReserve, _ => 1
  | CReserveN _ n, VBool true => eff n
  | CTryReserveN n, VBool true => eff n
  | CFree, _ => -1
  | CFreeN n, _ => eff (int (- n))
  | _, _ => 0
  end.

(** What a call may have added to the counter while it is under way:
    nothing, or its weight as pending for a reservation, or its weight
    taken off for a free. *)
Definition inFlight (c : call) (z : Z) : Prop :=
  sameMod64 z 0 \/
  match c with
  | CReserve => sameMod64 z (2^32)
  | CReserveN _ n => sameMod64 z (n * 2^32)
  | CFree => sameMod64 z (-1)
  | CFreeN n => sameMod64 z (eff (int (- n)))
  | _ => False
  end.

(** ** Where a call parks *)

(** [parksOn post P o]: whenever [o] is suspended, it is on cases [P], and
    what it returns is in [post], however it is resumed. *)
Inductive parksOn {A : Type} (post : A -> Prop) (P : list comm -> Prop) :
    outcome A -> Prop :=
| parksOn_Done (a : A) (w : World) : post a -> parksOn post P (Done a w)
| parksOn_Fault (msg : string) (w : World) : parksOn post P (Fault msg w)
| parksOn_Blocked (on : list comm) (w : World) (k : nat -> World -> outcome A) :
    P on ->
    (forall i w', wakes on i = true -> parksOn post P (k i w')) ->
    parksOn post P (Blocked on w k)
| parksOn_Spin (w : World) : parksOn post P (Spin w).

(** The suspension points of the methods, for a call made in [w]. *)
Definition parksAt (c : call) (w : World) (on : list comm) : Prop :=
  match c with
  | CReserve =>
      exists bc, blockChan (grp w) = Some bc /\
                 (on = [Recv bc; Recv nilChan] \/ on = [Send bc; Recv bc])
  | CReserveN d n =>
      (d <> nilChan /\ (on = [Recv d] \/ on = [Sched])) \/
      exists bc, blockChan (grp w) = Some bc /\
                 (on = [Recv bc; Recv d] \/ on = [Send bc; Recv bc])
  | CFree | CFreeN _ => on = [Sched]
  | CWait => exists c, c <> nilChan /\ on = [Recv c]
  | _ => False
  end.

End sema.

Import sema.

(** * Arithmetic of the packed counter *)

Ltac modarith :=
  unfold uint32, int32, uint64, int, maxInt32, minInt32, maxUint32, maxInt in *;
  Z.div_mod_to_equations; lia.

Section Arithmetic.

Lemma uint32_range z : 0 <= uint32 z < 2^32.
Proof. modarith. Qed.

Lemma int32_range z : - 2^31 <= int32 z < 2^31.
Proof. modarith. Qed.

Lemma uint32_small z : 0 <= z < 2^32 -> uint32 z = z.
Proof. intros; modarith. Qed.

Lemma int32_small z : - 2^31 <= z < 2^31 -> int32 z = z.
Proof. intros; modarith. Qed.

Lemma uint64_small z : 0 <= z < 2^64 -> uint64 z = z.
Proof. intros; modarith. Qed.

Lemma int_small z : - 2^63 <= z < 2^63 -> int z = z.
Proof. intros; modarith. Qed.

Lemma int32_add_int32 a b : int32 (a + int32 b) = int32 (a + b).
Proof. modarith. Qed.

Lemma uint32_add_uint32 a b : uint32 (a + uint32 b) = uint32 (a + b).
Proof. modarith. Qed.

(** No bit of [lo] reaches the bits of [hi << n]. *)
Lemma land_shiftl_low hi lo n :
  0 <= n -> 0 <= lo < 2^n -> Z.land (Z.shiftl hi n) lo = 0.
Proof.
  intros Hn Hlo. apply Z.bits_inj'. intros i Hi.
  rewrite Z.land_spec, Z.bits_0.
  destruct (Z.lt_ge_cases i n) as [Hlt|Hge].
  - rewrite Z.shiftl_spec_low by lia. reflexivity.
  - destruct (Z.eq_dec lo 0) as [->|Hne].
    + rewrite Z.bits_0. apply andb_false_r.
    + rewrite (Z.bits_above_log2 lo i), andb_false_r; [reflexivity|lia|].
      apply Z.lt_le_trans with n; [|lia].
      apply Z.log2_lt_pow2; lia.
Qed.

Lemma lor_shiftl_add hi lo n :
  0 <= n -> 0 <= lo < 2^n -> Z.lor (Z.shiftl hi n) lo = hi * 2^n + lo.
Proof.
  intros Hn Hlo.
  rewrite <- Z.shiftl_mul_pow2 by lia.
  pose proof (land_shiftl_low hi lo n Hn Hlo) as H0.
  rewrite <- Z.lxor_lor by exact H0.
  symmetry. apply Z.add_nocarry_lxor. exact H0.
Qed.

Lemma counterParts_pack p a :
  0 <= p < 2^32 -> - 2^31 <= a < 2^31 -> counterParts (pack p a) = (p, a).
Proof.
  intros Hp Ha. unfold counterParts, pack.
  pose proof (uint32_range a) as Hu.
  rewrite Z.shiftr_div_pow2 by lia.
  f_equal.
  - replace ((p * 2^32 + uint32 a) / 2^32) with p
      by (Z.div_mod_to_equations; lia).
    apply uint32_small; lia.
  - modarith.
Qed.

Lemma newCounterOf_pack old pd ad :
  let oldPending := fst (counterParts old) in
  let oldActive := snd (counterParts old) in
  let newActive := int32 (oldActive + ad) in
  newCounterOf old pd ad =
  pack (uint32 (oldPending + pd + carry oldActive ad newActive)) newActive.
Proof.
  unfold newCounterOf, carry, pack. cbn zeta.
  destruct (counterParts old) as [p a] eqn:E. cbn [fst snd].
  rewrite int32_add_int32, uint32_add_uint32.
  set (na := int32 (a + ad)).
  set (np := if (ad >? 0) && (na <? a) then uint32 (uint32 (p + pd) + 1)
             else if (ad <? 0) && (na >? a) then uint32 (uint32 (p + pd) - 1)
             else uint32 (p + pd)).
  assert (Hnp : np = uint32 (p + pd + (if (ad >? 0) && (na <? a) then 1
             else if (ad <? 0) && (na >? a) then -1 else 0))).
  { subst np. destruct ((ad >? 0) && (na <? a)); [modarith|].
    destruct ((ad <? 0) && (na >? a)); [modarith|]. f_equal; lia. }
  rewrite <- Hnp.
  assert (Hr : 0 <= np < 2^32) by (rewrite Hnp; apply uint32_range).
  pose proof (uint32_range na) as Hl.
  rewrite (uint64_small np) by lia.
  rewrite (uint64_small (uint32 na)) by lia.
  rewrite (uint64_small (Z.shiftl np 32))
    by (rewrite Z.shiftl_mul_pow2; lia).
  apply lor_shiftl_add; lia.
Qed.

Lemma counterParts_newCounterOf old pd ad :
  let oldPending := fst (counterParts old) in
  let oldActive := snd (counterParts old) in
  let newActive := int32 (oldActive + ad) in
  counterParts (newCounterOf old pd ad) =
  (uint32 (oldPending + pd + carry oldActive ad newActive), newActive).
Proof.
  cbn zeta. rewrite newCounterOf_pack. cbn zeta.
  apply counterParts_pack; [apply uint32_range | apply int32_range].
Qed.

End Arithmetic.

(** * The method monad *)

Section Monad.

Lemma bind_Done {A B} (m : M A) (f : A -> M B) w a w' :
  m w = Done a w' -> bind m f w = f a w'.
Proof. unfold bind. intros ->. reflexivity. Qed.

Lemma counterUpdate_load old pd ad w :
  counter (grp w) = old ->
  counterUpdate old pd ad w =
  Done (newCounterOf old pd ad, true) (setCounter (newCounterOf old pd ad) w).
Proof.
  intros <-. unfold counterUpdate, bind, counter_CompareAndSwap.
  rewrite Z.eqb_refl. reflexivity.
Qed.

Lemma counterUpdate_stale old pd ad w :
  counter (grp w) <> old ->
  counterUpdate old pd ad w = Done (newCounterOf old pd ad, false) w.
Proof.
  intros Hne. unfold counterUpdate, bind, counter_CompareAndSwap.
  destruct (Z.eqb_spec (counter (grp w)) old); [contradiction|reflexivity].
Qed.

(** Between two suspension points nothing else writes the counter, so the
    retry loop commits in its first round. *)
Lemma counterAdd_S fuel pd ad w :
  counterAdd (S fuel) pd ad w =
  Done (newCounterOf (counter (grp w)) pd ad)
       (setCounter (newCounterOf (counter (grp w)) pd ad) w).
Proof.
  cbn [counterAdd]. unfold bind at 1. cbn [counter_Load bindO].
  unfold bind at 1. rewrite counterUpdate_load by reflexivity. reflexivity.
Qed.

End Monad.

(** * The counter update *)

(** C2: for every old counter word and every pair of deltas, the word
    computed by [counterUpdate] has as its active half the old active
    count plus the active delta in signed 32-bit wrap-around arithmetic,
    and as its pending half the old pending count plus the pending delta
    modulo 2^32, plus one exactly when the active delta is positive and the
    new active count is below the old one, minus one exactly when the
    active delta is negative and the new active count is above the old
    one; the word holds the pending half in its upper 32 bits and the
    active half, taken as unsigned, in its lower 32 bits. *)
Theorem C2_counterUpdate_word (w : World) (old pd ad : Z) :
  let oldPending := fst (counterParts old) in
  let oldActive := snd (counterParts old) in
  exists (newCounter : Z) (ok : bool) (w' : World),
    counterUpdate old pd ad w = Done (newCounter, ok) w' /\
    let newPending := fst (counterParts newCounter) in
    let newActive := snd (counterParts newCounter) in
    (- 2^31 <= newActive < 2^31 /\
     (newActive - (oldActive + ad)) mod 2^32 = 0) /\
    (0 <= newPending < 2^32 /\
     (newPending -
      (oldPending + pd +
       (if (ad >? 0) && (newActive <? oldActive) then 1
        else if (ad <? 0) && (newActive >? oldActive) then -1
        else 0))) mod 2^32 = 0) /\
    newCounter = newPending * 2^32 + newActive mod 2^32 /\
    Z.shiftr newCounter 32 = newPending /\
    newCounter mod 2^32 = newActive mod 2^32.
Proof.
  cbn zeta.
  exists (newCounterOf old pd ad).
  assert (Hex : exists ok w',
             counterUpdate old pd ad w = Done (newCounterOf old pd ad, ok) w').
  { destruct (Z.eq_dec (counter (grp w)) old) as [He|Hne].
    - eexists _, _. apply counterUpdate_load, He.
    - eexists _, _. apply counterUpdate_stale, Hne. }
  destruct Hex as (ok & w' & Hex). exists ok, w'. split; [exact Hex|].
  rewrite counterParts_newCounterOf. cbn [fst snd].
  rewrite newCounterOf_pack. cbn zeta.
  set (a := snd (counterParts old)). set (p := fst (counterParts old)).
  set (na := int32 (a + ad)).
  fold (carry a ad na).
  set (np := uint32 (p + pd + carry a ad na)).
  pose proof (int32_range (a + ad)) as Hna. fold na in Hna.
  pose proof (uint32_range (p + pd + carry a ad na)) as Hnp. fold np in Hnp.
  pose proof (uint32_range na) as Hlo.
  repeat split; try lia.
  - subst na. modarith.
  - subst np. modarith.
  - unfold pack. rewrite Z.shiftr_div_pow2 by lia.
    Z.div_mod_to_equations. lia.
  - unfold pack. fold (uint32 na). modarith.
Qed.

(** * Construction and capacity *)

Section Capacity.

Lemma setSize_nonpositive n w : n <= 0 -> setSize n w = Done tt w.
Proof.
  intros Hn. unfold setSize.
  destruct (Z.ltb_spec n 0).
  - reflexivity.
  - replace n with 0 by lia. reflexivity.
Qed.

Lemma setSize_fits n w :
  0 < n <= maxUint32 ->
  setSize n w =
  Done tt (mkWorld (mkGroup (waitChan (grp w)) (Some (Chan (length (chans w))))
                            (counter (grp w)) n)
                   (chans w ++ [mkChanState false 0 0])).
Proof.
  intros Hn. unfold setSize.
  destruct (Z.ltb_spec n 0); [lia|].
  destruct (Z.gtb_spec n 0); [|lia].
  rewrite uint32_small by (unfold maxUint32 in Hn; lia).
  rewrite Z.eqb_refl. reflexivity.
Qed.

Lemma setSize_too_big n w :
  maxUint32 < n -> setSize n w = Fault "sema.Group: incorrect group size" w.
Proof.
  intros Hn. unfold setSize.
  destruct (Z.ltb_spec n 0); [unfold maxUint32 in Hn; lia|].
  destruct (Z.gtb_spec n 0); [|unfold maxUint32 in Hn; lia].
  destruct (Z.eqb_spec (uint32 n) n) as [He|Hne]; [|reflexivity].
  pose proof (uint32_range n). unfold maxUint32 in Hn. lia.
Qed.

End Capacity.

(** C7: the zero value of [Group] and the group made by [NewGroup] with a
    size that is zero or negative are in the same state: size 0, counter 0,
    no block channel, no wait channel.  Every method therefore does the
    same on both; both are unlimited, with an active and a pending count
    of 0. *)
Theorem C7_zero_value_is_NewGroup_0 (k : Z) (g : Group) (cs : list chanState) :
  k <= 0 ->
  NewGroup k (mkWorld g cs) = Done tt (mkWorld zeroGroup cs) /\
  (size zeroGroup = 0 /\ counter zeroGroup = 0 /\
   blockChan zeroGroup = None /\ waitChan zeroGroup = None) /\
  (forall (A : Type) (m : M A),
     bind (NewGroup k) (fun _ => m) (mkWorld g cs) = m (mkWorld zeroGroup cs)) /\
  Size (mkWorld zeroGroup cs) = Done 0 (mkWorld zeroGroup cs) /\
  ActiveCount (mkWorld zeroGroup cs) = Done 0 (mkWorld zeroGroup cs) /\
  PendingCount (mkWorld zeroGroup cs) = Done 0 (mkWorld zeroGroup cs).
Proof.
  intros Hk.
  assert (HN : NewGroup k (mkWorld g cs) = Done tt (mkWorld zeroGroup cs)).
  { unfold NewGroup. cbn [chans]. apply setSize_nonpositive, Hk. }
  split; [exact HN|]. split; [repeat split|].
  split; [|repeat split].
  intros A m. apply bind_Done with (1 := HN).
Qed.

Lemma C7_witness :
  NewGroup (-3) (mkWorld (mkGroup (Some nilChan) None 7 2) []) =
  Done tt (mkWorld zeroGroup []).
Proof.
  apply (C7_zero_value_is_NewGroup_0 (-3) (mkGroup (Some nilChan) None 7 2) []).
  lia.
Defined.

(** C8: [SetSize n] on a group whose counter is 0 and that has no block
    channel: with [n <= 0] it returns and leaves the group as it is, hence
    unlimited ([Size] is 0) when it was; with [0 < n] fitting 32 unsigned
    bits it returns, [Size] is [n] and a fresh block channel is installed;
    with a greater [n] it faults.  A second [SetSize] after one that
    installed the block channel faults with "group already initialized",
    and [SetSize] on a group whose counter is not 0 faults. *)
Theorem C8_SetSize (w : World) (n : Z) :
  (counter (grp w) = 0 -> blockChan (grp w) = None ->
   (n <= 0 ->
    SetSize n w = Done tt w /\
    (size (grp w) = 0 -> Size w = Done 0 w)) /\
   (0 < n <= maxUint32 ->
    exists w', SetSize n w = Done tt w' /\
      Size w' = Done n w' /\
      blockChan (grp w') = Some (Chan (length (chans w))) /\
      isOpen w' (Chan (length (chans w))) = true /\
      counter (grp w') = 0 /\ waitChan (grp w') = waitChan (grp w) /\
      (forall m : Z,
         SetSize m w' = Fault "sema.Group: group already initialized" w')) /\
   (maxUint32 < n ->
    SetSize n w = Fault "sema.Group: incorrect group size" w)) /\
  (counter (grp w) <> 0 ->
   SetSize n w =
   Fault "sema.Group: concurrent Reserve calls while initializing group" w).
Proof.
  split.
  - intros Hc Hb. split; [|split].
    + intros Hn. split.
      * unfold SetSize, bind at 1. cbn [counter_Load bindO]. rewrite Hc.
        cbn [Z.eqb negb]. unfold bind at 1. cbn [blockChan_Load bindO].
        rewrite Hb. unfold bind at 1. rewrite setSize_nonpositive by exact Hn.
        cbn [bindO]. unfold bind. cbn [counter_Load bindO]. rewrite Hc.
        reflexivity.
      * intros Hs. unfold Size, bind. cbn [size_Load bindO ret]. rewrite Hs.
        reflexivity.
    + intros Hn. eexists. split; [|split; [|split; [|split; [|split; [|split]]]]].
      * unfold SetSize, bind at 1. cbn [counter_Load bindO]. rewrite Hc.
        cbn [Z.eqb negb]. unfold bind at 1. cbn [blockChan_Load bindO].
        rewrite Hb. unfold bind at 1. rewrite setSize_fits by exact Hn.
        cbn [bindO]. unfold bind. cbn [counter_Load bindO grp counter].
        rewrite Hc. reflexivity.
      * reflexivity.
      * reflexivity.
      * unfold isOpen. cbn [chans].
        rewrite lookup_app_r by lia. rewrite Nat.sub_diag. reflexivity.
      * reflexivity.
      * reflexivity.
      * intros m. reflexivity.
    + intros Hn. unfold SetSize, bind at 1. cbn [counter_Load bindO].
      rewrite Hc. cbn [Z.eqb negb]. unfold bind at 1.
      cbn [blockChan_Load bindO]. rewrite Hb. unfold bind at 1.
      rewrite setSize_too_big by exact Hn. reflexivity.
  - intros Hc. unfold SetSize, bind. cbn [counter_Load bindO].
    destruct (Z.eqb_spec (counter (grp w)) 0); [contradiction|reflexivity].
Qed.

Lemma C8_witness :
  exists w', SetSize 10 (mkWorld zeroGroup []) = Done tt w' /\
             Size w' = Done 10 w'.
Proof.
  destruct (C8_SetSize (mkWorld zeroGroup []) 10) as [H _].
  destruct (H eq_refl eq_refl) as (_ & H2 & _).
  destruct H2 as (w' & H1 & H3 & _).
  { unfold maxUint32; lia. }
  exists w'. split; assumption.
Defined.

(** * Waiting on an empty group *)

Lemma counterParts_world w : counterParts (counter (grp w)) = (pending w, active w).
Proof. unfold pending, active. destruct (counterParts _); reflexivity. Qed.

Lemma initWaitChan_empty w :
  pending w = 0 -> active w = 0 -> initWaitChan w = Done closedChan w.
Proof.
  intros Hp Ha. unfold initWaitChan, bind. cbn [waitChan_Load counter_Load bindO].
  rewrite counterParts_world, Hp, Ha. reflexivity.
Qed.

(** C9: when the pending and the active count of a group are both 0,
    [WaitChan] returns the package-level closed channel and leaves the wait
    slot, and the rest of the world, as it is, and [Wait] returns at once,
    without parking and without changing anything. *)
Theorem C9_wait_on_empty (w : World) :
  pending w = 0 -> active w = 0 ->
  WaitChan w = Done closedChan w /\ Wait w = Done tt w.
Proof.
  intros Hp Ha. split.
  - apply initWaitChan_empty; assumption.
  - unfold Wait. rewrite (bind_Done _ _ _ _ _ (initWaitChan_empty w Hp Ha)).
    reflexivity.
Qed.

Lemma C9_witness :
  let w := mkWorld (mkGroup (Some (Chan 0)) None 0 0) [mkChanState false 0 0] in
  WaitChan w = Done closedChan w /\ Wait w = Done tt w.
Proof.
  apply (C9_wait_on_empty
           (mkWorld (mkGroup (Some (Chan 0)) None 0 0) [mkChanState false 0 0]));
    reflexivity.
Defined.

(** * Counters after an update *)

Section Counters.

Lemma pending_range w : 0 <= pending w < 2^32.
Proof. unfold pending, counterParts. cbn [fst]. apply uint32_range. Qed.

Lemma active_range w : - 2^31 <= active w < 2^31.
Proof. unfold active, counterParts. cbn [snd]. apply int32_range. Qed.

Lemma active_update w pd ad :
  active (setCounter (newCounterOf (counter (grp w)) pd ad) w) =
  int32 (active w + ad).
Proof.
  unfold active at 1. cbn [setCounter withGrp grp counter].
  rewrite counterParts_newCounterOf. reflexivity.
Qed.

Lemma pending_update w pd ad :
  pending (setCounter (newCounterOf (counter (grp w)) pd ad) w) =
  uint32 (pending w + pd + carry (active w) ad (int32 (active w + ad))).
Proof.
  unfold pending at 1. cbn [setCounter withGrp grp counter].
  rewrite counterParts_newCounterOf. reflexivity.
Qed.

(** Without wrap-around of the active half nothing moves between the halves. *)
Lemma carry_no_wrap a ad :
  - 2^31 <= a + ad < 2^31 -> carry a ad (int32 (a + ad)) = 0.
Proof.
  intros H. rewrite int32_small by exact H. unfold carry.
  destruct (Z.gtb_spec ad 0), (Z.ltb_spec (a + ad) a),
    (Z.ltb_spec ad 0), (Z.gtb_spec (a + ad) a); cbn; lia.
Qed.

Lemma active_update_no_wrap w pd ad :
  - 2^31 <= active w + ad < 2^31 ->
  active (setCounter (newCounterOf (counter (grp w)) pd ad) w) = active w + ad.
Proof. intros H. rewrite active_update. apply int32_small, H. Qed.

Lemma pending_update_no_wrap w ad :
  - 2^31 <= active w + ad < 2^31 ->
  pending (setCounter (newCounterOf (counter (grp w)) 0 ad) w) = pending w.
Proof.
  intros H. rewrite pending_update, carry_no_wrap by exact H.
  rewrite !Z.add_0_r. apply uint32_small, pending_range.
Qed.

End Counters.

(** * Calls that do not park *)

Section NonBlocking.

Context (fuel : nat).

Lemma tryReserve_commit sz n tryCall w :
  pending w = 0 -> int (active w + n) <= sz ->
  tryReserve (S fuel) sz n tryCall w =
  Done true (setCounter (newCounterOf (counter (grp w)) 0 n) w).
Proof.
  intros Hp Ha. cbn [tryReserve]. unfold bind at 1. cbn [counter_Load bindO].
  rewrite counterParts_world, Hp.
  destruct (Z.leb_spec (int (active w + n)) sz); [|lia].
  cbn [Z.eqb andb]. unfold bind at 1.
  rewrite counterUpdate_load by reflexivity. reflexivity.
Qed.

Lemma tryReserve_refuse sz n w :
  pending w <> 0 \/ sz < int (active w + n) ->
  tryReserve (S fuel) sz n true w = Done false w.
Proof.
  intros H. cbn [tryReserve]. unfold bind at 1. cbn [counter_Load bindO].
  rewrite counterParts_world.
  destruct (Z.eqb_spec (pending w) 0), (Z.leb_spec (int (active w + n)) sz);
    cbn [andb negb]; try reflexivity. lia.
Qed.

Lemma tryReserve_enqueue sz n w :
  pending w <> 0 \/ sz < int (active w + n) ->
  tryReserve (S fuel) sz n false w =
  Done false (setCounter (newCounterOf (counter (grp w)) n 0) w).
Proof.
  intros H. cbn [tryReserve]. unfold bind at 1. cbn [counter_Load bindO].
  rewrite counterParts_world.
  assert (E : (pending w =? 0) && (int (active w + n) <=? sz) = false).
  { destruct (Z.eqb_spec (pending w) 0), (Z.leb_spec (int (active w + n)) sz);
      cbn [andb]; try reflexivity. lia. }
  rewrite E. cbn [negb]. unfold bind at 1.
  rewrite counterUpdate_load by reflexivity. reflexivity.
Qed.

Lemma precheck_not_ready d w :
  ready w (Recv d) = false -> precheck d w = Done 1%nat w.
Proof.
  intros Hr. unfold precheck. destruct (decide (d = nilChan)); [reflexivity|].
  unfold select. cbn [readyFrom]. rewrite Hr. reflexivity.
Qed.

Lemma perform_Recv d w : exists w', perform (Recv d) w = Done tt w' /\ grp w' = grp w.
Proof.
  destruct d as [| |id]; cbn [perform]; try (eexists; split; reflexivity).
  destruct (chans w !! id) as [s|]; [|eexists; split; reflexivity].
  destruct (closed s); eexists; split; reflexivity.
Qed.

Lemma precheck_ready d w :
  ready w (Recv d) = true ->
  exists w', precheck d w = Done 0%nat w' /\ grp w' = grp w.
Proof.
  intros Hr. unfold precheck.
  destruct (decide (d = nilChan)) as [->|_]; [discriminate|].
  unfold select. cbn [readyFrom]. rewrite Hr. cbn [app].
  destruct (perform_Recv d w) as (w' & -> & Hg).
  exists w'. split; [reflexivity|exact Hg].
Qed.

Lemma ReserveN_unfold d n w :
  0 < n ->
  ReserveN fuel d n w =
  bind (precheck d)
    (fun i =>
       match i with
       | O => ret false
       | _ =>
           size <- size_Load ;;
           if size =? 0 then _ <- counterAdd fuel 0 n ;; ret true
           else if n >? size then
             _ <- (if decide (d = nilChan) then ret tt else recv d) ;;
             ret false
           else
             ok <- tryReserve fuel size n false ;;
             if ok then ret true else reserveNSlow fuel size d n
       end) w.
Proof.
  intros Hn. unfold ReserveN. destruct (Z.leb_spec n 0); [lia|]. reflexivity.
Qed.

End NonBlocking.

Lemma ReserveN_oversized_nil fuel n w :
  0 < size (grp w) -> size (grp w) < n ->
  ReserveN fuel nilChan n w = Done false w.
Proof.
  intros Hs Hlt. rewrite ReserveN_unfold by lia.
  rewrite (bind_Done _ _ _ _ _ (precheck_not_ready nilChan w eq_refl)).
  unfold bind at 1. cbn [size_Load bindO].
  destruct (Z.eqb_spec (size (grp w)) 0); [lia|].
  destruct (Z.gtb_spec n (size (grp w))); [reflexivity|lia].
Qed.

Lemma ReserveN_oversized_parks fuel d n w :
  0 < size (grp w) -> size (grp w) < n ->
  d <> nilChan -> ready w (Recv d) = false ->
  exists k, ReserveN fuel d n w = Blocked [Recv d] w k /\
            forall i w', k i w' = Done false w'.
Proof.
  intros Hs Hlt Hd Hr. rewrite ReserveN_unfold by lia.
  rewrite (bind_Done _ _ _ _ _ (precheck_not_ready d w Hr)).
  unfold bind at 1. cbn [size_Load bindO].
  destruct (Z.eqb_spec (size (grp w)) 0); [lia|].
  destruct (Z.gtb_spec n (size (grp w))); [|lia].
  destruct (decide (d = nilChan)); [contradiction|].
  unfold bind at 1, recv, bind at 1, select. cbn [readyFrom].
  rewrite Hr. cbn [app bindO].
  eexists. split; [reflexivity|]. intros i w'. reflexivity.
Qed.

(** * Oversized reservations *)

(** The counterexample to C1 as stated: on a group of capacity 2, a
    reservation of weight 3 without a cancellation channel does not block
    for ever; it returns false at once. *)
Lemma C1_counterexample :
  let w := mkWorld (mkGroup None (Some (Chan 0)) 0 2) [mkChanState false 0 0] in
  NewGroup 2 (mkWorld zeroGroup []) = Done tt w /\
  ReserveN 1 nilChan 3 w = Done false w.
Proof. split; reflexivity. Qed.

(** C1, amended: on a group of capacity [C > 0], [ReserveN] with a weight
    [n > C] never commits and writes neither count.  With a cancellation
    channel that is not ready it parks on that channel alone, in an
    unchanged world, and returns false once resumed; with one that is ready
    it returns false at once; without a cancellation channel it returns
    false at once as well. *)
Theorem C1_oversized_reserve (fuel : nat) (w : World) (d : chan) (n : Z) :
  0 < size (grp w) -> size (grp w) < n ->
  (d = nilChan -> ReserveN fuel d n w = Done false w) /\
  (d <> nilChan -> ready w (Recv d) = false ->
   exists k, ReserveN fuel d n w = Blocked [Recv d] w k /\
             forall i w', k i w' = Done false w') /\
  (ready w (Recv d) = true ->
   exists w', ReserveN fuel d n w = Done false w' /\ grp w' = grp w).
Proof.
  intros Hs Hn. split; [|split].
  - intros ->. apply ReserveN_oversized_nil; assumption.
  - intros Hd Hr. apply ReserveN_oversized_parks; assumption.
  - intros Hr. rewrite ReserveN_unfold by lia.
    destruct (precheck_ready d w Hr) as (w' & Hp & Hg).
    rewrite (bind_Done _ _ _ _ _ Hp). exists w'. split; [reflexivity|exact Hg].
Qed.

Lemma C1_witness :
  let w := mkWorld (mkGroup None (Some (Chan 0)) 0 2)
                   [mkChanState false 0 0; mkChanState false 0 0] in
  exists k, ReserveN 1 (Chan 1) 3 w = Blocked [Recv (Chan 1)] w k /\
            forall i w', k i w' = Done false w'.
Proof.
  cbn zeta.
  apply (C1_oversized_reserve 1
           (mkWorld (mkGroup None (Some (Chan 0)) 0 2)
                    [mkChanState false 0 0; mkChanState false 0 0])
           (Chan 1) 3); [cbn; lia | cbn; lia | discriminate | reflexivity].
Defined.

(** * TryReserveN *)

Section TryReserve.

Context (fuel : nat).

Lemma TryReserveN_unlimited n w :
  0 < n -> size (grp w) = 0 ->
  TryReserveN (S fuel) n w =
  Done true (setCounter (newCounterOf (counter (grp w)) 0 n) w).
Proof.
  intros Hn Hs. unfold TryReserveN. destruct (Z.leb_spec n 0); [lia|].
  unfold bind at 1. cbn [size_Load bindO]. rewrite Hs. cbn [Z.eqb].
  unfold bind at 1. rewrite counterAdd_S. reflexivity.
Qed.

Lemma TryReserveN_limited n w :
  0 < n -> 0 < size (grp w) -> n <= size (grp w) ->
  TryReserveN (S fuel) n w = tryReserve (S fuel) (size (grp w)) n true w.
Proof.
  intros Hn Hs Hle. unfold TryReserveN. destruct (Z.leb_spec n 0); [lia|].
  unfold bind at 1. cbn [size_Load bindO].
  destruct (Z.eqb_spec (size (grp w)) 0); [lia|].
  destruct (Z.gtb_spec n (size (grp w))); [lia|]. reflexivity.
Qed.

Lemma TryReserveN_oversized n w :
  0 < size (grp w) -> size (grp w) < n ->
  TryReserveN (S fuel) n w = Done false w.
Proof.
  intros Hs Hlt. unfold TryReserveN. destruct (Z.leb_spec n 0); [lia|].
  unfold bind at 1. cbn [size_Load bindO].
  destruct (Z.eqb_spec (size (grp w)) 0); [lia|].
  destruct (Z.gtb_spec n (size (grp w))); [reflexivity|lia].
Qed.

End TryReserve.

(** The counterexample to C3 as stated: on a group of size 0 whose active
    count is 2^31 - 1, [TryReserveN 1] returns true, but the active count
    is then - 2^31, not 2^31, and the pending count has become 1. *)
Lemma C3_counterexample :
  let w := mkWorld (mkGroup None None (2^31 - 1) 0) [] in
  active w = 2^31 - 1 /\ pending w = 0 /\
  exists w', TryReserveN 1 1 w = Done true w' /\
             active w' = - 2^31 /\ active w' <> active w + 1 /\
             pending w' = 1 /\ pending w' <> pending w.
Proof.
  cbn zeta. split; [reflexivity|]. split; [reflexivity|].
  eexists. split; [reflexivity|]. vm_compute. repeat split; discriminate.
Qed.

(** C3, amended: [TryReserveN n] with [n > 0] on a group of size [C > 0]
    returns true and adds exactly [n] to the active count, leaving the
    pending count at 0, when [n <= C], the pending count is 0 and
    [active + n <= C], provided [active + n] fits the signed 32 bits of
    the active count; in every other case ([n > C], or a pending count
    above 0, or [active + n > C]) it returns false and changes nothing.  On
    a group of size 0 it returns true and adds [n] to the active count,
    leaving the pending count as it is, under the same proviso. *)
Theorem C3_TryReserveN (fuel : nat) (w : World) (n : Z) :
  0 < n -> size (grp w) <= maxUint32 ->
  (0 < size (grp w) -> n <= size (grp w) -> pending w = 0 ->
   active w + n <= size (grp w) -> active w + n <= maxInt32 ->
   exists w', TryReserveN (S fuel) n w = Done true w' /\
     active w' = active w + n /\ pending w' = 0 /\
     w' = setCounter (counter (grp w')) w) /\
  (0 < size (grp w) ->
   size (grp w) < n \/ 0 < pending w \/ size (grp w) < active w + n ->
   TryReserveN (S fuel) n w = Done false w) /\
  (size (grp w) = 0 -> active w + n <= maxInt32 ->
   exists w', TryReserveN (S fuel) n w = Done true w' /\
     active w' = active w + n /\ pending w' = pending w /\
     w' = setCounter (counter (grp w')) w).
Proof.
  intros Hn Hty.
  pose proof (active_range w) as Ha. pose proof (pending_range w) as Hp.
  assert (Hint : n <= size (grp w) -> int (active w + n) = active w + n).
  { intros Hle. apply int_small. unfold maxUint32 in Hty. lia. }
  split; [|split].
  - intros Hs Hle Hp0 Hroom Hfit.
    rewrite TryReserveN_limited by assumption.
    rewrite tryReserve_commit by (rewrite ?Hint; assumption).
    eexists. split; [reflexivity|].
    unfold maxInt32 in Hfit.
    rewrite active_update_no_wrap, pending_update_no_wrap by lia.
    repeat split; assumption.
  - intros Hs Hcase.
    destruct (Z.lt_ge_cases (size (grp w)) n) as [Hlt|Hge].
    + apply TryReserveN_oversized; assumption.
    + rewrite TryReserveN_limited by lia.
      apply tryReserve_refuse. rewrite Hint by lia. lia.
  - intros Hs Hfit. rewrite TryReserveN_unlimited by assumption.
    eexists. split; [reflexivity|].
    unfold maxInt32 in Hfit.
    rewrite active_update_no_wrap, pending_update_no_wrap by lia.
    repeat split.
Qed.

Lemma C3_witness :
  let w := mkWorld (mkGroup None (Some (Chan 0)) 1 2) [mkChanState false 0 0] in
  exists w', TryReserveN 1 1 w = Done true w' /\
     active w' = active w + 1 /\ pending w' = 0 /\
     w' = setCounter (counter (grp w')) w.
Proof.
  cbn zeta.
  destruct (C3_TryReserveN 0
              (mkWorld (mkGroup None (Some (Chan 0)) 1 2) [mkChanState false 0 0]) 1)
    as [H _].
  - lia.
  - vm_compute. intro; discriminate.
  - apply H; vm_compute; first [reflexivity | intro; discriminate].
Defined.

(** * The try-reserve scenario *)

(** C4: on a fresh group of capacity 2, the sequential program
    [ReserveN(_,1); TryReserveN(1); TryReserveN(1); FreeN(2); TryReserveN(1);
    ReserveN(_,1); TryReserveN(1)], with a cancellation channel that is
    never ready (nil, or an open channel nobody sends on), runs to its end:
    no call parks, spins or faults; the four [TryReserveN] return true,
    false, true, false, and both [ReserveN] return true. *)
Theorem C4_try_reserve_scenario (fuel : nat) :
  let w0 := mkWorld zeroGroup [mkChanState false 0 0] in
  let w2 := mkWorld (mkGroup None (Some (Chan 1)) 0 2)
                    [mkChanState false 0 0; mkChanState false 0 0] in
  let expected :=
    [ Returned (VBool true); Returned (VBool true); Returned (VBool false);
      Returned VUnit;
      Returned (VBool true); Returned (VBool true); Returned (VBool false) ] in
  NewGroup 2 w0 = Done tt w2 /\
  results (run (S fuel) (tryReserveScenario nilChan) w2) = expected /\
  results (run (S fuel) (tryReserveScenario (Chan 0)) w2) = expected /\
  active (lastWorld w2 (run (S fuel) (tryReserveScenario nilChan) w2)) = 2 /\
  pending (lastWorld w2 (run (S fuel) (tryReserveScenario nilChan) w2)) = 0.
Proof.
  cbn zeta. repeat split; vm_compute; reflexivity.
Qed.

(** * Waking up waiters *)

Section Notify.

Lemma sameCore_refl w : sameCore w w.
Proof. repeat split. Qed.

Lemma sameCore_trans w1 w2 w3 : sameCore w1 w2 -> sameCore w2 w3 -> sameCore w1 w3.
Proof. unfold sameCore. intros (?&?&?) (?&?&?). repeat split; congruence. Qed.

Lemma sameCore_pending w w' : sameCore w w' -> pending w' = pending w.
Proof. intros (H&_). unfold pending. rewrite H. reflexivity. Qed.

(** [close] of a channel ends in a return or a fault and touches no field
    of the group. *)
Lemma close_chan_core c w : endsWithCore w (close_chan c w).
Proof.
  destruct c as [| |id]; cbn [close_chan]; try (repeat split; reflexivity).
  destruct (chans w !! id) as [s|]; [|repeat split; reflexivity].
  destruct (closed s); repeat split; reflexivity.
Qed.

(** [notifyWait] never parks; it writes at most the wait slot. *)
Lemma notifyWait_core p a w : endsWithCore w (notifyWait p a w).
Proof.
  unfold notifyWait.
  destruct ((p >? 0) || (a >? 0)); [split; [reflexivity|apply sameCore_refl]|].
  unfold bind at 1. cbn [waitChan_Load bindO].
  destruct (waitChan (grp w)) as [c|] eqn:Ew;
    [|split; [reflexivity|apply sameCore_refl]].
  destruct (decide (c = nilChan)); [split; [reflexivity|apply sameCore_refl]|].
  unfold bind, waitChan_CompareAndSwap. rewrite Ew.
  destruct (decide (Some c = Some c)); [|contradiction].
  cbn [bindO negb].
  match goal with |- endsWithCore _ (close_chan c ?w1) =>
    destruct (close_chan_core c w1) as [Hf Hg] end.
  split; [exact Hf|]. eapply sameCore_trans; [|exact Hg]. repeat split.
Qed.

(** When the wait slot is in order, [notifyWait] returns. *)
Lemma notifyWait_returns p a w :
  waitOk w = true -> exists w', notifyWait p a w = Done tt w' /\ sameCore w w'.
Proof.
  intros Hok. unfold notifyWait.
  destruct ((p >? 0) || (a >? 0));
    [exists w; split; [reflexivity|apply sameCore_refl]|].
  unfold bind at 1. cbn [waitChan_Load bindO].
  unfold waitOk in Hok.
  destruct (waitChan (grp w)) as [c|] eqn:Ew;
    [|exists w; split; [reflexivity|apply sameCore_refl]].
  destruct (decide (c = nilChan));
    [exists w; split; [reflexivity|apply sameCore_refl]|].
  unfold bind, waitChan_CompareAndSwap. rewrite Ew.
  destruct (decide (Some c = Some c)); [|contradiction].
  cbn [bindO negb].
  destruct c as [| |id]; [contradiction|discriminate|].
  cbn [isOpen] in Hok. cbn [close_chan withGrp chans].
  destruct (chans w !! id) as [s|]; [|discriminate].
  destruct (closed s); [discriminate|].
  eexists. split; [reflexivity|]. repeat split.
Qed.

End Notify.

(** * Freeing *)

Section Channels.

Lemma sameClosed_refl w : sameClosed w w.
Proof. split; reflexivity. Qed.

Lemma sameClosed_lookup w w' id :
  sameClosed w w' -> closed <$> (chans w' !! id) = closed <$> (chans w !! id).
Proof. intros [_ H]. rewrite <- !list_lookup_fmap, H. reflexivity. Qed.

Lemma sameClosed_isOpen w w' c : sameClosed w w' -> isOpen w' c = isOpen w c.
Proof.
  intros H. destruct c as [| |id]; try reflexivity. cbn [isOpen].
  pose proof (sameClosed_lookup w w' id H) as E.
  destruct (chans w' !! id), (chans w !! id); cbn in E; congruence.
Qed.

Lemma sameClosed_sendOk w w' c : sameClosed w w' -> sendOk w' c = sendOk w c.
Proof.
  intros H. destruct c as [| |id]; try reflexivity. cbn [sendOk].
  pose proof (sameClosed_lookup w w' id H) as E.
  destruct (chans w' !! id), (chans w !! id); cbn in E; congruence.
Qed.

Lemma sameClosed_waitOk w w' : sameClosed w w' -> waitOk w' = waitOk w.
Proof.
  intros H. unfold waitOk. destruct H as [Hg Hc]. rewrite Hg.
  destruct (waitChan (grp w)) as [[| |id]|]; try reflexivity.
  apply sameClosed_isOpen. split; assumption.
Qed.

Lemma sameClosed_withChan w id s s' :
  chans w !! id = Some s -> closed s' = closed s ->
  sameClosed w (withChan id s' w).
Proof.
  intros Hl Hc. split; [reflexivity|]. cbn [withChan chans].
  rewrite list_fmap_insert, Hc. apply list_insert_id.
  rewrite list_lookup_fmap, Hl. reflexivity.
Qed.

(** The non-blocking send of [notifyFree]: nobody is parked on the
    channel (the default branch), or a parked receiver is woken, or the
    channel is closed and the send panics. *)
Lemma select_send_default bc w :
  select [Send bc] true w = Done 1%nat w \/
  (exists w', select [Send bc] true w = Done 0%nat w' /\ sameClosed w w') \/
  (select [Send bc] true w = Fault "send on closed channel" w /\
   sendOk w bc = false).
Proof.
  unfold select. cbn [readyFrom ready].
  destruct bc as [| |id]; cbn [app]; [left; reflexivity | right; right; split; reflexivity|].
  cbn [sendOk]. destruct (chans w !! id) as [s|] eqn:El; [|left; reflexivity].
  destruct (closed s) eqn:Ec; cbn [orb app].
  - right; right. cbn [perform]. rewrite El, Ec. split; reflexivity.
  - destruct (0 <? recvq s)%nat; cbn [app]; [|left; reflexivity].
    right; left. cbn [perform]. rewrite El, Ec. cbn [bindO ret].
    eexists. split; [reflexivity|].
    apply sameClosed_withChan with (s := s); [exact El|symmetry; exact Ec].
Qed.

End Channels.

Section Finishes.

Context {A : Type}.

Lemma finishes_of_final env (o r : outcome A) :
  final o = true -> finishes env o r -> r = o.
Proof. intros Hf H. destruct H; [reflexivity|reflexivity|discriminate]. Qed.

Lemma finishes_mono (env1 env2 : World -> Prop) (o r : outcome A) :
  (forall w, env1 w -> env2 w) -> finishes env1 o r -> finishes env2 o r.
Proof.
  intros Hsub H. induction H.
  - constructor.
  - constructor.
  - econstructor; eauto.
Qed.

Lemma finishes_bindO {B : Type} env (o : outcome A) (f : A -> M B) (r : outcome B) :
  finishes env (bindO o f) r ->
  (exists a w', finishes env o (Done a w') /\ finishes env (f a w') r) \/
  (exists msg w', finishes env o (Fault msg w') /\ r = Fault msg w').
Proof.
  induction o as [a w|msg w|on w k IH|w]; cbn [bindO]; intros H.
  - left. exists a, w. split; [constructor|exact H].
  - right. exists msg, w. split; [constructor|].
    inversion H; subst; reflexivity.
  - inversion H as [| |on' w0 k' i w' r' Henv Hk]; subst.
    destruct (IH i w' Hk) as [(a & w1 & H1 & H2)|(msg & w1 & H1 & H2)].
    + left. exists a, w1. split; [econstructor; eauto|exact H2].
    + right. exists msg, w1. split; [econstructor; eauto|exact H2].
  - inversion H.
Qed.

End Finishes.

Section Free.

Lemma calm_sameClosed bc w w' : sameClosed w w' -> calm bc w -> calm bc w'.
Proof.
  intros Hs [H1 H2]. split.
  - rewrite (sameClosed_sendOk w w' bc Hs). exact H1.
  - rewrite (sameClosed_waitOk w w' Hs). exact H2.
Qed.

(** However it is scheduled, [notifyFree]'s loop ends only by returning
    a counter, in a world that is still calm. *)
Lemma notifyFreeLoop_finishes bc fuel :
  forall c p w r,
    calm bc w ->
    finishes (calm bc) (notifyFreeLoop fuel bc c p w) r ->
    exists c' w', r = Done c' w' /\ calm bc w'.
Proof.
  induction fuel as [|fuel IH]; intros c p w r Hcalm H.
  - cbn [notifyFreeLoop] in H. destruct (p >? 0).
    + inversion H.
    + inversion H; subst. eauto.
  - cbn [notifyFreeLoop] in H. destruct (p >? 0).
    2:{ inversion H; subst. eauto. }
    unfold bind at 1 in H.
    destruct (select_send_default bc w)
      as [E|[(w' & E & Hs)|(E & Hbad)]]; rewrite E in H; cbn [bindO] in H.
    + unfold bind at 1, Gosched in H. cbn [bindO] in H.
      inversion H as [| |on' w0 k' i w' r' Henv Hk]; subst.
      unfold bind at 1 in Hk. cbn [counter_Load bindO] in Hk.
      eapply IH; eauto.
    + unfold bind, counter_Load in H. cbn [bindO ret] in H.
      inversion H; subst. eexists _, _. split; [reflexivity|].
      eapply calm_sameClosed; eauto.
    + destruct Hcalm as [Hsend _]. congruence.
Qed.

Lemma notifyFree_finishes bc fuel w r :
  calm bc w ->
  finishes (calm bc) (notifyFree fuel bc w) r ->
  exists c' w', r = Done c' w' /\ calm bc w'.
Proof.
  intros Hcalm H. unfold notifyFree, bind in H. cbn [counter_Load bindO] in H.
  eapply notifyFreeLoop_finishes; eauto.
Qed.

(** When nobody is queued, [notifyFree] returns the counter it loaded and
    leaves the world as it is. *)
Lemma notifyFree_no_pending bc fuel w :
  pending w = 0 -> notifyFree fuel bc w = Done (counter (grp w)) w.
Proof.
  intros Hp. unfold notifyFree, bind. cbn [counter_Load bindO].
  fold (pending w). rewrite Hp. destruct fuel; reflexivity.
Qed.

Lemma int32_sub_int a n : int32 (a + int (- n)) = int32 (a - n).
Proof. modarith. Qed.

Lemma FreeN_unfold fuel n w :
  0 < n ->
  FreeN (S fuel) n w =
  afterDecrement (S fuel) (blockChan (grp w)) (int32 (active w - n))
    (setCounter (newCounterOf (counter (grp w)) 0 (int (- n))) w).
Proof.
  intros Hn. unfold FreeN. destruct (Z.leb_spec n 0); [lia|].
  unfold bind at 1. cbn [blockChan_Load bindO].
  unfold bind at 1. rewrite counterAdd_S. cbn [bindO].
  rewrite counterParts_newCounterOf. cbn [snd].
  fold (active w). rewrite int32_sub_int. reflexivity.
Qed.

End Free.

Section FreeOutcome.

Lemma sameClosed_sameCore w w' : sameClosed w w' -> sameCore w w'.
Proof. intros [Hg _]. unfold sameCore. rewrite Hg. repeat split. Qed.

Lemma keepsCore_trans {A} w w' (o : outcome A) :
  sameCore w w' -> keepsCore w' o -> keepsCore w o.
Proof.
  intros Hs. destruct o; cbn [keepsCore]; try tauto.
  - intros H. eapply sameCore_trans; eauto.
  - intros [H Hm]. split; [eapply sameCore_trans; eauto|exact Hm].
Qed.

Lemma close_chan_keeps c w : keepsCore w (close_chan c w).
Proof.
  destruct c as [| |id]; cbn [close_chan keepsCore];
    try (split; [apply sameCore_refl|discriminate]).
  destruct (chans w !! id) as [s|];
    [|split; [apply sameCore_refl|discriminate]].
  destruct (closed s); cbn [keepsCore];
    [split; [apply sameCore_refl|discriminate]|repeat split].
Qed.

Lemma notifyWait_keeps p a w : keepsCore w (notifyWait p a w).
Proof.
  unfold notifyWait.
  destruct ((p >? 0) || (a >? 0)); [apply sameCore_refl|].
  unfold bind at 1. cbn [waitChan_Load bindO].
  destruct (waitChan (grp w)) as [c|] eqn:Ew; [|apply sameCore_refl].
  destruct (decide (c = nilChan)); [apply sameCore_refl|].
  unfold bind, waitChan_CompareAndSwap. rewrite Ew.
  destruct (decide (Some c = Some c)); [|contradiction].
  cbn [bindO negb].
  eapply keepsCore_trans; [|apply close_chan_keeps]. repeat split.
Qed.

Lemma notifyFreeLoop_keeps bc fuel c p w : keepsCore w (notifyFreeLoop fuel bc c p w).
Proof.
  destruct fuel as [|fuel]; cbn [notifyFreeLoop]; destruct (p >? 0);
    try apply sameCore_refl; [exact I|].
  unfold bind at 1.
  destruct (select_send_default bc w)
    as [E|[(w' & E & Hs)|(E & Hbad)]]; rewrite E; cbn [bindO].
  - exact I.
  - unfold bind, counter_Load. cbn [bindO ret keepsCore].
    apply sameClosed_sameCore, Hs.
  - split; [apply sameCore_refl|discriminate].
Qed.

Lemma notifyFree_keeps bc fuel w : keepsCore w (notifyFree fuel bc w).
Proof.
  unfold notifyFree, bind. cbn [counter_Load bindO]. apply notifyFreeLoop_keeps.
Qed.

(** The outcome of [afterDecrement], when it does not park: the counter
    is the one it started with; it returns only if [a1] is not negative,
    and raises the negative-counter fault only if [a1] is negative. *)
Lemma afterDecrement_shape fuel bc a1 w :
  match afterDecrement fuel bc a1 w with
  | Done _ w' => sameCore w w' /\ 0 <= a1
  | Fault msg w' => sameCore w w' /\ (msg = negativeCounter -> a1 < 0)
  | _ => True
  end.
Proof.
  assert (Hlast : forall p w2, sameCore w w2 ->
            match bind (notifyWait p a1)
                    (fun _ => if a1 <? 0 then panic negativeCounter else ret tt) w2
            with
            | Done _ w' => sameCore w w' /\ 0 <= a1
            | Fault msg w' => sameCore w w' /\ (msg = negativeCounter -> a1 < 0)
            | _ => True
            end).
  { intros p w2 Hs. unfold bind.
    pose proof (notifyWait_keeps p a1 w2) as Hk.
    destruct (notifyWait p a1 w2) as [u w3|msg w3|on w3 k|w3];
      cbn [bindO keepsCore] in *; try exact I.
    - destruct (Z.ltb_spec a1 0); cbn [panic ret].
      + split; [eapply sameCore_trans; eauto|auto].
      + split; [eapply sameCore_trans; eauto|lia].
    - destruct Hk as [Hk Hm]. split; [eapply sameCore_trans; eauto|].
      intros ->. contradiction. }
  unfold afterDecrement. destruct bc as [c|].
  - unfold bind at 1, bind at 1.
    pose proof (notifyFree_keeps c fuel w) as Hk.
    destruct (notifyFree fuel c w) as [cnt w2|msg w2|on w2 k|w2].
    + cbn [keepsCore] in Hk. cbn [bindO]. cbn [ret]. cbn [bindO].
      apply Hlast, Hk.
    + cbn [bindO]. destruct Hk as [Hk Hm]. split; [exact Hk|].
      intros ->. contradiction.
    + cbn [bindO]. exact I.
    + cbn [bindO]. exact I.
  - unfold bind at 1. cbn [ret bindO]. apply Hlast, sameCore_refl.
Qed.

(** Whatever the outcome of [afterDecrement], also when it parks or spins,
    the world it carries has the counter it started with. *)
Lemma bindO_core {A B} w (o : outcome A) (f : A -> M B) :
  sameCore w (worldOf o) ->
  (forall a w', sameCore w' (worldOf (f a w'))) ->
  sameCore w (worldOf (bindO o f)).
Proof.
  intros Ho Hf. destruct o; cbn [bindO worldOf] in *; try exact Ho.
  eapply sameCore_trans; [exact Ho|apply Hf].
Qed.

Lemma notifyFreeLoop_core bc fuel c p w :
  sameCore w (worldOf (notifyFreeLoop fuel bc c p w)).
Proof.
  destruct fuel as [|fuel]; cbn [notifyFreeLoop]; destruct (p >? 0);
    try apply sameCore_refl.
  unfold bind at 1.
  destruct (select_send_default bc w)
    as [E|[(w' & E & Hs)|(E & Hbad)]]; rewrite E; cbn [bindO].
  - apply sameCore_refl.
  - unfold bind, counter_Load. cbn [bindO ret worldOf].
    apply sameClosed_sameCore, Hs.
  - apply sameCore_refl.
Qed.

Lemma afterDecrement_core fuel bc a1 w :
  sameCore w (worldOf (afterDecrement fuel bc a1 w)).
Proof.
  unfold afterDecrement, bind at 1. apply bindO_core.
  - destruct bc as [c|]; [|apply sameCore_refl].
    unfold bind. apply bindO_core; [|intros; apply sameCore_refl].
    unfold notifyFree, bind. cbn [counter_Load bindO].
    apply notifyFreeLoop_core.
  - intros p w'. unfold bind. apply bindO_core.
    + apply notifyWait_core.
    + intros u w2. destruct (a1 <? 0); apply sameCore_refl.
Qed.

End FreeOutcome.

Section FreeN.

Lemma wakeOk_calm w0 bc w :
  blockChan (grp w0) = Some bc -> wakeOk w0 w -> calm bc w.
Proof.
  intros Hb (H1 & H2 & H3). split; [|exact H3].
  unfold blockOk in H2. rewrite H1, Hb in H2. exact H2.
Qed.

(** However [afterDecrement] is scheduled, it ends by the negative-counter
    fault when [a1] is negative and by returning otherwise. *)
Lemma afterDecrement_finishes fuel w0 a1 w r :
  blockChan (grp w) = blockChan (grp w0) ->
  blockOk w = true -> waitOk w = true ->
  finishes (wakeOk w0) (afterDecrement fuel (blockChan (grp w0)) a1 w) r ->
  exists w', r = if a1 <? 0 then Fault negativeCounter w' else Done tt w'.
Proof.
  intros Hb Hbo Hwo H.
  assert (Hlast : forall p w2 r, waitOk w2 = true ->
            finishes (wakeOk w0)
              (bind (notifyWait p a1)
                 (fun _ => if a1 <? 0 then panic negativeCounter else ret tt) w2) r ->
            exists w', r = if a1 <? 0 then Fault negativeCounter w' else Done tt w').
  { intros p w2 r' Hw2 Hr. unfold bind in Hr.
    destruct (notifyWait_returns p a1 w2 Hw2) as (w3 & E & _).
    rewrite E in Hr. cbn [bindO] in Hr. exists w3.
    apply finishes_of_final in Hr; [|destruct (a1 <? 0); reflexivity].
    rewrite Hr. destruct (a1 <? 0); reflexivity. }
  unfold afterDecrement in H.
  destruct (blockChan (grp w0)) as [bc|] eqn:Ebc.
  - assert (Hcalm : calm bc w).
    { split; [|exact Hwo]. unfold blockOk in Hbo. rewrite Hb in Hbo. exact Hbo. }
    unfold bind at 1 in H. apply finishes_bindO in H.
    destruct H as [(p & w2 & HP & HK)|(msg & w2 & HP & _)].
    + unfold bind at 1 in HP. apply finishes_bindO in HP.
      destruct HP as [(c & w3 & HN & HR)|(msg & w3 & _ & HR)]; [|discriminate].
      apply (finishes_mono _ (calm bc)) in HN;
        [|intros w' Hw'; apply (wakeOk_calm w0); assumption].
      destruct (notifyFree_finishes bc fuel w _ Hcalm HN) as (c' & w4 & E & Hc4).
      injection E as -> ->.
      cbn [ret] in HR. inversion HR; subst.
      eapply Hlast; [|exact HK]. apply Hc4.
    + unfold bind at 1 in HP. apply finishes_bindO in HP.
      destruct HP as [(c & w3 & _ & HR)|(msg' & w3 & HN & _)].
      * cbn [ret] in HR. inversion HR.
      * apply (finishes_mono _ (calm bc)) in HN;
          [|intros w' Hw'; apply (wakeOk_calm w0); assumption].
        destruct (notifyFree_finishes bc fuel w _ Hcalm HN) as (c' & w4 & E & _).
        discriminate.
  - unfold bind at 1 in H. cbn [ret bindO] in H. eapply Hlast; eauto.
Qed.

Lemma FreeN_finishes fuel n w r :
  0 < n -> blockOk w = true -> waitOk w = true ->
  finishes (wakeOk w) (FreeN (S fuel) n w) r ->
  exists w', r = if int32 (active w - n) <? 0
                 then Fault negativeCounter w' else Done tt w'.
Proof.
  intros Hn Hbo Hwo H. rewrite FreeN_unfold in H by exact Hn.
  eapply afterDecrement_finishes; [| | |exact H]; [reflexivity|exact Hbo|exact Hwo].
Qed.

Lemma notifyWait_no_waiter p a w :
  waitChan (grp w) = None -> notifyWait p a w = Done tt w.
Proof.
  intros Hw. unfold notifyWait. destruct ((p >? 0) || (a >? 0)); [reflexivity|].
  unfold bind. cbn [waitChan_Load bindO]. rewrite Hw. reflexivity.
Qed.

(** With nobody queued (or no block channel) [afterDecrement] does not
    park. *)
Lemma afterDecrement_quiet fuel bc a1 w :
  waitOk w = true -> bc = None \/ pending w = 0 ->
  exists w', sameCore w w' /\
    afterDecrement fuel bc a1 w =
    if a1 <? 0 then Fault negativeCounter w' else Done tt w'.
Proof.
  intros Hwo Hq. unfold afterDecrement.
  assert (E : exists p,
             (match bc with
              | Some c => bind (notifyFree fuel c)
                            (fun counter => ret (fst (counterParts counter)))
              | None => ret 0
              end) w = Done p w).
  { destruct bc as [c|]; [|eexists; reflexivity].
    destruct Hq as [?|Hp]; [discriminate|].
    unfold bind. rewrite notifyFree_no_pending by exact Hp. eexists; reflexivity. }
  destruct E as (p & E). rewrite (bind_Done _ _ _ _ _ E).
  destruct (notifyWait_returns p a1 w Hwo) as (w' & E' & Hs).
  rewrite (bind_Done _ _ _ _ _ E'). exists w'. split; [exact Hs|].
  destruct (a1 <? 0); reflexivity.
Qed.

Lemma afterDecrement_alone fuel bc a1 w :
  waitChan (grp w) = None -> bc = None \/ pending w = 0 ->
  afterDecrement fuel bc a1 w =
  if a1 <? 0 then Fault negativeCounter w else Done tt w.
Proof.
  intros Hw Hq. unfold afterDecrement.
  assert (E : exists p,
             (match bc with
              | Some c => bind (notifyFree fuel c)
                            (fun counter => ret (fst (counterParts counter)))
              | None => ret 0
              end) w = Done p w).
  { destruct bc as [c|]; [|eexists; reflexivity].
    destruct Hq as [?|Hp]; [discriminate|].
    unfold bind. rewrite notifyFree_no_pending by exact Hp. eexists; reflexivity. }
  destruct E as (p & E). rewrite (bind_Done _ _ _ _ _ E).
  rewrite (bind_Done _ _ _ _ _ (notifyWait_no_waiter p a1 w Hw)).
  destruct (a1 <? 0); reflexivity.
Qed.

(** With a receiver parked on the block channel, [notifyFree] returns at
    once: nothing, when nobody is queued, or the receiver is woken. *)
Lemma notifyFree_receiver bc fuel w :
  hasReceiver w bc = true -> sendOk w bc = true ->
  exists c w', notifyFree (S fuel) bc w = Done c w' /\ sameClosed w w'.
Proof.
  intros Hrecv Hsend. unfold notifyFree, bind at 1. cbn [counter_Load bindO].
  cbn [notifyFreeLoop]. destruct (fst (counterParts (counter (grp w))) >? 0).
  2:{ eexists _, _. split; [reflexivity|apply sameClosed_refl]. }
  unfold bind at 1.
  destruct (select_send_default bc w)
    as [E|[(w' & E & Hs)|(E & Hbad)]]; [|rewrite E|congruence].
  - exfalso. revert E. unfold select. cbn [readyFrom ready].
    destruct bc as [| |id]; try discriminate.
    cbn [hasReceiver sendOk] in *.
    destruct (chans w !! id) as [s|] eqn:El; [|discriminate].
    rewrite Hrecv, orb_true_r. cbn [app perform]. rewrite El.
    destruct (closed s); discriminate.
  - cbn [bindO]. unfold bind, counter_Load. cbn [bindO ret].
    eexists _, _. split; [reflexivity|exact Hs].
Qed.

Lemma afterDecrement_receiver fuel bc a1 w :
  waitOk w = true -> hasReceiver w bc = true -> sendOk w bc = true ->
  final (afterDecrement (S fuel) (Some bc) a1 w) = true.
Proof.
  intros Hwo Hrecv Hsend. unfold afterDecrement, bind at 1, bind at 1.
  destruct (notifyFree_receiver bc fuel w Hrecv Hsend) as (c & w' & E & Hs).
  rewrite E. cbn [bindO ret]. unfold bind.
  destruct (notifyWait_returns (fst (counterParts c)) a1 w') as (w2 & E2 & _).
  - rewrite (sameClosed_waitOk w w' Hs). exact Hwo.
  - rewrite E2. cbn [bindO]. destruct (a1 <? 0); reflexivity.
Qed.

End FreeN.

(** * The misuse fault *)

Lemma active_after_FreeN w n :
  snd (counterParts (newCounterOf (counter (grp w)) 0 (int (- n)))) =
  int32 (active w - n).
Proof.
  rewrite counterParts_newCounterOf. cbn [snd]. fold (active w).
  apply int32_sub_int.
Qed.

Lemma pending_after_FreeN w n :
  minInt32 <= active w - n -> 0 < n ->
  pending (setCounter (newCounterOf (counter (grp w)) 0 (int (- n))) w) = pending w.
Proof.
  intros Hlo Hn. pose proof (active_range w) as Ha.
  unfold pending at 1. cbn [setCounter withGrp grp counter].
  rewrite counterParts_newCounterOf. cbn [fst].
  fold (active w) (pending w). rewrite int32_sub_int.
  assert (E : carry (active w) (int (- n)) (int32 (active w - n)) = 0).
  { unfold minInt32 in Hlo. rewrite int32_small by lia.
    rewrite int_small by lia. unfold carry.
    destruct (Z.gtb_spec (- n) 0), (Z.ltb_spec (active w - n) (active w)),
      (Z.ltb_spec (- n) 0), (Z.gtb_spec (active w - n) (active w)); cbn; lia. }
  rewrite E, !Z.add_0_r. apply uint32_small, pending_range.
Qed.

(** The counterexample to C10 as stated: [FreeN(2^32 + 5)] on a zero
    [Group] faults with the negative-counter fault, and the active count
    read afterwards is -5, not 0 - (2^32 + 5). *)
Lemma C10_counterexample :
  let w := mkWorld zeroGroup [] in
  exists w', FreeN 1 (2^32 + 5) w = Fault "sema.Group: negative group counter" w' /\
             ActiveCount w' = Done (-5) w' /\
             active w - (2^32 + 5) <> -5.
Proof.
  cbn zeta. exists (mkWorld (mkGroup None None (2^32 - 5) 0) []).
  split; [vm_compute; reflexivity|]. split; [vm_compute; reflexivity|].
  vm_compute. discriminate.
Qed.

(** C10, amended: [FreeN n] commits its decrement before anything else:
    whatever its outcome, a return, a fault or a suspension, the world it
    carries has the counter that [counterUpdate] computed.  When it raises
    the negative-counter fault the decrement is thus not undone, and
    [ActiveCount], read after the fault, is the old active count minus [n]
    reduced to 32 signed bits, a negative value; it is the old active
    count minus [n] itself whenever that difference is not below - 2^31.
    The fault is raised, without parking, whenever that value is negative
    and nobody is queued on the group. *)
Theorem C10_FreeN_fault_commits (fuel : nat) (w : World) (n : Z) :
  0 < n ->
  counter (grp (worldOf (FreeN (S fuel) n w))) =
  newCounterOf (counter (grp w)) 0 (int (- n)) /\
  (forall w',
     FreeN (S fuel) n w = Fault "sema.Group: negative group counter" w' ->
     counter (grp w') = newCounterOf (counter (grp w)) 0 (int (- n)) /\
     ActiveCount w' = Done (int32 (active w - n)) w' /\
     int32 (active w - n) < 0 /\
     (minInt32 <= active w - n ->
      ActiveCount w' = Done (active w - n) w' /\ active w - n < 0)) /\
  (waitOk w = true ->
   blockChan (grp w) = None \/ (pending w = 0 /\ minInt32 <= active w - n) ->
   int32 (active w - n) < 0 ->
   exists w', FreeN (S fuel) n w = Fault "sema.Group: negative group counter" w').
Proof.
  intros Hn. split; [|split].
  - rewrite FreeN_unfold by exact Hn.
    apply (afterDecrement_core (S fuel) (blockChan (grp w))
             (int32 (active w - n))
             (setCounter (newCounterOf (counter (grp w)) 0 (int (- n))) w)).
  - intros w' H. rewrite FreeN_unfold in H by exact Hn.
    pose proof (afterDecrement_shape (S fuel) (blockChan (grp w))
                  (int32 (active w - n))
                  (setCounter (newCounterOf (counter (grp w)) 0 (int (- n))) w))
      as Hsh.
    rewrite H in Hsh. destruct Hsh as [(Hc & _) Hneg].
    specialize (Hneg eq_refl). cbn [setCounter withGrp grp counter] in Hc.
    assert (HA : ActiveCount w' = Done (int32 (active w - n)) w').
    { unfold ActiveCount, bind. cbn [counter_Load bindO ret].
      rewrite Hc, active_after_FreeN. reflexivity. }
    split; [exact Hc|]. split; [exact HA|]. split; [exact Hneg|].
    intros Hlo. pose proof (active_range w) as Ha. unfold minInt32 in Hlo.
    rewrite int32_small in HA, Hneg by lia. split; assumption.
  - intros Hwo Hq Hneg. rewrite FreeN_unfold by exact Hn.
    destruct (afterDecrement_quiet (S fuel) (blockChan (grp w))
                (int32 (active w - n))
                (setCounter (newCounterOf (counter (grp w)) 0 (int (- n))) w))
      as (w' & _ & E).
    + exact Hwo.
    + destruct Hq as [Hq|[Hp Hlo]]; [left; exact Hq|right].
      rewrite pending_after_FreeN by assumption. exact Hp.
    + exists w'. rewrite E.
      destruct (Z.ltb_spec (int32 (active w - n)) 0); [reflexivity|lia].
Qed.

Lemma C10_witness :
  exists w', FreeN 1 1 (mkWorld zeroGroup []) =
             Fault "sema.Group: negative group counter" w' /\
             ActiveCount w' = Done (-1) w'.
Proof.
  destruct (C10_FreeN_fault_commits 0 (mkWorld zeroGroup []) 1) as (_ & H1 & H2);
    [lia|].
  destruct H2 as (w' & E); [reflexivity|left; reflexivity|vm_compute; reflexivity|].
  exists w'. split; [exact E|].
  destruct (H1 w' E) as (_ & _ & _ & H). apply H. vm_compute. discriminate.
Defined.

(** * A goroutine on its own *)

Section Alone.

Context (fuel : nat).

Lemma quiet_lookup (cs : list chanState) id s :
  forallb quiet cs = true -> cs !! id = Some s ->
  closed s = false /\ sendq s = 0%nat /\ recvq s = 0%nat.
Proof.
  intros Hall Hl. rewrite forallb_forall in Hall.
  apply list_elem_of_lookup_2, list_elem_of_In in Hl.
  specialize (Hall s Hl). unfold quiet in Hall.
  apply andb_prop in Hall as [Hall H3]. apply andb_prop in Hall as [H1 H2].
  apply negb_true_iff in H1. apply Nat.eqb_eq in H2, H3. auto.
Qed.

(** When every channel is quiet, only [closedChan] is ready. *)
Lemma quiet_ready_Recv w d :
  forallb quiet (chans w) = true -> ready w (Recv d) = true -> d = closedChan.
Proof.
  intros Hq Hr. destruct d as [| |id]; [discriminate|reflexivity|].
  cbn [ready] in Hr. destruct (chans w !! id) as [s|] eqn:El; [|discriminate].
  destruct (quiet_lookup _ _ _ Hq El) as (H1 & H2 & _).
  rewrite H1, H2 in Hr. discriminate.
Qed.

Lemma settled_parts w :
  settled w = true ->
  waitChan (grp w) = None /\ forallb quiet (chans w) = true /\
  (blockChan (grp w) = None /\ size (grp w) = 0 \/
   (exists id, blockChan (grp w) = Some (Chan id)) /\
   0 < size (grp w) <= maxUint32).
Proof.
  unfold settled. intros H.
  apply andb_prop in H as [H H3]. apply andb_prop in H as [H1 H2].
  split; [destruct (waitChan (grp w)); [discriminate|reflexivity]|].
  split; [exact H2|].
  destruct (blockChan (grp w)) as [[| |id]|]; try discriminate.
  - right. apply andb_prop in H3 as [Ha Hb].
    apply Z.ltb_lt in Ha. apply Z.leb_le in Hb. split; [eauto|lia].
  - left. apply Z.eqb_eq in H3. auto.
Qed.

Lemma ReserveN_unlimited d n w :
  0 < n -> size (grp w) = 0 -> ready w (Recv d) = false ->
  ReserveN (S fuel) d n w =
  Done true (setCounter (newCounterOf (counter (grp w)) 0 n) w).
Proof.
  intros Hn Hs Hr. rewrite ReserveN_unfold by exact Hn.
  rewrite (bind_Done _ _ _ _ _ (precheck_not_ready d w Hr)).
  unfold bind at 1. cbn [size_Load bindO]. rewrite Hs. cbn [Z.eqb].
  unfold bind. rewrite counterAdd_S. reflexivity.
Qed.

Lemma ReserveN_cancelled d n w :
  0 < n -> ready w (Recv d) = true ->
  exists w', ReserveN (S fuel) d n w = Done false w' /\ grp w' = grp w.
Proof.
  intros Hn Hr. rewrite ReserveN_unfold by exact Hn.
  destruct (precheck_ready d w Hr) as (w' & Hp & Hg).
  rewrite (bind_Done _ _ _ _ _ Hp). exists w'. split; [reflexivity|exact Hg].
Qed.

Lemma ReserveN_limited d n w :
  0 < n -> 0 < size (grp w) -> n <= size (grp w) -> ready w (Recv d) = false ->
  ReserveN (S fuel) d n w =
  bind (tryReserve (S fuel) (size (grp w)) n false)
    (fun ok => if ok then ret true else reserveNSlow (S fuel) (size (grp w)) d n) w.
Proof.
  intros Hn Hs Hle Hr. rewrite ReserveN_unfold by exact Hn.
  rewrite (bind_Done _ _ _ _ _ (precheck_not_ready d w Hr)).
  unfold bind at 1. cbn [size_Load bindO].
  destruct (Z.eqb_spec (size (grp w)) 0); [lia|].
  destruct (Z.gtb_spec n (size (grp w))); [lia|]. reflexivity.
Qed.

Lemma ReserveN_commit d n w :
  0 < n -> 0 < size (grp w) -> n <= size (grp w) -> ready w (Recv d) = false ->
  pending w = 0 -> int (active w + n) <= size (grp w) ->
  ReserveN (S fuel) d n w =
  Done true (setCounter (newCounterOf (counter (grp w)) 0 n) w).
Proof.
  intros Hn Hs Hle Hr Hp Hroom. rewrite ReserveN_limited by assumption.
  unfold bind. rewrite tryReserve_commit by assumption. reflexivity.
Qed.

(** With every channel quiet, a reservation that has to wait parks. *)
Lemma ReserveN_parks d n w id :
  0 < n -> 0 < size (grp w) -> n <= size (grp w) -> ready w (Recv d) = false ->
  pending w <> 0 \/ size (grp w) < int (active w + n) ->
  forallb quiet (chans w) = true -> blockChan (grp w) = Some (Chan id) ->
  final (ReserveN (S fuel) d n w) = false.
Proof.
  intros Hn Hs Hle Hr Hwait Hq Hb. rewrite ReserveN_limited by assumption.
  unfold bind at 1. rewrite tryReserve_enqueue by assumption.
  cbn [bindO]. unfold reserveNSlow, bind at 1.
  cbn [blockChan_Load bindO setCounter withGrp grp blockChan].
  rewrite Hb. cbn [reserveNSlowLoop].
  unfold bind at 1, select. cbn [readyFrom chans].
  change (ready (setCounter ?c w) ?op) with (ready w op).
  rewrite Hr.
  replace (ready w (Recv (Chan id))) with false.
  2:{ destruct (ready w (Recv (Chan id))) eqn:E; [|reflexivity].
      apply quiet_ready_Recv in E; [discriminate|exact Hq]. }
  reflexivity.
Qed.

(** On its own, a [ReserveN] that ends either found its cancellation
    channel closed, or was oversized without one, and changed nothing, or
    committed its weight to the active count. *)
Lemma ReserveN_alone d n w :
  settled w = true -> pending w = 0 -> 0 < n ->
  final (ReserveN (S fuel) d n w) = true ->
  (ReserveN (S fuel) d n w = Done false w /\
   (d = closedChan \/ d = nilChan /\ 0 < size (grp w) < n)) \/
  ReserveN (S fuel) d n w =
  Done true (setCounter (newCounterOf (counter (grp w)) 0 n) w).
Proof.
  intros Hset Hp Hn Hfin.
  destruct (settled_parts w Hset) as (Hw & Hq & Hshape).
  destruct (ready w (Recv d)) eqn:Hr.
  - left. apply quiet_ready_Recv in Hr; [|exact Hq]. subst d.
    rewrite ReserveN_unfold by exact Hn. split; [reflexivity|left; reflexivity].
  - destruct Hshape as [[Hb Hs]|[[id Hb] Hs]].
    + right. apply ReserveN_unlimited; assumption.
    + destruct (Z.lt_ge_cases (size (grp w)) n) as [Hlt|Hge].
      * destruct (decide (d = nilChan)) as [->|Hd].
        -- left. split; [apply ReserveN_oversized_nil; lia|right; split; [reflexivity|lia]].
        -- destruct (ReserveN_oversized_parks (S fuel) d n w) as (k & E & _);
             try assumption; try lia.
           rewrite E in Hfin. discriminate.
      * pose proof (active_range w) as Ha.
        assert (Hint : int (active w + n) = active w + n)
          by (apply int_small; unfold maxUint32 in Hs; lia).
        destruct (Z.le_gt_cases (active w + n) (size (grp w))) as [Hle|Hgt].
        -- right. apply ReserveN_commit; try assumption; try lia.
        -- assert (E : final (ReserveN (S fuel) d n w) = false).
           { apply (ReserveN_parks d n w id); try assumption; lia. }
           congruence.
Qed.

(** On its own, [TryReserveN] with a positive weight returns: false with
    nothing changed, or true with its weight committed. *)
Lemma TryReserveN_alone n w :
  size (grp w) <= maxUint32 -> 0 <= size (grp w) -> 0 < n ->
  TryReserveN (S fuel) n w = Done false w \/
  TryReserveN (S fuel) n w =
  Done true (setCounter (newCounterOf (counter (grp w)) 0 n) w).
Proof.
  intros Hty Hs0 Hn.
  destruct (Z.eq_dec (size (grp w)) 0) as [Hs|Hs].
  - right. apply TryReserveN_unlimited; assumption.
  - destruct (Z.lt_ge_cases (size (grp w)) n) as [Hlt|Hge].
    + left. apply TryReserveN_oversized; lia.
    + rewrite TryReserveN_limited by lia.
      pose proof (active_range w) as Ha.
      assert (Hint : int (active w + n) = active w + n)
        by (apply int_small; unfold maxUint32 in Hty; lia).
      destruct (Z.eq_dec (pending w) 0) as [Hp|Hp].
      * destruct (Z.le_gt_cases (active w + n) (size (grp w))) as [Hle|Hgt].
        -- right. apply tryReserve_commit; rewrite ?Hint; assumption.
        -- left. apply tryReserve_refuse. rewrite Hint. lia.
      * left. apply tryReserve_refuse. left. exact Hp.
Qed.

(** On its own, a [FreeN] within the balance returns, with its weight
    taken off the active count. *)
Lemma FreeN_alone n w :
  waitChan (grp w) = None -> pending w = 0 -> 0 < n <= active w ->
  FreeN (S fuel) n w =
  Done tt (setCounter (newCounterOf (counter (grp w)) 0 (int (- n))) w).
Proof.
  intros Hw Hp Hn. pose proof (active_range w) as Ha.
  rewrite FreeN_unfold by lia.
  rewrite afterDecrement_alone.
  - rewrite int32_small by lia.
    destruct (Z.ltb_spec (active w - n) 0); [lia|reflexivity].
  - exact Hw.
  - right. rewrite pending_after_FreeN by (unfold minInt32; lia). exact Hp.
Qed.

Lemma balanced_commit bal n w :
  balanced bal w -> 0 < n -> bal + n <= maxInt32 ->
  balanced (bal + n) (setCounter (newCounterOf (counter (grp w)) 0 n) w).
Proof.
  intros (Hs & Hp & Ha & Hb) Hn Hfit. unfold maxInt32 in *.
  split; [exact Hs|].
  rewrite <- Ha in *.
  rewrite active_update_no_wrap, pending_update_no_wrap by lia.
  repeat split; try assumption; lia.
Qed.

Lemma balanced_free bal n w :
  balanced bal w -> 0 < n <= bal ->
  balanced (bal - n) (setCounter (newCounterOf (counter (grp w)) 0 (int (- n))) w).
Proof.
  intros (Hs & Hp & Ha & Hb) Hn. unfold maxInt32 in *.
  split; [exact Hs|]. rewrite <- Ha in *.
  split; [rewrite pending_after_FreeN by (unfold minInt32; lia); exact Hp|].
  split; [|unfold maxInt32; lia].
  unfold active at 1. cbn [setCounter withGrp grp counter].
  rewrite active_after_FreeN. apply int32_small. lia.
Qed.

Lemma ReserveN_nonpositive d n w :
  n <= 0 ->
  ReserveN (S fuel) d n w = Fault "sema.Group: invalid group reserve N value" w.
Proof. intros Hn. unfold ReserveN. destruct (Z.leb_spec n 0); [reflexivity|lia]. Qed.

Lemma TryReserveN_nonpositive n w :
  n <= 0 ->
  TryReserveN (S fuel) n w = Fault "sema.Group: invalid group reserve N value" w.
Proof. intros Hn. unfold TryReserveN. destruct (Z.leb_spec n 0); [reflexivity|lia]. Qed.

Lemma FreeN_nonpositive n w :
  n <= 0 ->
  FreeN (S fuel) n w = Fault "sema.Group: invalid group free N value" w.
Proof. intros Hn. unfold FreeN. destruct (Z.leb_spec n 0); [reflexivity|lia]. Qed.

(** One legal call keeps the group balanced, and a legal free returns. *)
Lemma exec_legal c w bal r w' bal' :
  balanced bal w ->
  exec (S fuel) c w = (r, w') ->
  legalStep bal c r = Some bal' ->
  (isFree c = true -> r = Returned VUnit) /\
  match r with
  | Returned _ | Panicked _ => balanced bal' w'
  | _ => True
  end.
Proof.
  intros Hbal Hex Hleg.
  pose proof Hbal as (Hset & Hp & Ha & Hb).
  destruct (settled_parts w Hset) as (Hw & Hq & Hshape).
  assert (Hsz : 0 <= size (grp w) <= maxUint32).
  { destruct Hshape as [[_ ->]|[_ ?]]; unfold maxUint32 in *; lia. }
  destruct c as [|d n|n| |n| | |n| | |]; cbn [exec] in Hex.
  - (* Reserve *)
    unfold Reserve, bind in Hex.
    destruct (ReserveN (S fuel) nilChan 1 w) as [b w2|msg w2|on w2 k|w2] eqn:E;
      cbn [bindO ret observe] in Hex; injection Hex as <- <-;
      (split; [discriminate|]); try exact I.
    + destruct (ReserveN_alone nilChan 1 w Hset Hp) as [[_ [?|[_ ?]]]|E'];
        [lia|rewrite E; reflexivity|discriminate|lia|].
      rewrite E in E'. injection E' as -> ->.
      cbn [legalStep] in Hleg.
      destruct (Z.leb_spec (bal + 1) maxInt32); [|discriminate].
      injection Hleg as <-. apply balanced_commit; [assumption|lia|assumption].
    + destruct (ReserveN_alone nilChan 1 w Hset Hp) as [[E' _]|E'];
        [lia|rewrite E; reflexivity| |]; rewrite E in E'; discriminate.
  - (* ReserveN *)
    destruct (Z.le_gt_cases n 0) as [Hn|Hn].
    + rewrite ReserveN_nonpositive in Hex by exact Hn.
      cbn [observe] in Hex. injection Hex as <- <-.
      cbn [legalStep] in Hleg. injection Hleg as <-.
      split; [discriminate|exact Hbal].
    + destruct (ReserveN (S fuel) d n w) as [b w2|msg w2|on w2 k|w2] eqn:E;
        cbn [observe] in Hex; injection Hex as <- <-;
        (split; [discriminate|]); try exact I.
      * destruct (ReserveN_alone d n w Hset Hp) as [[E' _]|E'];
          [lia|rewrite E; reflexivity| |]; rewrite E in E';
          injection E' as -> ->; cbn [legalStep] in Hleg.
        -- injection Hleg as <-. exact Hbal.
        -- destruct (Z.leb_spec (bal + n) maxInt32); [|discriminate].
           injection Hleg as <-. apply balanced_commit; [assumption|lia|assumption].
      * destruct (ReserveN_alone d n w Hset Hp) as [[E' _]|E'];
          [lia|rewrite E; reflexivity| |]; rewrite E in E'; discriminate.
  - (* TryReserveN *)
    destruct (Z.le_gt_cases n 0) as [Hn|Hn].
    + rewrite TryReserveN_nonpositive in Hex by exact Hn.
      cbn [observe] in Hex. injection Hex as <- <-.
      cbn [legalStep] in Hleg. injection Hleg as <-.
      split; [discriminate|exact Hbal].
    + split; [discriminate|].
      destruct (TryReserveN_alone n w) as [E|E]; try lia;
        rewrite E in Hex; cbn [observe] in Hex; injection Hex as <- <-;
        cbn [legalStep] in Hleg.
      * injection Hleg as <-. exact Hbal.
      * destruct (Z.leb_spec (bal + n) maxInt32); [|discriminate].
        injection Hleg as <-. apply balanced_commit; [assumption|lia|assumption].
  - (* Free *)
    cbn [legalStep] in Hleg.
    assert (Hl : exists b, (if 1 <=? bal then Some (bal - 1) else None) = Some b /\ b = bal')
      by (destruct r as [[]| | |]; eauto).
    clear Hleg. destruct Hl as (b & Hl & <-).
    destruct (Z.leb_spec 1 bal); [|discriminate]. injection Hl as <-.
    unfold Free in Hex. rewrite FreeN_alone in Hex by (try assumption; lia).
    cbn [observe] in Hex. injection Hex as <- <-.
    split; [reflexivity|]. apply balanced_free; [assumption|lia].
  - (* FreeN *)
    cbn [legalStep] in Hleg.
    assert (Hl : exists b,
               (if (0 <? n) && (n <=? bal) then Some (bal - n) else None) = Some b /\
               b = bal')
      by (destruct r as [[]| | |]; eauto).
    clear Hleg. destruct Hl as (b & Hl & <-).
    destruct (Z.ltb_spec 0 n), (Z.leb_spec n bal); try discriminate.
    injection Hl as <-.
    rewrite FreeN_alone in Hex by (try assumption; lia).
    cbn [observe] in Hex. injection Hex as <- <-.
    split; [reflexivity|]. apply balanced_free; [assumption|lia].
  - destruct r as [[]| | |]; discriminate.
  - destruct r as [[]| | |]; discriminate.
  - destruct r as [[]| | |]; discriminate.
  - injection Hex as <- <-. injection Hleg as <-.
    split; [discriminate|exact Hbal].
  - injection Hex as <- <-. injection Hleg as <-.
    split; [discriminate|exact Hbal].
  - injection Hex as <- <-. injection Hleg as <-.
    split; [discriminate|exact Hbal].
Qed.

(** In a legal run from a balanced group every free returns, and after
    every call that ends nobody is queued and the active count is within
    0 and 2^31 - 1. *)
Lemma run_legal p :
  forall bal w,
    balanced bal w -> legal bal (run (S fuel) p w) = true ->
    forall c r w', In (c, r, w') (run (S fuel) p w) ->
      (isFree c = true -> r = Returned VUnit) /\
      match r with
      | Returned _ | Panicked _ => pending w' = 0 /\ 0 <= active w' <= maxInt32
      | _ => True
      end.
Proof.
  induction p as [|c0 p IH]; intros bal w Hbal Hleg c r w' Hin.
  - destruct Hin.
  - cbn [run] in Hleg, Hin.
    destruct (exec (S fuel) c0 w) as [r0 w1] eqn:Hex.
    cbn [legal] in Hleg.
    destruct (legalStep bal c0 r0) as [bal'|] eqn:Hstep; [|discriminate].
    destruct (exec_legal c0 w bal r0 w1 bal' Hbal Hex Hstep) as [Hf Hnext].
    destruct Hin as [Heq|Hin].
    + injection Heq as <- <- <-. split; [exact Hf|].
      destruct r0 as [v|msg|on|]; try exact I;
        destruct Hnext as (_ & Hp & Ha & Hb); rewrite Ha; auto.
    + destruct r0 as [v|msg|on|]; try destruct Hin; eapply IH; eauto.
Qed.

End Alone.

Lemma fresh_balanced w : fresh w = true -> balanced 0 w.
Proof.
  unfold fresh. intros H. apply andb_prop in H as [Hc Hs].
  apply Z.eqb_eq in Hc. unfold balanced, pending, active. rewrite Hc.
  repeat split; try assumption; try reflexivity; unfold maxInt32; lia.
Qed.

(** A [FreeN] that finds a reserver queued but not parked yet yields; once
    resumed with the reserver parked, it wakes it and returns. *)
Example FreeN_wakes_late_reserver :
  let w := mkWorld (mkGroup None (Some (Chan 0)) (2^32 + 1) 2)
                   [mkChanState false 0 0] in
  let w' := mkWorld (mkGroup None (Some (Chan 0)) (2^32) 2)
                    [mkChanState false 0 1] in
  let w'' := mkWorld (mkGroup None (Some (Chan 0)) (2^32) 2)
                     [mkChanState false 0 0] in
  final (FreeN 2 1 w) = false /\
  finishes (wakeOk w) (FreeN 2 1 w) (Done tt w'').
Proof.
  cbn zeta. split; [vm_compute; reflexivity|].
  match goal with |- finishes _ ?o _ =>
    let o' := eval hnf in o in change o with o' end.
  eapply (finishes_Blocked _ _ _ _ 0%nat
            (mkWorld (mkGroup None (Some (Chan 0)) (2^32) 2)
                     [mkChanState false 0 1])).
  - repeat split.
  - vm_compute. constructor.
Qed.

(** * A group without a limit *)

Section Unlimited.

Context (fuel : nat).

Lemma unlimited_sameCore w w' : sameCore w w' -> unlimited w -> unlimited w'.
Proof.
  intros Hs (H1 & H2 & H3). pose proof (sameCore_pending w w' Hs) as Hp.
  destruct Hs as (_ & Hs & Hb). unfold unlimited. rewrite Hs, Hb, Hp. auto.
Qed.

Lemma perform_grp op w : grp (worldOf (perform op w)) = grp w.
Proof.
  destruct op as [[| |id]|[| |id]|]; cbn [perform]; try reflexivity;
    destruct (chans w !! id) as [s|]; try reflexivity;
    destruct (closed s); reflexivity.
Qed.

Lemma select_grp cases dflt w : grp (worldOf (select cases dflt w)) = grp w.
Proof.
  unfold select. destruct (readyFrom w 0 cases) as [|[i op] [|? ?]].
  - destruct dflt; reflexivity.
  - pose proof (perform_grp op w) as H.
    destruct (perform op w); cbn [bindO worldOf ret] in *; exact H.
  - reflexivity.
Qed.

Lemma recv_grp c w : grp (worldOf (recv c w)) = grp w.
Proof.
  unfold recv, bind. pose proof (select_grp [Recv c] false w) as H.
  destruct (select [Recv c] false w); cbn [bindO worldOf ret] in *; exact H.
Qed.

(** [initWaitChan] never parks and writes at most the wait slot. *)
Lemma initWaitChanSlow_core wc w : endsWithCore w (initWaitChanSlow wc w).
Proof.
  unfold initWaitChanSlow. unfold bind at 1. unfold make_chan.
  cbn [bindO]. unfold bind at 1, waitChan_CompareAndSwap. cbn [grp waitChan].
  destruct (decide (waitChan (grp w) = wc)) as [_|_]; cbn [bindO].
  - unfold bind, counter_Load. cbn [bindO withGrp grp counter].
    destruct (counterParts (counter (grp w))) as [p a].
    destruct ((p <=? 0) && (a <=? 0)); repeat split.
  - unfold bind, waitChan_Load. cbn [bindO grp waitChan].
    destruct (waitChan (grp w)) as [c|]; [|repeat split].
    destruct (decide (c = nilChan)); repeat split.
Qed.

Lemma initWaitChan_core w : endsWithCore w (initWaitChan w).
Proof.
  unfold initWaitChan, bind. cbn [waitChan_Load counter_Load bindO].
  destruct (counterParts (counter (grp w))) as [p a].
  destruct ((p <=? 0) && (a <=? 0)); [repeat split|].
  destruct (waitChan (grp w)) as [c|]; [|apply initWaitChanSlow_core].
  destruct (decide (c = nilChan)); [apply initWaitChanSlow_core|repeat split].
Qed.

Lemma Wait_core w : sameCore w (worldOf (Wait w)).
Proof.
  unfold Wait, bind. destruct (initWaitChan_core w) as [Hf Hs].
  destruct (initWaitChan w) as [c w'|msg w'|on w' k|w'];
    cbn [bindO worldOf final] in *; try discriminate; [|exact Hs].
  eapply sameCore_trans; [exact Hs|].
  unfold sameCore. rewrite recv_grp. repeat split.
Qed.

Lemma WaitChan_core w : sameCore w (worldOf (WaitChan w)).
Proof. apply initWaitChan_core. Qed.

Lemma SetSize_nonpositive n w :
  n <= 0 -> blockChan (grp w) = None -> worldOf (SetSize n w) = w.
Proof.
  intros Hn Hb. unfold SetSize, bind at 1. cbn [counter_Load bindO].
  destruct (Z.eqb_spec (counter (grp w)) 0) as [Hc|Hc]; [|reflexivity].
  cbn [negb]. unfold bind at 1. cbn [blockChan_Load bindO]. rewrite Hb.
  unfold bind at 1. rewrite setSize_nonpositive by exact Hn. cbn [bindO].
  unfold bind. cbn [counter_Load bindO]. rewrite Hc. reflexivity.
Qed.

(** Whatever the outcome of [FreeN], the world it carries has the
    decremented counter. *)
Lemma FreeN_core n w :
  0 < n ->
  sameCore (setCounter (newCounterOf (counter (grp w)) 0 (int (- n))) w)
           (worldOf (FreeN (S fuel) n w)).
Proof.
  intros Hn. rewrite FreeN_unfold by exact Hn. apply afterDecrement_core.
Qed.

Lemma unlimited_commit n w :
  unlimited w -> 0 < n -> active w + n <= maxInt32 ->
  unlimited (setCounter (newCounterOf (counter (grp w)) 0 n) w).
Proof.
  intros (H1 & H2 & H3) Hn Hfit. pose proof (active_range w).
  unfold maxInt32 in Hfit. unfold unlimited.
  rewrite pending_update_no_wrap by lia. auto.
Qed.

(** One call leaves a group without a limit as such. *)
Lemma exec_unlimited c w :
  unlimited w -> unlimitedOk w c = true ->
  unlimited (snd (exec (S fuel) c w)).
Proof.
  intros Hun Hok. pose proof Hun as (Hs & Hb & Hp).
  destruct c as [|d n|n| |n| | |n| | |]; cbn [exec unlimitedOk] in *.
  - apply Z.leb_le in Hok. unfold Reserve, bind.
    rewrite ReserveN_unlimited by (try assumption; try reflexivity; lia).
    cbn [bindO ret observe snd]. apply unlimited_commit; [assumption|lia|assumption].
  - destruct (Z.le_gt_cases n 0) as [Hn|Hn].
    { rewrite ReserveN_nonpositive by exact Hn. exact Hun. }
    destruct (ready w (Recv d)) eqn:Hr.
    + destruct (ReserveN_cancelled fuel d n w Hn Hr) as (w' & E & Hg).
      rewrite E. cbn [observe snd]. eapply unlimited_sameCore; [|exact Hun].
      unfold sameCore. rewrite Hg. repeat split.
    + rewrite ReserveN_unlimited by assumption. cbn [observe snd].
      apply unlimited_commit; try assumption.
      cbn [orb] in Hok. apply orb_prop in Hok as [Hok|Hok];
        [apply Z.leb_le in Hok; lia|apply Z.leb_le in Hok; exact Hok].
  - destruct (Z.le_gt_cases n 0) as [Hn|Hn].
    { rewrite TryReserveN_nonpositive by exact Hn. exact Hun. }
    rewrite TryReserveN_unlimited by assumption. cbn [observe snd].
    apply unlimited_commit; try assumption.
    apply orb_prop in Hok as [Hok|Hok];
      [apply Z.leb_le in Hok; lia|apply Z.leb_le in Hok; exact Hok].
  - apply Z.leb_le in Hok. unfold Free.
    pose proof (FreeN_core 1 w ltac:(lia)) as Hc.
    destruct (FreeN (S fuel) 1 w); cbn [observe snd worldOf] in *;
      (eapply unlimited_sameCore; [exact Hc|]); unfold unlimited;
      rewrite pending_after_FreeN by lia; auto.
  - destruct (Z.le_gt_cases n 0) as [Hn|Hn].
    { rewrite FreeN_nonpositive by exact Hn. exact Hun. }
    apply orb_prop in Hok as [Hok|Hok]; [apply Z.leb_le in Hok; lia|].
    apply Z.leb_le in Hok.
    pose proof (FreeN_core n w Hn) as Hc.
    destruct (FreeN (S fuel) n w); cbn [observe snd worldOf] in *;
      (eapply unlimited_sameCore; [exact Hc|]); unfold unlimited;
      rewrite pending_after_FreeN by lia; auto.
  - pose proof (Wait_core w) as Hc.
    destruct (Wait w); cbn [observe snd worldOf] in *;
      eapply unlimited_sameCore; eauto.
  - pose proof (WaitChan_core w) as Hc.
    destruct (WaitChan w); cbn [observe snd worldOf] in *;
      eapply unlimited_sameCore; eauto.
  - apply Z.leb_le in Hok.
    pose proof (SetSize_nonpositive n w Hok Hb) as Hc.
    destruct (SetSize n w); cbn [observe snd worldOf] in *; subst; exact Hun.
  - exact Hun.
  - exact Hun.
  - exact Hun.
Qed.

(** Every world of a run on a group without a limit is one of a group
    without a limit on which nobody is queued. *)
Lemma run_unlimited p :
  forall w,
    unlimited w -> checked unlimitedOk (S fuel) p w = true ->
    forall c r w', In (c, r, w') (run (S fuel) p w) -> unlimited w'.
Proof.
  induction p as [|c0 p IH]; intros w Hun Hchk c r w' Hin.
  - destruct Hin.
  - cbn [run checked] in Hchk, Hin.
    apply andb_prop in Hchk as [Hok Hchk].
    pose proof (exec_unlimited c0 w Hun Hok) as Hnext.
    destruct (exec (S fuel) c0 w) as [r0 w1]. cbn [snd] in Hnext.
    destruct Hin as [Heq|Hin].
    + injection Heq as <- <- <-. exact Hnext.
    + destruct r0 as [v|msg|on|]; try destruct Hin; eapply IH; eauto.
Qed.

End Unlimited.

(** The counterexample to C6 as stated: on a zero [Group], after
    [ReserveN(nil, 2^31 - 1)] the call [Reserve()] returns, but it leaves
    a pending count of 1 and an active count of - 2^31. *)
Lemma C6_counterexample :
  let w := mkWorld zeroGroup [] in
  results (run 1 carryScenario w) = [ Returned (VBool true); Returned VUnit ] /\
  pending (lastWorld w (run 1 carryScenario w)) = 1 /\
  active (lastWorld w (run 1 carryScenario w)) = - 2^31 /\
  size (grp (lastWorld w (run 1 carryScenario w))) = 0.
Proof. cbn zeta. repeat split; vm_compute; reflexivity. Qed.

(** C6, amended.  On a group of size 0, [ReserveN] and [TryReserveN] with
    a weight [n > 0], and [Reserve] for [n = 1], the cancellation channel
    not being ready, return at once, without parking, add [n] to the
    active count and leave the pending count as it is, provided the active
    count plus [n] fits its 32 signed bits.  Hence in every run of calls
    on a group of size 0 with no block channel and a pending count of 0,
    the pending count is 0, and the size is 0, after every call, as long
    as [SetSize] is called with zero or negative sizes only and the
    reservations and frees keep the active count within its 32 signed
    bits. *)
Theorem C6_unlimited_never_pending (fuel : nat) :
  (forall (w : World) (d : chan) (n : Z),
     size (grp w) = 0 -> 0 < n -> ready w (Recv d) = false ->
     active w + n <= maxInt32 ->
     exists w',
       ReserveN (S fuel) d n w = Done true w' /\
       TryReserveN (S fuel) n w = Done true w' /\
       (n = 1 -> Reserve (S fuel) w = Done tt w') /\
       active w' = active w + n /\ pending w' = pending w /\
       size (grp w') = 0) /\
  (forall (p : list call) (w : World),
     unlimited w -> checked unlimitedOk (S fuel) p w = true ->
     forall c r w', In (c, r, w') (run (S fuel) p w) ->
                    pending w' = 0 /\ size (grp w') = 0).
Proof.
  split.
  - intros w d n Hs Hn Hr Hfit.
    exists (setCounter (newCounterOf (counter (grp w)) 0 n) w).
    pose proof (active_range w) as Ha. unfold maxInt32 in Hfit.
    split; [apply ReserveN_unlimited; assumption|].
    split; [apply TryReserveN_unlimited; assumption|].
    split; [|split; [|split]].
    + intros ->. unfold Reserve, bind.
      rewrite ReserveN_unlimited by (try assumption; reflexivity). reflexivity.
    + apply active_update_no_wrap. lia.
    + apply pending_update_no_wrap. lia.
    + exact Hs.
  - intros p w Hun Hchk c r w' Hin.
    destruct (run_unlimited fuel p w Hun Hchk c r w' Hin) as (H1 & _ & H3).
    split; assumption.
Qed.

Lemma C6_witness :
  exists w', ReserveN 1 (Chan 0) 5
               (mkWorld (mkGroup None None 3 0) [mkChanState false 0 0]) =
             Done true w' /\ active w' = 8 /\ pending w' = 0.
Proof.
  destruct (C6_unlimited_never_pending 0) as [H _].
  destruct (H (mkWorld (mkGroup None None 3 0) [mkChanState false 0 0])
              (Chan 0) 5) as (w' & E & _ & _ & Ha & Hp & _).
  - reflexivity.
  - lia.
  - reflexivity.
  - vm_compute. discriminate.
  - exists w'. split; [exact E|]. split; [exact Ha|exact Hp].
Defined.

(** * The counter word and its two counts *)

Section Words.

Lemma pack_counterParts c :
  0 <= c < 2^64 -> pack (fst (counterParts c)) (snd (counterParts c)) = c.
Proof.
  intros Hc. unfold pack, counterParts. cbn [fst snd].
  rewrite Z.shiftr_div_pow2 by lia.
  unfold uint32, int32. Z.div_mod_to_equations. lia.
Qed.

Lemma carry_zero a : carry a 0 (int32 (a + 0)) = 0.
Proof. unfold carry. reflexivity. Qed.

Lemma newCounterOf_zero c : 0 <= c < 2^64 -> newCounterOf c 0 0 = c.
Proof.
  intros Hc. rewrite newCounterOf_pack. cbn zeta.
  rewrite carry_zero, !Z.add_0_r.
  rewrite (uint32_small (fst (counterParts c)))
    by (unfold counterParts; cbn [fst]; apply uint32_range).
  rewrite (int32_small (snd (counterParts c)))
    by (unfold counterParts; cbn [snd]; apply int32_range).
  apply pack_counterParts, Hc.
Qed.

Lemma newCounterOf_range c pd ad : 0 <= newCounterOf c pd ad < 2^64.
Proof.
  rewrite newCounterOf_pack. cbn zeta. unfold pack.
  match goal with |- 0 <= uint32 ?p * _ + uint32 ?a < _ =>
    pose proof (uint32_range p); pose proof (uint32_range a) end.
  lia.
Qed.

Lemma carry_opposite a ad :
  - 2^31 <= a < 2^31 ->
  carry a ad (int32 (a + ad)) + carry (int32 (a + ad)) (- ad) a = 0.
Proof.
  intros Ha. unfold carry. set (a' := int32 (a + ad)).
  destruct (Z.gtb_spec ad 0), (Z.ltb_spec a' a), (Z.ltb_spec ad 0),
    (Z.gtb_spec a' a), (Z.gtb_spec (- ad) 0), (Z.ltb_spec a a'),
    (Z.ltb_spec (- ad) 0), (Z.gtb_spec a a'); cbn [andb]; lia.
Qed.

Lemma newCounterOf_opposite c pd ad :
  0 <= c < 2^64 -> newCounterOf (newCounterOf c pd ad) (- pd) (- ad) = c.
Proof.
  intros Hc.
  rewrite (newCounterOf_pack (newCounterOf c pd ad)). cbn zeta.
  rewrite counterParts_newCounterOf. cbn [fst snd].
  set (p := fst (counterParts c)). set (a := snd (counterParts c)).
  assert (Ha : - 2^31 <= a < 2^31) by (apply int32_range).
  assert (Hp : 0 <= p < 2^32) by (apply uint32_range).
  assert (Eback : int32 (int32 (a + ad) + - ad) = a) by modarith.
  rewrite Eback.
  pose proof (carry_opposite a ad Ha) as Hk.
  set (k1 := carry a ad (int32 (a + ad))) in *.
  set (k2 := carry (int32 (a + ad)) (- ad) a) in *.
  replace (uint32 (uint32 (p + pd + k1) + - pd + k2)) with p.
  - apply pack_counterParts, Hc.
  - assert (k2 = - k1) by lia. modarith.
Qed.

End Words.

(** * Reserving and freeing without waiting *)

Section Records.

Lemma setCounter_same w : setCounter (counter (grp w)) w = w.
Proof. destruct w as [[wc bc c s] cs]. reflexivity. Qed.

Lemma setCounter_twice c1 c2 w : setCounter c2 (setCounter c1 w) = setCounter c2 w.
Proof. reflexivity. Qed.

End Records.

Section Idle.

(** [notifyWait] does nothing while somebody is queued or active, and
    nothing when no channel is waiting in the slot. *)
Lemma notifyWait_idle p a w :
  0 < p \/ 0 < a \/ waitChan (grp w) = None \/ waitChan (grp w) = Some nilChan ->
  notifyWait p a w = Done tt w.
Proof.
  intros H. unfold notifyWait.
  destruct (Z.gtb_spec p 0); [reflexivity|].
  destruct (Z.gtb_spec a 0); [reflexivity|]. cbn [orb].
  unfold bind. cbn [waitChan_Load bindO].
  destruct H as [?|[?|[->| ->]]]; try lia; reflexivity.
Qed.

Lemma afterDecrement_idle fuel bc a1 w :
  pending w = 0 ->
  0 < a1 \/ waitChan (grp w) = None \/ waitChan (grp w) = Some nilChan ->
  afterDecrement fuel bc a1 w =
  if a1 <? 0 then Fault negativeCounter w else Done tt w.
Proof.
  intros Hp Hw. unfold afterDecrement.
  assert (E : exists p,
             (match bc with
              | Some c => bind (notifyFree fuel c)
                            (fun counter => ret (fst (counterParts counter)))
              | None => ret 0
              end) w = Done p w).
  { destruct bc as [c|]; [|eexists; reflexivity].
    unfold bind. rewrite notifyFree_no_pending by exact Hp. eexists; reflexivity. }
  destruct E as (p & E). rewrite (bind_Done _ _ _ _ _ E).
  rewrite (bind_Done _ _ _ _ _ (notifyWait_idle p a1 w ltac:(tauto))).
  destruct (a1 <? 0); reflexivity.
Qed.

End Idle.

Lemma round_trip fuel w d n :
  0 < n <= maxInt -> 0 <= counter (grp w) < 2^64 ->
  0 <= size (grp w) <= maxUint32 ->
  ready w (Recv d) = false -> pending w = 0 -> 0 <= active w ->
  0 < active w \/ waitChan (grp w) = None \/ waitChan (grp w) = Some nilChan ->
  size (grp w) = 0 \/ active w + n <= size (grp w) ->
  exists w1,
    ReserveN (S fuel) d n w = Done true w1 /\
    TryReserveN (S fuel) n w = Done true w1 /\
    counter (grp w1) = newCounterOf (counter (grp w)) 0 n /\
    FreeN (S fuel) n w1 = Done tt w.
Proof.
  intros Hn Hc Hs Hr Hp Ha Hw Hroom.
  exists (setCounter (newCounterOf (counter (grp w)) 0 n) w).
  pose proof (active_range w) as Har.
  assert (HR : ReserveN (S fuel) d n w =
               Done true (setCounter (newCounterOf (counter (grp w)) 0 n) w) /\
               TryReserveN (S fuel) n w =
               Done true (setCounter (newCounterOf (counter (grp w)) 0 n) w)).
  { destruct (Z.eq_dec (size (grp w)) 0) as [Hz|Hnz].
    - split; [apply ReserveN_unlimited|apply TryReserveN_unlimited]; try assumption; lia.
    - destruct Hroom as [?|Hroom]; [contradiction|].
      assert (Hint : int (active w + n) = active w + n)
        by (apply int_small; unfold maxUint32 in Hs; lia).
      split.
      + apply ReserveN_commit; try assumption; try lia.
      + rewrite TryReserveN_limited by lia.
        apply tryReserve_commit; [assumption|lia]. }
  destruct HR as [HR1 HR2].
  split; [exact HR1|]. split; [exact HR2|]. split; [reflexivity|].
  set (w1 := setCounter (newCounterOf (counter (grp w)) 0 n) w).
  rewrite FreeN_unfold by lia.
  assert (Eint : int (- n) = - n) by (apply int_small; unfold maxInt in Hn; lia).
  assert (Ecnt : newCounterOf (counter (grp w1)) 0 (int (- n)) = counter (grp w)).
  { rewrite Eint. apply (newCounterOf_opposite (counter (grp w)) 0 n Hc). }
  assert (Eact : int32 (active w1 - n) = active w).
  { unfold w1. rewrite active_update. modarith. }
  rewrite Ecnt, Eact. unfold w1. rewrite setCounter_twice, setCounter_same.
  rewrite afterDecrement_idle by (try assumption; destruct Hw as [?|[?|?]]; auto).
  destruct (Z.ltb_spec (active w) 0); [lia|reflexivity].
Qed.

Lemma NewGroup_SetSize n g cs :
  NewGroup n (mkWorld g cs) = SetSize n (mkWorld zeroGroup cs).
Proof.
  unfold NewGroup. cbn [chans].
  change (SetSize n (mkWorld zeroGroup cs))
    with (bindO (setSize n (mkWorld zeroGroup cs))
            (fun _ => bind counter_Load
               (fun c => if negb (c =? 0)
                         then panic "sema.Group: concurrent Reserve calls while initializing group"
                         else ret tt))).
  destruct (Z.le_gt_cases n 0) as [Hn|Hn].
  - rewrite setSize_nonpositive by exact Hn. reflexivity.
  - destruct (Z.le_gt_cases n maxUint32) as [Hm|Hm].
    + rewrite setSize_fits by lia. reflexivity.
    + rewrite setSize_too_big by exact Hm. reflexivity.
Qed.

Lemma forallb_quiet_app cs :
  forallb quiet cs = true -> forallb quiet (cs ++ [mkChanState false 0 0]) = true.
Proof. intros H. rewrite forallb_app, H. reflexivity. Qed.

Lemma NewGroup_fresh n g cs :
  0 < n <= maxUint32 -> forallb quiet cs = true ->
  exists w', NewGroup n (mkWorld g cs) = Done tt w' /\ fresh w' = true /\
             Size w' = Done n w' /\
             blockChan (grp w') = Some (Chan (length cs)) /\
             chans w' = (cs ++ [mkChanState false 0 0])%list.
Proof.
  intros Hn Hq. unfold NewGroup. cbn [chans]. rewrite setSize_fits by exact Hn.
  eexists. split; [reflexivity|].
  cbn [grp waitChan counter zeroGroup chans].
  split; [|repeat split].
  unfold fresh, settled. cbn [grp waitChan counter blockChan size chans].
  rewrite forallb_quiet_app by exact Hq.
  destruct (Z.ltb_spec 0 n), (Z.leb_spec n maxUint32); first [lia|reflexivity].
Qed.

(** * The wait channel *)

Section Waiting.

Lemma nonzero_test w :
  0 < pending w \/ 0 < active w ->
  (pending w <=? 0) && (active w <=? 0) = false.
Proof.
  intros H. destruct (Z.leb_spec (pending w) 0), (Z.leb_spec (active w) 0);
    cbn [andb]; try reflexivity. lia.
Qed.

Lemma zero_test w :
  pending w = 0 -> active w <= 0 ->
  (pending w <=? 0) && (active w <=? 0) = true.
Proof.
  intros -> H. destruct (Z.leb_spec (active w) 0); [reflexivity|lia].
Qed.

(** On a group that counts as zero, [initWaitChan] hands out the closed
    channel and writes nothing. *)
Lemma initWaitChan_zero w :
  pending w = 0 -> active w <= 0 -> initWaitChan w = Done closedChan w.
Proof.
  intros Hp Ha. unfold initWaitChan, bind. cbn [waitChan_Load counter_Load bindO].
  rewrite counterParts_world, zero_test by assumption. reflexivity.
Qed.

(** On a group that is not zero, a channel waiting in the slot is handed
    out as it is. *)
Lemma initWaitChan_live w c :
  0 < pending w \/ 0 < active w ->
  waitChan (grp w) = Some c -> c <> nilChan -> initWaitChan w = Done c w.
Proof.
  intros Hnz Hw Hc. unfold initWaitChan, bind.
  cbn [waitChan_Load counter_Load bindO].
  rewrite counterParts_world, nonzero_test, Hw by assumption.
  destruct (decide (c = nilChan)); [contradiction|reflexivity].
Qed.

Lemma initWaitChan_install w :
  0 < pending w \/ 0 < active w ->
  waitChan (grp w) = None \/ waitChan (grp w) = Some nilChan ->
  initWaitChan w = Done (Chan (length (chans w))) (installed w).
Proof.
  intros Hnz Hw. unfold initWaitChan, bind.
  cbn [waitChan_Load counter_Load bindO].
  rewrite counterParts_world, nonzero_test by assumption.
  assert (E : initWaitChanSlow (waitChan (grp w)) w =
              Done (Chan (length (chans w))) (installed w)).
  { unfold initWaitChanSlow, bind, make_chan. cbn [bindO].
    unfold waitChan_CompareAndSwap. cbn [grp].
    destruct (decide (waitChan (grp w) = waitChan (grp w))); [|contradiction].
    cbn [bindO counter_Load withGrp grp counter].
    rewrite counterParts_world, nonzero_test by assumption. reflexivity. }
  destruct Hw as [Hw|Hw]; rewrite Hw in *.
  - exact E.
  - destruct (decide (nilChan = nilChan)); [exact E|contradiction].
Qed.

Lemma lookup_fresh (cs : list chanState) s : ((cs ++ [s])%list !! length cs) = Some s.
Proof. rewrite lookup_app_r by lia. rewrite Nat.sub_diag. reflexivity. Qed.

Lemma installed_facts w :
  let c := Chan (length (chans w)) in
  waitChan (grp (installed w)) = Some c /\ isOpen (installed w) c = true /\
  ready (installed w) (Recv c) = false /\ sameCore w (installed w) /\
  pending (installed w) = pending w /\ active (installed w) = active w.
Proof.
  cbn zeta. unfold installed, isOpen, ready. cbn [grp chans waitChan].
  rewrite lookup_fresh. repeat split.
Qed.

(** A receive on a channel that is not ready parks, and returns once
    resumed. *)
Lemma recv_parks c w :
  ready w (Recv c) = false ->
  recv c w = Blocked [Recv c] w (fun _ w' => Done tt w').
Proof.
  intros Hr. unfold recv, bind, select. cbn [readyFrom]. rewrite Hr. reflexivity.
Qed.

Lemma Wait_zero w : pending w = 0 -> active w <= 0 -> Wait w = Done tt w.
Proof.
  intros Hp Ha. unfold Wait.
  rewrite (bind_Done _ _ _ _ _ (initWaitChan_zero w Hp Ha)). reflexivity.
Qed.

End Waiting.

Section Closing.

Lemma notifyWait_closes a id s w :
  a <= 0 -> waitChan (grp w) = Some (Chan id) ->
  chans w !! id = Some s -> closed s = false ->
  notifyWait 0 a w = Done tt (released id s w).
Proof.
  intros Ha Hw Hl Hc. unfold notifyWait.
  destruct (Z.gtb_spec a 0); [lia|]. cbn [Z.gtb Z.compare orb].
  unfold bind at 1. cbn [waitChan_Load bindO]. rewrite Hw.
  destruct (decide (Chan id = nilChan)); [discriminate|].
  unfold bind, waitChan_CompareAndSwap. rewrite Hw.
  destruct (decide (Some (Chan id) = Some (Chan id))); [|contradiction].
  cbn [bindO negb close_chan withGrp chans]. rewrite Hl, Hc. reflexivity.
Qed.

Lemma released_facts id s w :
  chans w !! id = Some s ->
  waitChan (grp (released id s w)) = Some nilChan /\
  ready (released id s w) (Recv (Chan id)) = true /\
  isOpen (released id s w) (Chan id) = false /\
  sameCore w (released id s w).
Proof.
  intros Hl. unfold released, ready, isOpen. cbn [grp chans waitChan].
  rewrite list_lookup_insert_eq by (eapply lookup_lt_Some; exact Hl).
  repeat split.
Qed.

End Closing.

Lemma FreeN_last fuel w n id s :
  0 < n -> pending w = 0 -> minInt32 <= active w - n <= 0 ->
  waitChan (grp w) = Some (Chan id) -> chans w !! id = Some s -> closed s = false ->
  FreeN (S fuel) n w =
  let w' := released id s (setCounter (newCounterOf (counter (grp w)) 0 (int (- n))) w) in
  if active w - n <? 0 then Fault negativeCounter w' else Done tt w'.
Proof.
  intros Hn Hp Ha Hw Hl Hc. pose proof (active_range w) as Har.
  rewrite FreeN_unfold by exact Hn. unfold minInt32 in Ha.
  rewrite int32_small by lia.
  set (w1 := setCounter (newCounterOf (counter (grp w)) 0 (int (- n))) w).
  assert (Hp1 : pending w1 = 0).
  { unfold w1. rewrite pending_after_FreeN; [exact Hp|unfold minInt32; lia|exact Hn]. }
  unfold afterDecrement.
  assert (E : (match blockChan (grp w) with
               | Some c => bind (notifyFree (S fuel) c)
                             (fun counter => ret (fst (counterParts counter)))
               | None => ret 0
               end) w1 = Done 0 w1).
  { destruct (blockChan (grp w)) as [c|]; [|reflexivity].
    unfold bind. rewrite notifyFree_no_pending by exact Hp1. cbn [bindO ret].
    fold (pending w1). rewrite Hp1. reflexivity. }
  rewrite (bind_Done _ _ _ _ _ E).
  rewrite (bind_Done _ _ _ _ _ (notifyWait_closes (active w - n) id s w1
                                  ltac:(lia) Hw Hl Hc)).
  cbn zeta. destruct (active w - n <? 0); reflexivity.
Qed.

Lemma FreeN_not_last fuel w n :
  0 < n < active w -> pending w = 0 ->
  FreeN (S fuel) n w =
  Done tt (setCounter (newCounterOf (counter (grp w)) 0 (int (- n))) w).
Proof.
  intros Hn Hp. pose proof (active_range w) as Har.
  rewrite FreeN_unfold by lia. rewrite int32_small by lia.
  rewrite afterDecrement_idle.
  - destruct (Z.ltb_spec (active w - n) 0); [lia|reflexivity].
  - rewrite pending_after_FreeN; [exact Hp|unfold minInt32; lia|lia].
  - left. lia.
Qed.

Section Cancelled.

(** What a receive that is ready does to the world. *)
Lemma perform_Recv_closed id s w :
  chans w !! id = Some s -> closed s = true -> perform (Recv (Chan id)) w = Done tt w.
Proof. intros Hl Hc. cbn [perform]. rewrite Hl, Hc. reflexivity. Qed.

Lemma perform_Recv_sender id s w :
  chans w !! id = Some s -> closed s = false ->
  perform (Recv (Chan id)) w =
  Done tt (withChan id (mkChanState false (pred (sendq s)) (recvq s)) w).
Proof. intros Hl Hc. cbn [perform]. rewrite Hl, Hc. reflexivity. Qed.

Lemma ReserveN_done_ready fuel d n w :
  0 < n -> ready w (Recv d) = true ->
  exists w', perform (Recv d) w = Done tt w' /\ ReserveN fuel d n w = Done false w'.
Proof.
  intros Hn Hr. rewrite ReserveN_unfold by exact Hn.
  unfold bind at 1, precheck.
  destruct (decide (d = nilChan)) as [->|_]; [discriminate|].
  unfold select. cbn [readyFrom]. rewrite Hr. cbn [app].
  destruct (perform_Recv d w) as (w' & E & _). exists w'.
  split; [exact E|]. rewrite E. reflexivity.
Qed.

End Cancelled.

(** X1: [PendingCount] and [ActiveCount] read the two halves of the
    counter and write nothing; the pending count is within 32 unsigned
    bits, the active count within 32 signed bits, and the counter is the
    pending count times 2^32 plus the active count modulo 2^32, so that
    two groups with the same two counts have the same counter.  A
    [counterUpdate] with both deltas 0 succeeds and leaves the group as it
    is. *)
Theorem X1_counts_determine_word (w : World) :
  0 <= counter (grp w) < 2^64 ->
  exists p a,
    PendingCount w = Done p w /\ ActiveCount w = Done a w /\
    0 <= p < 2^32 /\ - 2^31 <= a < 2^31 /\
    counter (grp w) = p * 2^32 + a mod 2^32 /\
    counterUpdate (counter (grp w)) 0 0 w = Done (counter (grp w), true) w /\
    forall w', 0 <= counter (grp w') < 2^64 ->
      PendingCount w' = Done p w' -> ActiveCount w' = Done a w' ->
      counter (grp w') = counter (grp w).
Proof.
  intros Hc. exists (pending w), (active w).
  assert (Hword : forall v, 0 <= counter (grp v) < 2^64 ->
            counter (grp v) = pending v * 2^32 + active v mod 2^32).
  { intros v Hv. pose proof (pack_counterParts _ Hv) as H.
    unfold pack, uint32 in H. symmetry. exact H. }
  split; [reflexivity|]. split; [reflexivity|].
  split; [apply pending_range|]. split; [apply active_range|].
  split; [apply Hword, Hc|]. split.
  - rewrite counterUpdate_load by reflexivity.
    rewrite newCounterOf_zero by exact Hc. rewrite setCounter_same. reflexivity.
  - intros w' Hc' Hp Ha.
    change (PendingCount w') with (Done (pending w') w') in Hp.
    change (ActiveCount w') with (Done (active w') w') in Ha.
    injection Hp as Hp. injection Ha as Ha.
    rewrite (Hword w' Hc'), (Hword w Hc), Hp, Ha. reflexivity.
Qed.

Lemma X1_witness :
  let w := mkWorld (mkGroup None None (3 * 2^32 + 5) 4) [] in
  exists p a, PendingCount w = Done p w /\ ActiveCount w = Done a w /\
              counter (grp w) = p * 2^32 + a mod 2^32.
Proof.
  cbn zeta.
  destruct (X1_counts_determine_word
              (mkWorld (mkGroup None None (3 * 2^32 + 5) 4) []))
    as (p & a & H1 & H2 & _ & _ & H3 & _).
  - cbn. lia.
  - exists p, a. split; [exact H1|]. split; [exact H2|exact H3].
Defined.

(** X2: a [counterUpdate] followed by the [counterUpdate] with the
    opposite deltas gives back the counter it started from, whatever the
    deltas: the carry into the pending half that a wrap of the active half
    causes is undone by the borrow of the way back. *)
Theorem X2_opposite_updates_cancel (w : World) (pd ad : Z) :
  0 <= counter (grp w) < 2^64 ->
  exists c1 w1,
    counterUpdate (counter (grp w)) pd ad w = Done (c1, true) w1 /\
    counterUpdate c1 (- pd) (- ad) w1 = Done (counter (grp w), true) w.
Proof.
  intros Hc. eexists _, _. split; [apply counterUpdate_load; reflexivity|].
  rewrite counterUpdate_load by reflexivity.
  rewrite newCounterOf_opposite by exact Hc.
  rewrite setCounter_twice, setCounter_same. reflexivity.
Qed.

Lemma X2_witness :
  let w := mkWorld (mkGroup None None (2^31 - 1) 0) [] in
  exists c1 w1,
    counterUpdate (counter (grp w)) 0 1 w = Done (c1, true) w1 /\
    counterUpdate c1 (- 0) (- 1) w1 = Done (counter (grp w), true) w.
Proof.
  cbn zeta.
  apply (X2_opposite_updates_cancel (mkWorld (mkGroup None None (2^31 - 1) 0) []) 0 1).
  cbn. lia.
Defined.

(** X3: [NewGroup n] gives the group that [SetSize n] gives on the zero
    value, fault included.  For a size within 1 and 2^32 - 1 the new
    group has that size, counts of 0 and its channels in order, and is
    fresh when no other channel is in use; a greater size faults with
    "sema.Group: incorrect group size". *)
Theorem X3_NewGroup_is_SetSize_on_zero (n : Z) (g : Group) (cs : list chanState) :
  NewGroup n (mkWorld g cs) = SetSize n (mkWorld zeroGroup cs) /\
  (0 < n <= maxUint32 ->
   exists w', NewGroup n (mkWorld g cs) = Done tt w' /\
     Size w' = Done n w' /\ ActiveCount w' = Done 0 w' /\
     PendingCount w' = Done 0 w' /\ wired w' = true /\
     (forallb quiet cs = true -> fresh w' = true)) /\
  (maxUint32 < n ->
   NewGroup n (mkWorld g cs) =
   Fault "sema.Group: incorrect group size" (mkWorld zeroGroup cs)).
Proof.
  split; [apply NewGroup_SetSize|]. split.
  - intros Hn. unfold NewGroup. cbn [chans]. rewrite setSize_fits by exact Hn.
    eexists. split; [reflexivity|]. split; [reflexivity|].
    split; [reflexivity|]. split; [reflexivity|]. split.
    + unfold wired. cbn [grp blockChan waitChan zeroGroup isOpen chans].
      rewrite lookup_fresh. reflexivity.
    + intros Hq. destruct (NewGroup_fresh n g cs Hn Hq) as (w' & E & Hf & _).
      unfold NewGroup in E. cbn [chans] in E. rewrite setSize_fits in E by exact Hn.
      injection E as <-. exact Hf.
  - intros Hn. unfold NewGroup. cbn [chans]. apply setSize_too_big, Hn.
Qed.

Lemma X3_witness :
  exists w', NewGroup 10 (mkWorld zeroGroup []) = Done tt w' /\
             Size w' = Done 10 w' /\ fresh w' = true.
Proof.
  destruct (X3_NewGroup_is_SetSize_on_zero 10 zeroGroup []) as (_ & H & _).
  destruct H as (w' & E & Hs & _ & _ & _ & Hf).
  - unfold maxUint32. lia.
  - exists w'. split; [exact E|]. split; [exact Hs|]. apply Hf. reflexivity.
Defined.

(** X4: a reservation that does not have to wait and the free of the same
    weight cancel out.  Take a group whose counter is a 64-bit word and
    whose size fits 32 bits, on which nobody is queued, whose active count
    is not negative, and on which the active count is positive or no
    channel waits in the wait slot (the slot is empty or holds the nil
    channel).  With [n] a positive [int], the cancellation channel not
    ready, and room for [n] (the group has no limit or
    [active + n <= size]), [ReserveN d n] and [TryReserveN n] return true
    in the same world, and [FreeN n] then returns and leaves the world
    exactly as it was before the reservation, also when the active count
    wrapped in between. *)
Theorem X4_reserve_free_round_trip (fuel : nat) (w : World) (d : chan) (n : Z) :
  0 < n <= maxInt -> 0 <= counter (grp w) < 2^64 ->
  0 <= size (grp w) <= maxUint32 ->
  ready w (Recv d) = false -> pending w = 0 -> 0 <= active w ->
  0 < active w \/ waitChan (grp w) = None \/ waitChan (grp w) = Some nilChan ->
  size (grp w) = 0 \/ active w + n <= size (grp w) ->
  exists w1,
    ReserveN (S fuel) d n w = Done true w1 /\
    TryReserveN (S fuel) n w = Done true w1 /\
    counter (grp w1) = newCounterOf (counter (grp w)) 0 n /\
    FreeN (S fuel) n w1 = Done tt w.
Proof. apply round_trip. Qed.

Lemma X4_witness :
  let w := mkWorld (mkGroup None None (2^31 - 1) 0) [] in
  exists w1, ReserveN 1 nilChan 7 w = Done true w1 /\ FreeN 1 7 w1 = Done tt w.
Proof.
  cbn zeta.
  destruct (X4_reserve_free_round_trip 0
              (mkWorld (mkGroup None None (2^31 - 1) 0) []) nilChan 7)
    as (w1 & H1 & _ & _ & H2).
  - unfold maxInt. lia.
  - cbn. lia.
  - cbn. unfold maxUint32. lia.
  - reflexivity.
  - reflexivity.
  - vm_compute. discriminate.
  - right. left. reflexivity.
  - left. reflexivity.
  - exists w1. split; [exact H1|exact H2].
Defined.

(** X5: the cancellation channel is looked at before anything else.
    [ReserveN d n] with [n > 0] and [d] ready returns false whatever the
    size and the counts, without writing the group: nothing changes when
    [d] is closed, and when a sender is parked on [d] its value is taken. *)
Theorem X5_cancellation_first (fuel : nat) (w : World) (d : chan) (n : Z) :
  0 < n -> ready w (Recv d) = true ->
  exists w', ReserveN fuel d n w = Done false w' /\ grp w' = grp w /\
    (chanClosed w d = true -> w' = w) /\
    (forall id s, d = Chan id -> chans w !! id = Some s -> closed s = false ->
       w' = withChan id (mkChanState false (pred (sendq s)) (recvq s)) w).
Proof.
  intros Hn Hr.
  destruct (ReserveN_done_ready fuel d n w Hn Hr) as (w' & Ep & E).
  exists w'. split; [exact E|]. split; [|split].
  - pose proof (perform_grp (Recv d) w) as H. rewrite Ep in H. exact H.
  - intros Hc. destruct d as [| |id]; cbn [chanClosed] in Hc.
    + discriminate.
    + cbn [perform] in Ep. injection Ep as <-. reflexivity.
    + destruct (chans w !! id) as [s|] eqn:El; [|discriminate].
      rewrite (perform_Recv_closed id s w El Hc) in Ep.
      injection Ep as <-. reflexivity.
  - intros id s -> El Hc. rewrite (perform_Recv_sender id s w El Hc) in Ep.
    injection Ep as <-. reflexivity.
Qed.

Lemma X5_witness :
  let w := mkWorld (mkGroup None None 0 0) [mkChanState true 0 0] in
  ReserveN 1 (Chan 0) 1 w = Done false w.
Proof.
  cbn zeta.
  destruct (X5_cancellation_first 1
              (mkWorld (mkGroup None None 0 0) [mkChanState true 0 0]) (Chan 0) 1)
    as (w' & E & _ & H & _).
  - lia.
  - reflexivity.
  - rewrite E. f_equal. apply H. reflexivity.
Defined.

(** * Queued reservations *)

Section Handoff.

Lemma select_send_receiver b s w :
  chans w !! b = Some s -> closed s = false -> (0 < recvq s)%nat ->
  select [Send (Chan b)] true w =
  Done 0%nat (withChan b (mkChanState false (sendq s) (pred (recvq s))) w).
Proof.
  intros Hl Hc Hq. unfold select. cbn [readyFrom ready]. rewrite Hl, Hc.
  apply Nat.ltb_lt in Hq. rewrite Hq. cbn [orb app perform].
  rewrite Hl, Hc. reflexivity.
Qed.

Lemma select_send_nobody b s w :
  chans w !! b = Some s -> closed s = false -> recvq s = 0%nat ->
  select [Send (Chan b)] true w = Done 1%nat w.
Proof.
  intros Hl Hc Hq. unfold select. cbn [readyFrom ready]. rewrite Hl, Hc, Hq.
  reflexivity.
Qed.

Lemma notifyFree_wakes fuel b s w :
  0 < pending w ->
  chans w !! b = Some s -> closed s = false -> (0 < recvq s)%nat ->
  notifyFree (S fuel) (Chan b) w =
  Done (counter (grp w))
       (withChan b (mkChanState false (sendq s) (pred (recvq s))) w).
Proof.
  intros Hp Hl Hc Hq. unfold notifyFree, bind at 1. cbn [counter_Load bindO].
  cbn [notifyFreeLoop]. fold (pending w).
  destruct (Z.gtb_spec (pending w) 0); [|lia].
  unfold bind at 1. rewrite (select_send_receiver b s w Hl Hc Hq).
  reflexivity.
Qed.

Lemma notifyFree_yields fuel b s w :
  0 < pending w ->
  chans w !! b = Some s -> closed s = false -> recvq s = 0%nat ->
  exists k, notifyFree (S fuel) (Chan b) w = Blocked [Sched] w k.
Proof.
  intros Hp Hl Hc Hq. unfold notifyFree, bind at 1. cbn [counter_Load bindO].
  cbn [notifyFreeLoop]. fold (pending w).
  destruct (Z.gtb_spec (pending w) 0); [|lia].
  unfold bind at 1. rewrite (select_send_nobody b s w Hl Hc Hq).
  cbn [bindO]. unfold bind at 1, Gosched. cbn [bindO].
  eexists. reflexivity.
Qed.

End Handoff.

Lemma FreeN_wakes fuel w n b s :
  0 < n <= active w -> 0 < pending w ->
  blockChan (grp w) = Some (Chan b) ->
  chans w !! b = Some s -> closed s = false -> (0 < recvq s)%nat ->
  FreeN (S fuel) n w =
  Done tt (withChan b (mkChanState false (sendq s) (pred (recvq s)))
             (setCounter (newCounterOf (counter (grp w)) 0 (int (- n))) w)).
Proof.
  intros Hn Hp Hb Hl Hc Hq. pose proof (active_range w) as Har.
  rewrite FreeN_unfold by lia. rewrite int32_small by lia.
  set (w1 := setCounter (newCounterOf (counter (grp w)) 0 (int (- n))) w).
  assert (Hp1 : pending w1 = pending w).
  { unfold w1. apply pending_after_FreeN; [unfold minInt32|]; lia. }
  unfold afterDecrement. rewrite Hb.
  unfold bind at 1, bind at 1.
  rewrite (notifyFree_wakes fuel b s w1) by (try assumption; lia).
  cbn [bindO ret]. fold (pending w1). unfold bind.
  rewrite notifyWait_idle by (left; lia). cbn [bindO].
  destruct (Z.ltb_spec (active w - n) 0); [lia|reflexivity].
Qed.

Lemma FreeN_yields fuel w n b s :
  0 < n -> minInt32 <= active w - n -> 0 < pending w ->
  blockChan (grp w) = Some (Chan b) ->
  chans w !! b = Some s -> closed s = false -> recvq s = 0%nat ->
  exists k, FreeN (S fuel) n w =
            Blocked [Sched] (setCounter (newCounterOf (counter (grp w)) 0 (int (- n))) w) k.
Proof.
  intros Hn Hlo Hp Hb Hl Hc Hq.
  rewrite FreeN_unfold by lia.
  set (w1 := setCounter (newCounterOf (counter (grp w)) 0 (int (- n))) w).
  assert (Hp1 : pending w1 = pending w).
  { unfold w1. apply pending_after_FreeN; assumption. }
  unfold afterDecrement. rewrite Hb.
  unfold bind at 1, bind at 1.
  destruct (notifyFree_yields fuel b s w1) as (k & E); try assumption; [lia|].
  rewrite E. cbn [bindO]. eexists. reflexivity.
Qed.

Section Parking.

Context (fuel : nat).

Lemma reserveNSlowLoop_parks sz d n bc w :
  ready w (Recv bc) = false -> ready w (Recv d) = false ->
  reserveNSlowLoop (S fuel) sz d n bc w =
  Blocked [Recv bc; Recv d] w (fun i w' => afterPark fuel sz d n bc i w').
Proof.
  intros Hb Hd. cbn [reserveNSlowLoop]. unfold bind at 1, select.
  cbn [readyFrom]. rewrite Hb, Hd. reflexivity.
Qed.

Lemma ReserveN_enqueues d n bc w :
  0 < n <= size (grp w) -> size (grp w) <= maxUint32 ->
  blockChan (grp w) = Some bc ->
  ready w (Recv d) = false -> ready w (Recv bc) = false ->
  pending w <> 0 \/ size (grp w) < active w + n ->
  ReserveN (S fuel) d n w =
  Blocked [Recv bc; Recv d]
    (setCounter (newCounterOf (counter (grp w)) n 0) w)
    (fun i w' => afterPark fuel (size (grp w)) d n bc i w').
Proof.
  intros Hn Hs Hb Hd Hbc Hfull. pose proof (active_range w) as Har.
  assert (Hint : int (active w + n) = active w + n)
    by (apply int_small; unfold maxUint32 in Hs; lia).
  rewrite ReserveN_limited by (try assumption; lia).
  unfold bind at 1. rewrite tryReserve_enqueue by (rewrite Hint; exact Hfull).
  cbn [bindO]. unfold reserveNSlow, bind at 1.
  cbn [blockChan_Load bindO setCounter withGrp grp blockChan]. rewrite Hb.
  apply reserveNSlowLoop_parks; assumption.
Qed.

Lemma enqueued_counts n w :
  let w1 := setCounter (newCounterOf (counter (grp w)) n 0) w in
  active w1 = active w /\ pending w1 = uint32 (pending w + n).
Proof.
  cbn zeta. pose proof (active_range w). split.
  - rewrite active_update. modarith.
  - rewrite pending_update, carry_zero. f_equal. lia.
Qed.

(** The abort of a queued reservation takes its weight off the pending
    count first. *)
Lemma reserveNAbortWait_alone bc n w :
  waitOk w = true -> pending w = n -> 0 < n <= maxUint32 ->
  exists w', reserveNAbortWait (S fuel) bc n w = Done tt w' /\
             pending w' = 0 /\ active w' = active w /\
             size (grp w') = size (grp w) /\ blockChan (grp w') = blockChan (grp w).
Proof.
  intros Hwo Hp Hn. pose proof (active_range w) as Har.
  unfold reserveNAbortWait. unfold bind at 1. rewrite counterAdd_S. cbn [bindO].
  set (w1 := setCounter (newCounterOf (counter (grp w)) (int (- n)) 0) w).
  assert (Ha1 : active w1 = active w).
  { unfold w1. rewrite active_update. modarith. }
  assert (Hp1 : pending w1 = 0).
  { unfold w1. rewrite pending_update, carry_zero, Hp.
    unfold maxUint32 in Hn. modarith. }
  unfold bind at 1. rewrite notifyFree_no_pending by exact Hp1. cbn [bindO].
  rewrite counterParts_world.
  destruct (notifyWait_returns (pending w1) (active w1) w1) as (w' & E & Hs).
  { exact Hwo. }
  exists w'. split; [exact E|].
  pose proof (sameCore_pending _ _ Hs) as Hp'.
  destruct Hs as (Hc & Hsz & Hbl).
  split; [congruence|]. split.
  - unfold active. rewrite Hc. exact Ha1.
  - split; [exact Hsz|exact Hbl].
Qed.

Lemma reserveNAbortWait_commits bc n w :
  counter (grp (worldOf (reserveNAbortWait (S fuel) bc n w))) =
  newCounterOf (counter (grp w)) (int (- n)) 0.
Proof.
  unfold reserveNAbortWait. unfold bind at 1. rewrite counterAdd_S. cbn [bindO].
  set (w1 := setCounter (newCounterOf (counter (grp w)) (int (- n)) 0) w).
  assert (H : sameCore w1 (worldOf
            (bind (notifyFree (S fuel) bc)
               (fun counter => let '(pending, active) := counterParts counter in
                               notifyWait pending active) w1))).
  { unfold bind. apply bindO_core.
    - unfold notifyFree, bind. cbn [counter_Load bindO]. apply notifyFreeLoop_core.
    - intros c w'. destruct (counterParts c). apply notifyWait_core. }
  destruct H as (H & _). exact H.
Qed.

Lemma afterPark_cancel sz d n bc i w :
  waitOk w = true -> pending w = n -> 0 < n <= maxUint32 ->
  exists w', afterPark fuel sz d n bc (S i) w = Done false w' /\
             pending w' = 0 /\ active w' = active w /\
             size (grp w') = size (grp w) /\ blockChan (grp w') = blockChan (grp w).
Proof.
  intros Hwo Hp Hn. cbn [afterPark]. unfold bind.
  destruct (reserveNAbortWait_alone bc n w Hwo Hp Hn) as (w' & E & H).
  rewrite E. exists w'. split; [reflexivity|exact H].
Qed.

Lemma diffN_exact sz a n :
  0 <= sz <= maxUint32 -> - 2^31 <= a < 2^31 -> 0 < n <= sz ->
  int (int (sz - a) - n) = sz - a - n.
Proof. intros. unfold maxUint32 in *. modarith. Qed.

Lemma select_recv_default_idle d w :
  ready w (Recv d) = false -> select [Recv d] true w = Done 1%nat w.
Proof. intros Hr. unfold select. cbn [readyFrom]. rewrite Hr. reflexivity. Qed.

(** A queued reservation that is woken and finds room moves its weight
    from the pending to the active count and returns true. *)
Lemma afterPark_wake sz d n bc w :
  0 <= sz <= maxUint32 -> 0 < n <= sz ->
  ready w (Recv d) = false -> active w + n <= sz ->
  afterPark fuel sz d n bc 0 w =
  Done true (setCounter (newCounterOf (counter (grp w)) (int (- n)) n) w).
Proof.
  intros Hs Hn Hd Hroom. pose proof (active_range w) as Har.
  cbn [afterPark reserveNSuccessWait]. unfold bind at 1, bind at 1.
  cbn [counter_Load bindO]. rewrite counterParts_world.
  rewrite diffN_exact by assumption.
  destruct (Z.geb_spec (sz - active w - n) 0); [|lia].
  unfold bind at 1. rewrite select_recv_default_idle by exact Hd.
  cbn [bindO]. unfold bind at 1.
  rewrite counterUpdate_load by reflexivity. reflexivity.
Qed.

Lemma moved_counts n w :
  0 < n <= pending w -> active w + n <= maxInt32 ->
  let w1 := setCounter (newCounterOf (counter (grp w)) (int (- n)) n) w in
  active w1 = active w + n /\ pending w1 = pending w - n.
Proof.
  intros Hn Hfit. cbn zeta. pose proof (active_range w) as Har.
  pose proof (pending_range w) as Hpr. unfold maxInt32 in Hfit.
  split.
  - apply active_update_no_wrap. lia.
  - rewrite pending_update, carry_no_wrap by lia. modarith.
Qed.

(** A queued reservation that is woken while its cancellation channel is
    ready gives up, although there is room. *)
Lemma afterPark_wake_cancelled sz d n bc w :
  0 <= sz <= maxUint32 -> 0 < n <= sz ->
  ready w (Recv d) = true -> active w + n <= sz ->
  waitOk w = true -> pending w = n ->
  exists w', afterPark fuel sz d n bc 0 w = Done false w' /\
             pending w' = 0 /\ active w' = active w.
Proof.
  intros Hs Hn Hd Hroom Hwo Hp. pose proof (active_range w) as Har.
  cbn [afterPark reserveNSuccessWait]. unfold bind at 1, bind at 1.
  cbn [counter_Load bindO]. rewrite counterParts_world.
  rewrite diffN_exact by assumption.
  destruct (Z.geb_spec (sz - active w - n) 0); [|lia].
  unfold bind at 1, select. cbn [readyFrom]. rewrite Hd. cbn [app].
  destruct (perform_Recv d w) as (w1 & E & Hg). rewrite E. cbn [bindO ret].
  assert (Hwo1 : waitOk w1 = true).
  { revert E Hwo. clear. destruct d as [| |id]; cbn [perform];
      try (intros E; injection E as <-; auto).
    destruct (chans w !! id) as [s|] eqn:El; [|intros E; injection E as <-; auto].
    destruct (closed s) eqn:Ec; intros E; injection E as <-; [auto|].
    intros Hwo. rewrite (sameClosed_waitOk w); [exact Hwo|].
    apply sameClosed_withChan with (s := s); [exact El|symmetry; exact Ec]. }
  destruct (reserveNAbortWait_alone bc n w1) as (w' & E' & Hp' & Ha' & _).
  - exact Hwo1.
  - unfold pending. rewrite Hg. exact Hp.
  - unfold maxUint32 in *. lia.
  - unfold bind at 1. rewrite E'. cbn [bindO ret].
    exists w'. split; [reflexivity|]. split; [exact Hp'|].
    rewrite Ha'. unfold active. rewrite Hg. reflexivity.
Qed.

End Parking.

(** A queued reservation that is woken without room, and is the only one
    queued, parks again and leaves the world as it is. *)
Lemma afterPark_wake_full fuel sz d n bc w :
  0 <= sz <= maxUint32 -> 0 < n <= sz ->
  sz < active w + n -> pending w = n ->
  ready w (Recv bc) = false -> ready w (Recv d) = false ->
  afterPark (S fuel) sz d n bc 0 w =
  Blocked [Recv bc; Recv d] w (fun i w' => afterPark fuel sz d n bc i w').
Proof.
  intros Hs Hn Hfull Hp Hb Hd. pose proof (active_range w) as Har.
  cbn [afterPark]. cbn [reserveNSuccessWait]. unfold bind at 1, bind at 1.
  cbn [counter_Load bindO]. rewrite counterParts_world.
  rewrite diffN_exact by assumption.
  destruct (Z.geb_spec (sz - active w - n) 0); [lia|].
  rewrite Hp, Z.eqb_refl. cbn [ret bindO negb].
  apply reserveNSlowLoop_parks; assumption.
Qed.

Section Abort.

Lemma calm_setCounter bc c w : calm bc w -> calm bc (setCounter c w).
Proof. intros H. exact H. Qed.

(** However the abort of a queued reservation is scheduled, it ends by
    returning. *)
Lemma reserveNAbortWait_finishes fuel bc n w r :
  calm bc w ->
  finishes (calm bc) (reserveNAbortWait (S fuel) bc n w) r ->
  exists w', r = Done tt w'.
Proof.
  intros Hcalm H. unfold reserveNAbortWait in H. unfold bind at 1 in H.
  rewrite counterAdd_S in H. cbn [bindO] in H.
  unfold bind at 1 in H. apply finishes_bindO in H.
  destruct H as [(c & w2 & HN & HK)|(msg & w2 & HN & _)].
  - destruct (notifyFree_finishes bc (S fuel) _ _ (calm_setCounter bc _ w Hcalm) HN)
      as (c' & w3 & E & Hc3).
    injection E as -> ->.
    destruct (counterParts c') as [p a].
    destruct (notifyWait_returns p a w3) as (w4 & E' & _); [apply Hc3|].
    rewrite E' in HK. inversion HK; subst. eauto.
  - destruct (notifyFree_finishes bc (S fuel) _ _ (calm_setCounter bc _ w Hcalm) HN)
      as (c' & w3 & E & _).
    discriminate.
Qed.

Lemma worldOf_bindO_ret {A B} (o : outcome A) (b : B) :
  worldOf (bindO o (fun _ => ret b)) = worldOf o.
Proof. destruct o; reflexivity. Qed.

End Abort.

Section Registered.

Lemma parkReceiver_lookup b s w :
  chans w !! b = Some s ->
  chans (parkReceiver b w) !! b =
  Some (mkChanState (closed s) (sendq s) (S (recvq s))).
Proof.
  intros Hl. unfold parkReceiver. rewrite Hl. cbn [withChan chans].
  apply list_lookup_insert_eq. eapply lookup_lt_Some; exact Hl.
Qed.

Lemma parkReceiver_grp b w : grp (parkReceiver b w) = grp w.
Proof. unfold parkReceiver. destruct (chans w !! b); reflexivity. Qed.

Lemma woken_chans b s w :
  chans w !! b = Some s -> closed s = false ->
  <[b := mkChanState false (sendq s) (recvq s)]> (chans (parkReceiver b w)) = chans w.
Proof.
  intros Hl Hc. unfold parkReceiver. rewrite Hl. cbn [withChan chans].
  rewrite list_insert_insert_eq. apply list_insert_id.
  rewrite Hl. destruct s as [c sq rq]. cbn in *. subst c. reflexivity.
Qed.

End Registered.

(** X6: on a group that is not zero (somebody is queued or active),
    [WaitChan] hands out the channel waiting in the slot, unchanged, or,
    when the slot is empty or holds the nil channel left by the last
    release, makes a new open channel, stores it in the slot and hands it
    out, leaving the counter, the size and the block channel as they are;
    called again it hands out the same channel. *)
Theorem X6_WaitChan_on_busy_group (w : World) :
  0 < pending w \/ 0 < active w ->
  (forall c, waitChan (grp w) = Some c -> c <> nilChan -> WaitChan w = Done c w) /\
  (waitChan (grp w) = None \/ waitChan (grp w) = Some nilChan ->
   let c := Chan (length (chans w)) in
   WaitChan w = Done c (installed w) /\
   waitChan (grp (installed w)) = Some c /\ isOpen (installed w) c = true /\
   ready (installed w) (Recv c) = false /\ sameCore w (installed w) /\
   WaitChan (installed w) = Done c (installed w)).
Proof.
  intros Hnz. split.
  - intros c Hw Hc. apply initWaitChan_live; assumption.
  - intros Hw. cbn zeta.
    destruct (installed_facts w) as (H1 & H2 & H3 & H4 & H5 & H6).
    split; [apply initWaitChan_install; assumption|].
    split; [exact H1|]. split; [exact H2|]. split; [exact H3|].
    split; [exact H4|].
    apply initWaitChan_live; [rewrite H5, H6; exact Hnz|exact H1|discriminate].
Qed.

Lemma X6_witness :
  let w := mkWorld (mkGroup (Some nilChan) None 2 0) [mkChanState true 0 0] in
  WaitChan w = Done (Chan 1) (installed w) /\
  WaitChan (installed w) = Done (Chan 1) (installed w).
Proof.
  cbn zeta.
  destruct (X6_WaitChan_on_busy_group
              (mkWorld (mkGroup (Some nilChan) None 2 0) [mkChanState true 0 0]))
    as (_ & H).
  - right. vm_compute. reflexivity.
  - destruct H as (H1 & _ & _ & _ & _ & H2); [right; reflexivity|].
    split; [exact H1|exact H2].
Defined.

(** X7: [Wait] returns at once, writing nothing, when nobody is queued and
    the active count is zero or negative.  On a group that is not zero it
    parks on the channel of the wait slot, in an unchanged world, when that
    channel is not ready, or on the channel it installs when the slot is
    empty, and returns as soon as it is resumed. *)
Theorem X7_Wait_parks_until_zero (w : World) :
  (pending w = 0 -> active w <= 0 ->
   WaitChan w = Done closedChan w /\ Wait w = Done tt w) /\
  (0 < pending w \/ 0 < active w ->
   (forall c, waitChan (grp w) = Some c -> c <> nilChan ->
      ready w (Recv c) = false ->
      Wait w = Blocked [Recv c] w (fun _ w' => Done tt w')) /\
   (waitChan (grp w) = None \/ waitChan (grp w) = Some nilChan ->
      Wait w = Blocked [Recv (Chan (length (chans w)))] (installed w)
                 (fun _ w' => Done tt w'))).
Proof.
  split.
  - intros Hp Ha. split; [apply initWaitChan_zero|apply Wait_zero]; assumption.
  - intros Hnz. split.
    + intros c Hw Hc Hr. unfold Wait.
      rewrite (bind_Done _ _ _ _ _ (initWaitChan_live w c Hnz Hw Hc)).
      apply recv_parks, Hr.
    + intros Hw. unfold Wait.
      rewrite (bind_Done _ _ _ _ _ (initWaitChan_install w Hnz Hw)).
      apply recv_parks. apply installed_facts.
Qed.

Lemma X7_witness :
  let w := mkWorld (mkGroup None None (2^32 - 1) 0) [] in
  active w = -1 /\ Wait w = Done tt w.
Proof.
  cbn zeta. split; [reflexivity|].
  destruct (X7_Wait_parks_until_zero (mkWorld (mkGroup None None (2^32 - 1) 0) []))
    as (H & _).
  apply H; vm_compute; [reflexivity|discriminate].
Defined.

(** X8: what [FreeN n], [n > 0], does to an open channel that waits in the
    wait slot when nobody is queued.  If it leaves the active count
    positive ([n < active]) it returns and touches neither the slot nor
    the channel.  If it takes the count to zero ([n = active]) it returns
    after putting the nil channel in the slot and closing the channel, on
    which every receive is then ready, and [WaitChan] hands out the closed
    channel afterwards.  If it takes the count below zero but not below
    - 2^31 it does the same to the slot and the channel and then faults
    with "sema.Group: negative group counter". *)
Theorem X8_FreeN_releases_waiters (fuel : nat) (w : World) (n : Z)
    (id : nat) (s : chanState) :
  0 < n -> pending w = 0 ->
  waitChan (grp w) = Some (Chan id) -> chans w !! id = Some s -> closed s = false ->
  let w1 := setCounter (newCounterOf (counter (grp w)) 0 (int (- n))) w in
  (n < active w ->
   FreeN (S fuel) n w = Done tt w1 /\
   waitChan (grp w1) = Some (Chan id) /\ isOpen w1 (Chan id) = true) /\
  (active w = n ->
   FreeN (S fuel) n w = Done tt (released id s w1) /\
   active (released id s w1) = 0 /\ pending (released id s w1) = 0 /\
   WaitChan (released id s w1) = Done closedChan (released id s w1)) /\
  (minInt32 <= active w - n < 0 ->
   FreeN (S fuel) n w = Fault "sema.Group: negative group counter" (released id s w1)) /\
  waitChan (grp (released id s w1)) = Some nilChan /\
  ready (released id s w1) (Recv (Chan id)) = true /\
  chans (released id s w1) = <[id := mkChanState true (sendq s) 0]> (chans w).
Proof.
  intros Hn Hp Hw Hl Hc. cbn zeta.
  set (w1 := setCounter (newCounterOf (counter (grp w)) 0 (int (- n))) w).
  pose proof (active_range w) as Har.
  destruct (released_facts id s w1 Hl) as (R1 & R2 & _ & R4).
  split; [|split; [|split; [|split; [exact R1|split; [exact R2|reflexivity]]]]].
  - intros Ha. split; [apply FreeN_not_last; [lia|exact Hp]|].
    split; [exact Hw|]. cbn [isOpen w1 setCounter withGrp chans]. rewrite Hl, Hc.
    reflexivity.
  - intros Ha.
    assert (Ha1 : active w1 = 0).
    { unfold w1. rewrite active_update, int32_sub_int, Ha, Z.sub_diag. reflexivity. }
    assert (Hp1 : pending w1 = 0).
    { unfold w1. rewrite pending_after_FreeN; [exact Hp|unfold minInt32; lia|exact Hn]. }
    assert (Ha2 : active (released id s w1) = 0).
    { destruct R4 as (E & _). unfold active. rewrite E. exact Ha1. }
    assert (Hp2 : pending (released id s w1) = 0).
    { rewrite (sameCore_pending _ _ R4). exact Hp1. }
    split.
    + rewrite (FreeN_last fuel w n id s) by (try assumption; unfold minInt32; lia).
      cbn zeta. fold w1. destruct (Z.ltb_spec (active w - n) 0); [lia|reflexivity].
    + split; [exact Ha2|]. split; [exact Hp2|].
      apply initWaitChan_zero; [exact Hp2|lia].
  - intros Ha.
    rewrite (FreeN_last fuel w n id s) by (try assumption; lia).
    cbn zeta. fold w1. destruct (Z.ltb_spec (active w - n) 0); [reflexivity|lia].
Qed.

Lemma X8_witness :
  let w := mkWorld (mkGroup (Some (Chan 0)) None 2 0) [mkChanState false 0 3] in
  let w' := mkWorld (mkGroup (Some nilChan) None 0 0) [mkChanState true 0 0] in
  FreeN 1 2 w = Done tt w' /\ WaitChan w' = Done closedChan w'.
Proof.
  cbn zeta.
  destruct (X8_FreeN_releases_waiters 0
              (mkWorld (mkGroup (Some (Chan 0)) None 2 0) [mkChanState false 0 3])
              2 0%nat (mkChanState false 0 3))
    as (_ & H & _).
  - lia.
  - reflexivity.
  - reflexivity.
  - reflexivity.
  - reflexivity.
  - destruct H as (H1 & _ & _ & H2); [reflexivity|].
    split; [exact H1|exact H2].
Defined.

(** X9: a [FreeN] within the active count that finds somebody queued wakes
    exactly one receiver parked on the block channel and returns; when
    nobody is parked there yet it yields the processor, having committed
    its decrement.  The pending count is left as it is. *)
Theorem X9_FreeN_wakes_one (fuel : nat) (w : World) (n : Z)
    (b : nat) (s : chanState) :
  0 < n <= active w -> 0 < pending w ->
  blockChan (grp w) = Some (Chan b) -> chans w !! b = Some s -> closed s = false ->
  let w1 := setCounter (newCounterOf (counter (grp w)) 0 (int (- n))) w in
  ((0 < recvq s)%nat ->
   FreeN (S fuel) n w =
   Done tt (withChan b (mkChanState false (sendq s) (pred (recvq s))) w1)) /\
  (recvq s = 0%nat -> exists k, FreeN (S fuel) n w = Blocked [Sched] w1 k) /\
  active w1 = active w - n /\ pending w1 = pending w.
Proof.
  intros Hn Hp Hb Hl Hc. cbn zeta. pose proof (active_range w) as Har.
  split; [|split; [|split]].
  - intros Hq. apply FreeN_wakes; assumption.
  - intros Hq. apply (FreeN_yields fuel w n b s); try assumption; [lia|].
    unfold minInt32. lia.
  - rewrite active_update, int32_sub_int. apply int32_small. lia.
  - apply pending_after_FreeN; [unfold minInt32|]; lia.
Qed.

Lemma X9_witness :
  let w := mkWorld (mkGroup None (Some (Chan 0)) (2^32 + 2) 2) [mkChanState false 0 1] in
  FreeN 1 1 w =
  Done tt (mkWorld (mkGroup None (Some (Chan 0)) (2^32 + 1) 2) [mkChanState false 0 0]).
Proof.
  cbn zeta.
  destruct (X9_FreeN_wakes_one 0
              (mkWorld (mkGroup None (Some (Chan 0)) (2^32 + 2) 2)
                       [mkChanState false 0 1])
              1 0%nat (mkChanState false 0 1))
    as (H & _).
  - vm_compute. split; [reflexivity|discriminate].
  - reflexivity.
  - reflexivity.
  - reflexivity.
  - reflexivity.
  - apply H. cbn. lia.
Defined.

(** X10: on a group with a limit, [ReserveN d n] with [0 < n <= size] that
    finds somebody queued, or no room for [n], adds [n] to the pending
    count, leaves the active count as it is and parks on the block channel
    and the cancellation channel, neither being ready; what it does once
    resumed is [afterPark].  [TryReserveN n] refuses in the same state and
    writes nothing. *)
Theorem X10_ReserveN_queues_and_parks (fuel : nat) (w : World) (d bc : chan) (n : Z) :
  0 < n <= size (grp w) -> size (grp w) <= maxUint32 ->
  blockChan (grp w) = Some bc ->
  ready w (Recv d) = false -> ready w (Recv bc) = false ->
  pending w <> 0 \/ size (grp w) < active w + n ->
  let w1 := setCounter (newCounterOf (counter (grp w)) n 0) w in
  ReserveN (S fuel) d n w =
  Blocked [Recv bc; Recv d] w1
    (fun i w' => afterPark fuel (size (grp w)) d n bc i w') /\
  active w1 = active w /\ pending w1 = uint32 (pending w + n) /\
  (pending w + n < 2^32 -> pending w1 = pending w + n) /\
  TryReserveN (S fuel) n w = Done false w.
Proof.
  intros Hn Hs Hb Hd Hbc Hfull. cbn zeta.
  pose proof (active_range w) as Har. pose proof (pending_range w) as Hpr.
  destruct (enqueued_counts n w) as [Ha Hp].
  split; [apply ReserveN_enqueues; assumption|].
  split; [exact Ha|]. split; [exact Hp|]. split.
  - intros Hfit. rewrite Hp. apply uint32_small. lia.
  - rewrite TryReserveN_limited by lia. apply tryReserve_refuse.
    rewrite int_small by (unfold maxUint32 in Hs; lia).
    destruct Hfull; [left; assumption|right; assumption].
Qed.

Lemma X10_witness :
  let w := mkWorld (mkGroup None (Some (Chan 0)) 2 2) [mkChanState false 0 0] in
  let w1 := mkWorld (mkGroup None (Some (Chan 0)) (2^32 + 2) 2) [mkChanState false 0 0] in
  ReserveN 2 nilChan 1 w =
  Blocked [Recv (Chan 0); Recv nilChan] w1
    (fun i w' => afterPark 1 2 nilChan 1 (Chan 0) i w') /\
  TryReserveN 2 1 w = Done false w.
Proof.
  cbn zeta.
  destruct (X10_ReserveN_queues_and_parks 1
              (mkWorld (mkGroup None (Some (Chan 0)) 2 2) [mkChanState false 0 0])
              nilChan (Chan 0) 1) as (H1 & _ & _ & _ & H2).
  - cbn. lia.
  - cbn. unfold maxUint32. lia.
  - reflexivity.
  - reflexivity.
  - reflexivity.
  - right. vm_compute. reflexivity.
  - split; [exact H1|exact H2].
Defined.

(** X11: a parked reservation that is resumed by its cancellation
    channel first takes its weight off the pending count, whatever happens
    next; when it was the only one queued it returns false at once with a
    pending count of 0 and the active count, the size and the block
    channel as they were; and however it is scheduled, it ends by
    returning false. *)
Theorem X11_cancelled_while_parked (fuel : nat) (sz : Z) (d bc : chan) (n : Z)
    (i : nat) (w : World) :
  0 < n <= maxUint32 -> waitOk w = true ->
  counter (grp (worldOf (afterPark fuel sz d n bc (S i) w))) =
  newCounterOf (counter (grp w)) (int (- n)) 0 /\
  (pending w = n ->
   exists w', afterPark fuel sz d n bc (S i) w = Done false w' /\
              pending w' = 0 /\ active w' = active w /\
              size (grp w') = size (grp w) /\
              blockChan (grp w') = blockChan (grp w)) /\
  (forall r, sendOk w bc = true ->
             finishes (calm bc) (afterPark fuel sz d n bc (S i) w) r ->
             exists w', r = Done false w').
Proof.
  intros Hn Hwo. split; [|split].
  - cbn [afterPark]. unfold bind. rewrite worldOf_bindO_ret.
    apply reserveNAbortWait_commits.
  - intros Hp. apply afterPark_cancel; assumption.
  - intros r Hso Hfin. cbn [afterPark] in Hfin. unfold bind in Hfin.
    apply finishes_bindO in Hfin.
    destruct Hfin as [(u & w' & HA & HK)|(msg & w' & HA & _)].
    + cbn [ret] in HK. inversion HK; subst. eauto.
    + destruct (reserveNAbortWait_finishes fuel bc n w _ (conj Hso Hwo) HA)
        as (w'' & E). discriminate.
Qed.

Lemma X11_witness :
  let w := mkWorld (mkGroup None (Some (Chan 0)) (2^32 + 2) 2) [mkChanState false 0 0] in
  exists w', afterPark 1 2 closedChan 1 (Chan 0) 1 w = Done false w' /\
             pending w' = 0 /\ active w' = 2.
Proof.
  cbn zeta.
  destruct (X11_cancelled_while_parked 1 2 closedChan (Chan 0) 1 0
              (mkWorld (mkGroup None (Some (Chan 0)) (2^32 + 2) 2)
                       [mkChanState false 0 0]))
    as (_ & H & _).
  - unfold maxUint32. lia.
  - reflexivity.
  - destruct H as (w' & E & Hp & Ha & _); [reflexivity|].
    exists w'. split; [exact E|]. split; [exact Hp|exact Ha].
Defined.

(** X12: a parked reservation of weight [n], with [0 < n <= size] and a
    size that fits 32 bits, that is resumed by the block channel.  If
    there is room ([active + n <= size]) and its cancellation channel is
    not ready, it returns true after one counter update, which takes [n]
    off the pending count and adds it to the active count; the counts are
    then [pending - n] and [active + n] when [n <= pending] and
    [active + n <= 2^31 - 1].  If its cancellation channel is ready, there
    is room, the wait slot is in order and it is the only one queued
    ([pending = n]), it gives up although there is room: it returns false
    with nobody queued and the active count as it was.  If there is no
    room, it is the only one queued and neither the block channel nor the
    cancellation channel is ready, it parks again on both, in an unchanged
    world. *)
Theorem X12_woken_while_parked (fuel : nat) (sz : Z) (d bc : chan) (n : Z)
    (w : World) :
  0 <= sz <= maxUint32 -> 0 < n <= sz ->
  (ready w (Recv d) = false -> active w + n <= sz ->
   let w' := setCounter (newCounterOf (counter (grp w)) (int (- n)) n) w in
   afterPark fuel sz d n bc 0 w = Done true w' /\
   (n <= pending w -> active w + n <= maxInt32 ->
    active w' = active w + n /\ pending w' = pending w - n)) /\
  (ready w (Recv d) = true -> active w + n <= sz ->
   waitOk w = true -> pending w = n ->
   exists w', afterPark fuel sz d n bc 0 w = Done false w' /\
              pending w' = 0 /\ active w' = active w) /\
  (sz < active w + n -> pending w = n ->
   ready w (Recv bc) = false -> ready w (Recv d) = false ->
   afterPark (S fuel) sz d n bc 0 w =
   Blocked [Recv bc; Recv d] w (fun i w' => afterPark fuel sz d n bc i w')).
Proof.
  intros Hs Hn. split; [|split].
  - intros Hd Hroom. cbn zeta. split; [apply afterPark_wake; assumption|].
    intros Hp Hfit. apply moved_counts; [lia|exact Hfit].
  - intros Hd Hroom Hwo Hp. apply afterPark_wake_cancelled; assumption.
  - intros Hfull Hp Hb Hd. apply afterPark_wake_full; assumption.
Qed.

Lemma X12_witness :
  let w := mkWorld (mkGroup None (Some (Chan 0)) (2^32 + 1) 2) [mkChanState false 0 0] in
  afterPark 1 2 nilChan 1 (Chan 0) 0 w =
  Done true (mkWorld (mkGroup None (Some (Chan 0)) 2 2) [mkChanState false 0 0]).
Proof.
  cbn zeta.
  destruct (X12_woken_while_parked 1 2 nilChan (Chan 0) 1
              (mkWorld (mkGroup None (Some (Chan 0)) (2^32 + 1) 2)
                       [mkChanState false 0 0]))
    as (H & _).
  - unfold maxUint32. lia.
  - lia.
  - destruct H as (H & _).
    + reflexivity.
    + vm_compute. discriminate.
    + exact H.
Defined.

Section Handover.

Lemma active_grp w w' : grp w' = grp w -> active w' = active w.
Proof. intros H. unfold active. rewrite H. reflexivity. Qed.

Lemma pending_grp w w' : grp w' = grp w -> pending w' = pending w.
Proof. intros H. unfold pending. rewrite H. reflexivity. Qed.

Lemma ready_chans w w' op : chans w' = chans w -> ready w' op = ready w op.
Proof. intros H. destruct op as [[| |id]|[| |id]|]; cbn [ready]; rewrite ?H; reflexivity. Qed.

End Handover.

(** X13: a free hands its room over to a parked reservation.  Take a
    group with a limit of at most 2^31 - 1 on which nobody is queued,
    whose block channel is open with no sender parked on it.
    [ReserveN d n], with [0 < n <= size], a cancellation channel that is
    not ready and no room ([size < active + n]), parks on the block
    channel and the cancellation channel with [pending = n].  A [FreeN m]
    with [0 < m <= active] that makes room ([active - m + n <= size]),
    run while the reserver is parked on the block channel, wakes it and
    returns; and the reservation, resumed by the block channel, returns
    true.  The active count is then the old one minus [m] plus [n], nobody
    is queued, and the channels, the size and the block channel are as
    they were. *)
Theorem X13_free_hands_over (fuel : nat) (w : World) (d : chan) (n m : Z)
    (b : nat) (s : chanState) :
  0 < n <= size (grp w) -> size (grp w) <= maxInt32 ->
  blockChan (grp w) = Some (Chan b) -> chans w !! b = Some s ->
  closed s = false -> sendq s = 0%nat ->
  ready w (Recv d) = false -> pending w = 0 -> size (grp w) < active w + n ->
  0 < m <= active w -> active w - m + n <= size (grp w) ->
  let w1 := setCounter (newCounterOf (counter (grp w)) n 0) w in
  exists w2 w3,
    ReserveN (S fuel) d n w =
    Blocked [Recv (Chan b); Recv d] w1
      (fun i w' => afterPark fuel (size (grp w)) d n (Chan b) i w') /\
    pending w1 = n /\
    FreeN (S fuel) m (parkReceiver b w1) = Done tt w2 /\
    afterPark fuel (size (grp w)) d n (Chan b) 0 w2 = Done true w3 /\
    active w3 = active w - m + n /\ pending w3 = 0 /\ chans w3 = chans w /\
    size (grp w3) = size (grp w) /\ blockChan (grp w3) = blockChan (grp w).
Proof.
  intros Hn Hs Hb Hl Hc Hsq Hd Hp Hfull Hm Hroom. cbn zeta.
  pose proof (active_range w) as Har. unfold maxInt32 in Hs.
  set (w1 := setCounter (newCounterOf (counter (grp w)) n 0) w).
  assert (Hbc : ready w (Recv (Chan b)) = false).
  { cbn [ready]. rewrite Hl, Hc, Hsq. reflexivity. }
  destruct (enqueued_counts n w) as [Ha1 Hp1]. fold w1 in Ha1, Hp1.
  rewrite Hp, Z.add_0_l, uint32_small in Hp1 by lia.
  set (wp := parkReceiver b w1).
  assert (Hgp : grp wp = grp w1) by apply parkReceiver_grp.
  set (s' := mkChanState (closed s) (sendq s) (S (recvq s))).
  assert (Hlp : chans wp !! b = Some s') by (apply parkReceiver_lookup; exact Hl).
  assert (Hap : active wp = active w) by (rewrite (active_grp w1 wp Hgp); exact Ha1).
  assert (Hpp : pending wp = n) by (rewrite (pending_grp w1 wp Hgp); exact Hp1).
  set (w2 := withChan b (mkChanState false (sendq s') (pred (recvq s')))
               (setCounter (newCounterOf (counter (grp wp)) 0 (int (- m))) wp)).
  assert (HF : FreeN (S fuel) m wp = Done tt w2).
  { apply FreeN_wakes; try assumption.
    - lia.
    - lia.
    - rewrite Hgp. exact Hb.
    - cbn [s' recvq]. lia. }
  assert (Hc2 : chans w2 = chans w).
  { unfold w2. cbn [withChan chans setCounter withGrp s' sendq recvq pred].
    unfold wp. apply (woken_chans b s w1 Hl Hc). }
  assert (Ha2 : active w2 = active w - m).
  { transitivity (active (setCounter (newCounterOf (counter (grp wp)) 0 (int (- m))) wp));
      [reflexivity|].
    rewrite active_update, int32_sub_int, Hap. apply int32_small. lia. }
  assert (Hp2 : pending w2 = n).
  { transitivity (pending (setCounter (newCounterOf (counter (grp wp)) 0 (int (- m))) wp));
      [reflexivity|].
    rewrite pending_after_FreeN; [exact Hpp|unfold minInt32; lia|lia]. }
  assert (Hd2 : ready w2 (Recv d) = false).
  { rewrite (ready_chans w w2 _ Hc2). exact Hd. }
  set (w3 := setCounter (newCounterOf (counter (grp w2)) (int (- n)) n) w2).
  assert (HW : afterPark fuel (size (grp w)) d n (Chan b) 0 w2 = Done true w3).
  { apply afterPark_wake; try assumption; unfold maxUint32; lia. }
  destruct (moved_counts n w2) as [Ha3 Hp3]; [lia|unfold maxInt32; lia|].
  fold w3 in Ha3, Hp3.
  exists w2, w3.
  split; [apply ReserveN_enqueues; try assumption; [unfold maxUint32; lia|right; lia]|].
  split; [exact Hp1|]. split; [exact HF|]. split; [exact HW|].
  split; [lia|]. split; [lia|]. split; [exact Hc2|].
  split.
  - transitivity (size (grp wp)); [reflexivity|]. rewrite Hgp. reflexivity.
  - transitivity (blockChan (grp wp)); [reflexivity|]. rewrite Hgp. reflexivity.
Qed.

Lemma X13_witness :
  let w := mkWorld (mkGroup None (Some (Chan 0)) 2 2) [mkChanState false 0 0] in
  exists w2 w3,
    FreeN 2 1 (parkReceiver 0 (setCounter (newCounterOf (counter (grp w)) 1 0) w)) =
    Done tt w2 /\
    afterPark 1 2 nilChan 1 (Chan 0) 0 w2 = Done true w3 /\
    active w3 = 2 /\ pending w3 = 0.
Proof.
  cbn zeta.
  destruct (X13_free_hands_over 1
              (mkWorld (mkGroup None (Some (Chan 0)) 2 2) [mkChanState false 0 0])
              nilChan 1 1 0%nat (mkChanState false 0 0))
    as (w2 & w3 & _ & _ & H1 & H2 & H3 & H4 & _).
  - cbn. lia.
  - cbn. unfold maxInt32. lia.
  - reflexivity.
  - reflexivity.
  - reflexivity.
  - reflexivity.
  - reflexivity.
  - reflexivity.
  - vm_compute. reflexivity.
  - vm_compute. split; [reflexivity|discriminate].
  - vm_compute. discriminate.
  - exists w2, w3. split; [exact H1|]. split; [exact H2|].
    split; [exact H3|exact H4].
Defined.

(** * Legal programs *)

Section Sequential.

Context (fuel : nat).

Lemma idle_lookup (cs : list chanState) id s :
  forallb idle cs = true -> cs !! id = Some s ->
  sendq s = 0%nat /\ recvq s = 0%nat.
Proof.
  intros Hall Hl. rewrite forallb_forall in Hall.
  apply list_elem_of_lookup_2, list_elem_of_In in Hl.
  specialize (Hall s Hl). unfold idle in Hall.
  apply andb_prop in Hall as [H1 H2]. apply Nat.eqb_eq in H1, H2. auto.
Qed.

Lemma idle_insert (cs : list chanState) id s :
  forallb idle cs = true -> idle s = true -> forallb idle (<[id := s]> cs) = true.
Proof.
  intros Hall Hs. rewrite forallb_forall in *. intros x Hx.
  apply list_elem_of_In, list_elem_of_lookup_1 in Hx as [i Hi].
  destruct (decide (i = id)) as [->|Hne].
  - destruct (decide (id < length cs)%nat) as [Hlt|Hge].
    + rewrite list_lookup_insert_eq in Hi by exact Hlt. injection Hi as <-. exact Hs.
    + rewrite list_insert_ge in Hi by lia.
      apply Hall, list_elem_of_In. eapply list_elem_of_lookup_2, Hi.
  - rewrite list_lookup_insert_ne in Hi by congruence.
    apply Hall, list_elem_of_In. eapply list_elem_of_lookup_2, Hi.
Qed.

Lemma idle_app (cs : list chanState) :
  forallb idle cs = true -> forallb idle (cs ++ [mkChanState false 0 0]) = true.
Proof. intros H. rewrite forallb_app, H. reflexivity. Qed.

(** When nobody is parked, a receive is ready only on a closed channel,
    and taking it changes nothing. *)
Lemma idle_perform_Recv d w :
  forallb idle (chans w) = true -> ready w (Recv d) = true ->
  perform (Recv d) w = Done tt w.
Proof.
  intros Hi Hr. destruct d as [| |id]; [discriminate|reflexivity|].
  cbn [ready perform] in *. destruct (chans w !! id) as [s|] eqn:El; [|discriminate].
  destruct (idle_lookup _ _ _ Hi El) as [Hs _]. rewrite Hs in Hr.
  rewrite orb_false_r in Hr. rewrite Hr. reflexivity.
Qed.

Lemma idle_open_not_ready id s w :
  forallb idle (chans w) = true -> chans w !! id = Some s -> closed s = false ->
  ready w (Recv (Chan id)) = false.
Proof.
  intros Hi El Hc. cbn [ready]. rewrite El, Hc.
  destruct (idle_lookup _ _ _ Hi El) as [-> _]. reflexivity.
Qed.

Lemma orderly_size bal w : orderly bal w -> 0 <= size (grp w) <= maxUint32.
Proof.
  intros (_ & _ & Hs & _). unfold maxUint32 in *.
  destruct (blockChan (grp w)) as [[| |id]|]; try contradiction; lia.
Qed.

Lemma orderly_commit bal n w :
  orderly bal w -> 0 < n -> bal + n <= maxInt32 ->
  orderly (bal + n) (setCounter (newCounterOf (counter (grp w)) 0 n) w).
Proof.
  intros (Hw & Hi & Hs & Hp & Ha & Hb) Hn Hfit. unfold maxInt32 in *.
  split; [exact Hw|]. split; [exact Hi|]. split; [exact Hs|].
  rewrite <- Ha in *.
  rewrite active_update_no_wrap, pending_update_no_wrap by lia.
  repeat split; try assumption; lia.
Qed.

Lemma orderly_free bal n w :
  orderly bal w -> 0 < n <= bal ->
  orderly (bal - n) (setCounter (newCounterOf (counter (grp w)) 0 (int (- n))) w).
Proof.
  intros (Hw & Hi & Hs & Hp & Ha & Hb) Hn. unfold maxInt32 in *.
  split; [exact Hw|]. split; [exact Hi|]. split; [exact Hs|].
  rewrite <- Ha in *.
  split; [rewrite pending_after_FreeN by (unfold minInt32; lia); exact Hp|].
  split; [|unfold maxInt32; lia].
  unfold active at 1. cbn [setCounter withGrp grp counter].
  rewrite active_after_FreeN. apply int32_small. lia.
Qed.

Lemma orderly_released bal id s w :
  orderly bal w -> chans w !! id = Some s ->
  orderly bal (released id s w).
Proof.
  intros (Hw & Hi & Hs & Hp & Ha & Hb) Hl.
  destruct (idle_lookup _ _ _ Hi Hl) as [Hsq _].
  split; [reflexivity|].
  split; [apply idle_insert; [exact Hi|]; unfold idle; cbn [sendq recvq];
          rewrite Hsq; reflexivity|].
  split; [exact Hs|]. split; [exact Hp|]. split; [exact Ha|exact Hb].
Qed.

Lemma isOpen_app w c s :
  isOpen w c = true -> isOpen (mkWorld (grp w) (chans w ++ [s])) c = true.
Proof.
  destruct c as [| |id]; try discriminate. cbn [isOpen chans].
  destruct (chans w !! id) as [s'|] eqn:El; [|discriminate].
  rewrite lookup_app_l by (eapply lookup_lt_Some; exact El). rewrite El. auto.
Qed.

Lemma orderly_installed bal w : orderly bal w -> orderly bal (installed w).
Proof.
  intros (Hw & Hi & Hs & Hp & Ha & Hb).
  destruct (installed_facts w) as (H1 & H2 & _ & _ & H5 & H6).
  split; [unfold waitOk; rewrite H1; exact H2|].
  split; [apply idle_app, Hi|]. split; [exact Hs|].
  rewrite H5, H6. split; [exact Hp|]. split; [exact Ha|exact Hb].
Qed.

(** A reservation that has to wait behind a block channel that is closed
    goes round its loop without ending. *)
Lemma reserveNSlowLoop_turns sz d n bc w :
  0 <= sz <= maxUint32 -> 0 < n <= sz ->
  sz < active w + n -> pending w = n ->
  forallb idle (chans w) = true -> ready w (Recv d) = false ->
  forall f, final (reserveNSlowLoop f sz d n bc w) = false.
Proof.
  intros Hs Hn Hfull Hp Hi Hd f. pose proof (active_range w) as Har.
  induction f as [|f IH]; [reflexivity|].
  destruct (ready w (Recv bc)) eqn:Hb.
  - cbn [reserveNSlowLoop]. unfold bind at 1, select. cbn [readyFrom].
    rewrite Hb, Hd. cbn [app]. rewrite (idle_perform_Recv bc w Hi Hb).
    cbn [bindO ret]. cbn [reserveNSuccessWait]. unfold bind at 1, bind at 1.
    cbn [counter_Load bindO]. rewrite counterParts_world.
    rewrite diffN_exact by assumption.
    destruct (Z.geb_spec (sz - active w - n) 0); [lia|].
    rewrite Hp, Z.eqb_refl. cbn [ret bindO negb]. exact IH.
  - rewrite reserveNSlowLoop_parks by assumption. reflexivity.
Qed.

(** On its own, a [ReserveN] that ends either found its cancellation
    channel closed, or was oversized without one, and changed nothing, or
    committed its weight to the active count. *)
Lemma ReserveN_sequential bal d n w :
  orderly bal w -> 0 < n ->
  final (ReserveN (S fuel) d n w) = true ->
  (ReserveN (S fuel) d n w = Done false w /\
   (ready w (Recv d) = true \/ d = nilChan /\ 0 < size (grp w) < n)) \/
  ReserveN (S fuel) d n w =
  Done true (setCounter (newCounterOf (counter (grp w)) 0 n) w).
Proof.
  intros Ho Hn Hfin. pose proof (orderly_size bal w Ho) as Hsz.
  destruct Ho as (Hw & Hi & Hs & Hp & Ha & Hb).
  destruct (ready w (Recv d)) eqn:Hr.
  - left. destruct (ReserveN_done_ready (S fuel) d n w Hn Hr) as (w' & E1 & E2).
    rewrite (idle_perform_Recv d w Hi Hr) in E1. injection E1 as <-.
    split; [exact E2|left; reflexivity].
  - destruct (blockChan (grp w)) as [[| |id]|] eqn:Ebc; try contradiction.
    + destruct (Z.lt_ge_cases (size (grp w)) n) as [Hlt|Hge].
      * destruct (decide (d = nilChan)) as [->|Hd].
        -- left. split; [apply ReserveN_oversized_nil; lia|].
           right. split; [reflexivity|lia].
        -- destruct (ReserveN_oversized_parks (S fuel) d n w) as (k & E & _);
             try assumption; try lia.
           rewrite E in Hfin. discriminate.
      * pose proof (active_range w) as Har.
        assert (Hint : int (active w + n) = active w + n)
          by (apply int_small; unfold maxUint32 in Hsz; lia).
        destruct (Z.le_gt_cases (active w + n) (size (grp w))) as [Hle|Hgt].
        -- right. apply ReserveN_commit; try assumption; try lia.
        -- exfalso. revert Hfin.
           rewrite ReserveN_limited by (try assumption; lia).
           unfold bind at 1.
           rewrite tryReserve_enqueue by (rewrite Hint; right; lia).
           cbn [bindO]. unfold reserveNSlow, bind at 1.
           cbn [blockChan_Load bindO setCounter withGrp grp blockChan].
           rewrite Ebc.
           destruct (enqueued_counts n w) as [Ha1 Hp1].
           rewrite Hp, Z.add_0_l, uint32_small in Hp1
             by (unfold maxUint32 in Hsz; lia).
           rewrite (reserveNSlowLoop_turns (size (grp w)) d n (Chan id)
                      (setCounter (newCounterOf (counter (grp w)) n 0) w)
                      Hsz ltac:(lia) ltac:(rewrite Ha1; lia) Hp1 Hi Hr).
           discriminate.
    + right. apply ReserveN_unlimited; assumption.
Qed.

(** On its own, a [FreeN] within the balance returns with its weight taken
    off the active count, having closed the channel that waited in the
    wait slot if it took the count to zero. *)
Lemma FreeN_sequential bal n w :
  orderly bal w -> 0 < n <= bal ->
  exists w', FreeN (S fuel) n w = Done tt w' /\ orderly (bal - n) w'.
Proof.
  intros Ho Hn. pose proof (orderly_free bal n w Ho Hn) as Ho1.
  destruct Ho as (Hw & Hi & Hs & Hp & Ha & Hb). unfold maxInt32 in Hb.
  set (w1 := setCounter (newCounterOf (counter (grp w)) 0 (int (- n))) w) in *.
  destruct (Z.eq_dec n (active w)) as [Hlast|Hmore].
  - unfold waitOk in Hw.
    destruct (waitChan (grp w)) as [[| |id]|] eqn:Ew.
    + exists w1. split; [|exact Ho1].
      rewrite FreeN_unfold by lia. rewrite int32_small by (unfold minInt32; lia).
      rewrite afterDecrement_idle.
      * destruct (Z.ltb_spec (active w - n) 0); [lia|reflexivity].
      * rewrite pending_after_FreeN; [exact Hp|unfold minInt32; lia|lia].
      * right. right. exact Ew.
    + discriminate.
    + cbn [isOpen] in Hw. destruct (chans w !! id) as [s|] eqn:El; [|discriminate].
      apply negb_true_iff in Hw.
      exists (released id s w1). split.
      * rewrite (FreeN_last fuel w n id s) by (try assumption; unfold minInt32; lia).
        cbn zeta. fold w1. destruct (Z.ltb_spec (active w - n) 0); [lia|reflexivity].
      * apply orderly_released; [exact Ho1|exact El].
    + exists w1. split; [|exact Ho1].
      rewrite FreeN_unfold by lia. rewrite int32_small by (unfold minInt32; lia).
      rewrite afterDecrement_idle.
      * destruct (Z.ltb_spec (active w - n) 0); [lia|reflexivity].
      * rewrite pending_after_FreeN; [exact Hp|unfold minInt32; lia|lia].
      * right. left. exact Ew.
  - exists w1. split; [|exact Ho1]. apply FreeN_not_last; [lia|exact Hp].
Qed.

(** On its own, [WaitChan] returns, having installed a channel in the wait
    slot at most. *)
Lemma initWaitChan_sequential bal w :
  orderly bal w ->
  exists c w', initWaitChan w = Done c w' /\ orderly bal w' /\
               (0 < bal -> ready w' (Recv c) = false).
Proof.
  intros Ho. pose proof Ho as (Hw & Hi & Hs & Hp & Ha & Hb).
  destruct (Z.eq_dec bal 0) as [Hz|Hnz].
  - exists closedChan, w. split; [apply initWaitChan_zero; [exact Hp|lia]|].
    split; [exact Ho|lia].
  - assert (Hpos : 0 < pending w \/ 0 < active w) by (right; lia).
    unfold waitOk in Hw.
    destruct (waitChan (grp w)) as [c|] eqn:Ew.
    + destruct (decide (c = nilChan)) as [->|Hc].
      * eexists _, _. split; [apply initWaitChan_install; auto|].
        split; [apply orderly_installed, Ho|]. intros _.
        apply (installed_facts w).
      * exists c, w. split; [apply (initWaitChan_live w c); auto|].
        split; [exact Ho|]. intros _.
        destruct c as [| |id]; [contradiction|discriminate|].
        cbn [isOpen] in Hw. destruct (chans w !! id) as [s|] eqn:El; [|discriminate].
        apply negb_true_iff in Hw. eapply idle_open_not_ready; eauto.
    + eexists _, _. split; [apply initWaitChan_install; auto|].
      split; [apply orderly_installed, Ho|]. intros _.
      apply (installed_facts w).
Qed.

(** On its own, [SetSize] gives the group its size and its block channel
    or faults, and writes no count. *)
Lemma SetSize_sequential bal n w :
  orderly bal w ->
  final (SetSize n w) = true /\ orderly bal (worldOf (SetSize n w)).
Proof.
  intros Ho. pose proof Ho as (Hw & Hi & Hs & Hp & Ha & Hb).
  unfold SetSize, bind. cbn [counter_Load bindO].
  destruct (negb (counter (grp w) =? 0)) eqn:Ec; [split; [reflexivity|exact Ho]|].
  cbn [blockChan_Load bindO].
  destruct (blockChan (grp w)) as [bc|] eqn:Eb; [split; [reflexivity|exact Ho]|].
  destruct (Z.le_gt_cases n 0) as [Hn|Hn].
  { rewrite setSize_nonpositive by exact Hn. cbn [bindO counter_Load].
    rewrite Ec. split; [reflexivity|exact Ho]. }
  destruct (Z.le_gt_cases n maxUint32) as [Hfit|Hbig].
  - rewrite setSize_fits by lia. cbn [bindO counter_Load grp counter].
    rewrite Ec. split; [reflexivity|]. cbn [worldOf ret].
    split.
    { unfold waitOk in *. cbn [grp waitChan].
      destruct (waitChan (grp w)) as [[| |id]|]; try reflexivity; try discriminate.
      apply (isOpen_app w (Chan id)), Hw. }
    split; [apply idle_app, Hi|].
    split; [cbn [grp blockChan size]; lia|].
    split; [exact Hp|]. split; [exact Ha|exact Hb].
  - rewrite setSize_too_big by exact Hbig. split; [reflexivity|exact Ho].
Qed.

(** One legal call keeps the group in order, and a legal free returns. *)
Lemma exec_lawful c w bal r w' bal' :
  orderly bal w ->
  exec (S fuel) c w = (r, w') ->
  lawfulStep bal c r = Some bal' ->
  (isFree c = true -> r = Returned VUnit) /\
  match r with
  | Returned _ | Panicked _ => orderly bal' w'
  | _ => True
  end.
Proof.
  intros Hbal Hex Hleg.
  pose proof (orderly_size bal w Hbal) as Hsz.
  pose proof Hbal as (Hw & Hi & Hs & Hp & Ha & Hb).
  destruct c as [|d n|n| |n| | |n| | |]; cbn [exec] in Hex;
    cbn [lawfulStep] in Hleg.
  - (* Reserve *)
    unfold Reserve, bind in Hex.
    destruct (ReserveN (S fuel) nilChan 1 w) as [b w2|msg w2|on w2 k|w2] eqn:E;
      cbn [bindO ret observe] in Hex; injection Hex as <- <-;
      (split; [discriminate|]); try exact I.
    + cbn [legalStep] in Hleg.
      destruct (Z.leb_spec (bal + 1) maxInt32); [|discriminate].
      injection Hleg as <-.
      destruct (ReserveN_sequential bal nilChan 1 w Hbal) as [[_ [?|[_ ?]]]|E'];
        [lia|rewrite E; reflexivity|discriminate|lia|].
      rewrite E in E'. injection E' as -> ->.
      apply orderly_commit; [assumption|lia|assumption].
    + destruct (ReserveN_sequential bal nilChan 1 w Hbal) as [[E' _]|E'];
        [lia|rewrite E; reflexivity| |]; rewrite E in E'; discriminate.
  - (* ReserveN *)
    destruct (Z.le_gt_cases n 0) as [Hn|Hn].
    + rewrite ReserveN_nonpositive in Hex by exact Hn.
      cbn [observe] in Hex. injection Hex as <- <-.
      cbn [legalStep] in Hleg. injection Hleg as <-.
      split; [discriminate|exact Hbal].
    + destruct (ReserveN (S fuel) d n w) as [b w2|msg w2|on w2 k|w2] eqn:E;
        cbn [observe] in Hex; injection Hex as <- <-;
        (split; [discriminate|]); try exact I.
      * destruct (ReserveN_sequential bal d n w Hbal) as [[E' _]|E'];
          [lia|rewrite E; reflexivity| |]; rewrite E in E';
          injection E' as -> ->; cbn [legalStep] in Hleg.
        -- injection Hleg as <-. exact Hbal.
        -- destruct (Z.leb_spec (bal + n) maxInt32); [|discriminate].
           injection Hleg as <-. apply orderly_commit; [assumption|lia|assumption].
      * destruct (ReserveN_sequential bal d n w Hbal) as [[E' _]|E'];
          [lia|rewrite E; reflexivity| |]; rewrite E in E'; discriminate.
  - (* TryReserveN *)
    destruct (Z.le_gt_cases n 0) as [Hn|Hn].
    + rewrite TryReserveN_nonpositive in Hex by exact Hn.
      cbn [observe] in Hex. injection Hex as <- <-.
      cbn [legalStep] in Hleg. injection Hleg as <-.
      split; [discriminate|exact Hbal].
    + split; [discriminate|].
      destruct (TryReserveN_alone fuel n w) as [E|E]; try lia;
        rewrite E in Hex; cbn [observe] in Hex; injection Hex as <- <-;
        cbn [legalStep] in Hleg.
      * injection Hleg as <-. exact Hbal.
      * destruct (Z.leb_spec (bal + n) maxInt32); [|discriminate].
        injection Hleg as <-. apply orderly_commit; [assumption|lia|assumption].
  - (* Free *)
    cbn [legalStep] in Hleg.
    assert (Hl : exists b, (if 1 <=? bal then Some (bal - 1) else None) = Some b /\ b = bal')
      by (destruct r as [[]| | |]; eauto).
    clear Hleg. destruct Hl as (b & Hl & <-).
    destruct (Z.leb_spec 1 bal); [|discriminate]. injection Hl as <-.
    unfold Free in Hex.
    destruct (FreeN_sequential bal 1 w Hbal) as (w1 & E & Ho1); [lia|].
    rewrite E in Hex. cbn [observe] in Hex. injection Hex as <- <-.
    split; [reflexivity|exact Ho1].
  - (* FreeN *)
    cbn [legalStep] in Hleg.
    assert (Hl : exists b,
               (if (0 <? n) && (n <=? bal) then Some (bal - n) else None) = Some b /\
               b = bal')
      by (destruct r as [[]| | |]; eauto).
    clear Hleg. destruct Hl as (b & Hl & <-).
    destruct (Z.ltb_spec 0 n), (Z.leb_spec n bal); try discriminate.
    injection Hl as <-.
    destruct (FreeN_sequential bal n w Hbal) as (w1 & E & Ho1); [lia|].
    rewrite E in Hex. cbn [observe] in Hex. injection Hex as <- <-.
    split; [reflexivity|exact Ho1].
  - (* Wait *)
    injection Hleg as <-. split; [discriminate|].
    destruct (initWaitChan_sequential bal w Hbal) as (c & w1 & E & Ho1 & Hr).
    unfold Wait in Hex. rewrite (bind_Done _ _ _ _ _ E) in Hex.
    destruct (Z.eq_dec bal 0) as [Hz|Hnz].
    + rewrite initWaitChan_zero in E by (try assumption; lia).
      injection E as <- <-. cbn in Hex. injection Hex as <- <-. exact Ho1.
    + rewrite recv_parks in Hex by (apply Hr; lia).
      cbn [observe] in Hex. injection Hex as <- <-. exact I.
  - (* WaitChan *)
    injection Hleg as <-. split; [discriminate|].
    destruct (initWaitChan_sequential bal w Hbal) as (c & w1 & E & Ho1 & _).
    unfold WaitChan in Hex. rewrite E in Hex.
    cbn [observe] in Hex. injection Hex as <- <-. exact Ho1.
  - (* SetSize *)
    injection Hleg as <-. split; [discriminate|].
    destruct (SetSize_sequential bal n w Hbal) as [Hf Ho1].
    destruct (SetSize n w) as [u w1|msg w1|on w1 k|w1]; try discriminate;
      cbn [observe worldOf] in *; injection Hex as <- <-; exact Ho1.
  - injection Hex as <- <-. injection Hleg as <-.
    split; [discriminate|exact Hbal].
  - injection Hex as <- <-. injection Hleg as <-.
    split; [discriminate|exact Hbal].
  - injection Hex as <- <-. injection Hleg as <-.
    split; [discriminate|exact Hbal].
Qed.

(** In a legal run from a group in order every free returns, and after
    every call that ends nobody is queued and the active count is within
    0 and 2^31 - 1. *)
Lemma run_lawful p :
  forall bal w,
    orderly bal w -> lawful bal (run (S fuel) p w) = true ->
    forall c r w', In (c, r, w') (run (S fuel) p w) ->
      (isFree c = true -> r = Returned VUnit) /\
      match r with
      | Returned _ | Panicked _ => pending w' = 0 /\ 0 <= active w' <= maxInt32
      | _ => True
      end.
Proof.
  induction p as [|c0 p IH]; intros bal w Hbal Hleg c r w' Hin.
  - destruct Hin.
  - cbn [run] in Hleg, Hin.
    destruct (exec (S fuel) c0 w) as [r0 w1] eqn:Hex.
    cbn [lawful] in Hleg.
    destruct (lawfulStep bal c0 r0) as [bal'|] eqn:Hstep; [|discriminate].
    destruct (exec_lawful c0 w bal r0 w1 bal' Hbal Hex Hstep) as [Hf Hnext].
    destruct Hin as [Heq|Hin].
    + injection Heq as <- <- <-. split; [exact Hf|].
      destruct r0 as [v|msg|on|]; try exact I;
        destruct Hnext as (_ & _ & _ & Hp & Ha & Hb); rewrite Ha; auto.
    + destruct r0 as [v|msg|on|]; try destruct Hin; eapply IH; eauto.
Qed.

End Sequential.

Lemma fresh_orderly w : fresh w = true -> orderly 0 w.
Proof.
  intros H. pose proof (fresh_balanced w H) as (Hs & Hp & Ha & Hb).
  destruct (settled_parts w Hs) as (Hw & Hq & Hshape).
  split; [unfold waitOk; rewrite Hw; reflexivity|].
  split.
  { rewrite forallb_forall in *. intros s Hin. specialize (Hq s Hin).
    unfold quiet in Hq. unfold idle.
    apply andb_prop in Hq as [Hq H3]. apply andb_prop in Hq as [_ H2].
    rewrite H2, H3. reflexivity. }
  split.
  { destruct Hshape as [[-> Hz]|[[id ->] Hz]]; assumption. }
  split; [exact Hp|]. split; [exact Ha|exact Hb].
Qed.

(** The counterexample to C5 as stated.  On a zero [Group],
    [FreeN(2^31 + 1)] takes the active count from 0 to what would be a
    negative number and does not fault: it returns, with an active count
    of 2^31 - 1.  And the program that reserves 2^31 - 1 twice and then
    frees 1 never frees more than it reserved, yet its free faults. *)
Lemma C5_counterexample :
  let w := mkWorld zeroGroup [] in
  (exists w', FreeN 1 (2^31 + 1) w = Done tt w' /\
              active w - (2^31 + 1) < 0 /\ active w' = 2^31 - 1) /\
  results (run 1 wrappedScenario w) =
  [ Returned (VBool true); Returned (VBool true);
    Panicked "sema.Group: negative group counter" ].
Proof.
  cbn zeta. split.
  - exists (mkWorld (mkGroup None None (2^64 - 2^31 - 1) 0) []).
    repeat split; vm_compute; reflexivity.
  - vm_compute. reflexivity.
Qed.

(** C5, amended.  However [FreeN n] with [n > 0] is scheduled, on a group
    whose channels are in order, it ends by a fault exactly when the
    active count it leaves, the old one minus [n] reduced to 32 signed
    bits, is negative, and that fault is the panic
    "sema.Group: negative group counter"; the reduction changes nothing
    when the difference is not below - 2^31.  It ends without parking when
    the group has no block channel, when nobody is queued and the
    difference is not below - 2^31, or when a receiver is parked on the
    block channel.  The program [Reserve(); Free(); Free()] on a zero
    [Group] faults so on its second [Free].  A [FreeN n] with
    [0 < n <= active] never faults, however it is scheduled; and in a
    program of any calls of the methods run by one goroutine on a fresh
    group, where the weights freed are positive and never exceed the
    balance of committed reservations and that balance stays within
    2^31 - 1, every free returns, and after every call that ends nobody is
    queued and the active count is within 0 and 2^31 - 1. *)
Theorem C5_FreeN_misuse (fuel : nat) :
  (forall (w : World) (n : Z) (r : outcome unit),
     0 < n -> blockOk w = true -> waitOk w = true ->
     finishes (wakeOk w) (FreeN (S fuel) n w) r ->
     (int32 (active w - n) < 0 ->
      exists w', r = Fault "sema.Group: negative group counter" w') /\
     (0 <= int32 (active w - n) -> exists w', r = Done tt w') /\
     (minInt32 <= active w - n -> int32 (active w - n) = active w - n)) /\
  (forall (w : World) (n : Z),
     0 < n -> blockOk w = true -> waitOk w = true ->
     blockChan (grp w) = None \/
     (pending w = 0 /\ minInt32 <= active w - n) \/
     (exists bc, blockChan (grp w) = Some bc /\ hasReceiver w bc = true) ->
     final (FreeN (S fuel) n w) = true) /\
  results (run (S fuel) misuseScenario (mkWorld zeroGroup [])) =
  [ Returned VUnit; Returned VUnit;
    Panicked "sema.Group: negative group counter" ] /\
  (forall (w : World) (n : Z) (r : outcome unit),
     0 < n <= active w -> blockOk w = true -> waitOk w = true ->
     finishes (wakeOk w) (FreeN (S fuel) n w) r ->
     exists w', r = Done tt w') /\
  (forall (p : list call) (w : World),
     fresh w = true -> lawful 0 (run (S fuel) p w) = true ->
     forall c r w', In (c, r, w') (run (S fuel) p w) ->
       (isFree c = true -> r = Returned VUnit) /\
       match r with
       | Returned _ | Panicked _ => pending w' = 0 /\ 0 <= active w' <= maxInt32
       | _ => True
       end).
Proof.
  split; [|split; [|split; [|split]]].
  - intros w n r Hn Hbo Hwo Hfin.
    destruct (FreeN_finishes fuel n w r Hn Hbo Hwo Hfin) as (w' & E).
    split; [|split].
    + intros Hneg. exists w'. rewrite E.
      destruct (Z.ltb_spec (int32 (active w - n)) 0); [reflexivity|lia].
    + intros Hpos. exists w'. rewrite E.
      destruct (Z.ltb_spec (int32 (active w - n)) 0); [lia|reflexivity].
    + intros Hlo. pose proof (active_range w). unfold minInt32 in Hlo.
      apply int32_small. lia.
  - intros w n Hn Hbo Hwo Hq. rewrite FreeN_unfold by exact Hn.
    assert (Hquiet : blockChan (grp w) = None \/
                     (pending w = 0 /\ minInt32 <= active w - n) ->
                     final (afterDecrement (S fuel) (blockChan (grp w))
                              (int32 (active w - n))
                              (setCounter
                                 (newCounterOf (counter (grp w)) 0 (int (- n))) w))
                     = true).
    { intros Hq'.
      destruct (afterDecrement_quiet (S fuel) (blockChan (grp w))
                  (int32 (active w - n))
                  (setCounter (newCounterOf (counter (grp w)) 0 (int (- n))) w))
        as (w' & _ & E).
      - exact Hwo.
      - destruct Hq' as [Hq'|[Hp Hlo]]; [left; exact Hq'|right].
        rewrite pending_after_FreeN by assumption. exact Hp.
      - rewrite E. destruct (int32 (active w - n) <? 0); reflexivity. }
    destruct Hq as [Hq|[Hq|(bc & Hb & Hrecv)]]; [auto|auto|].
    rewrite Hb. apply afterDecrement_receiver; [exact Hwo|exact Hrecv|].
    unfold blockOk in Hbo. rewrite Hb in Hbo. exact Hbo.
  - vm_compute. reflexivity.
  - intros w n r Hn Hbo Hwo Hfin. pose proof (active_range w) as Ha.
    destruct (FreeN_finishes fuel n w r ltac:(lia) Hbo Hwo Hfin) as (w' & E).
    exists w'. rewrite E, int32_small by lia.
    destruct (Z.ltb_spec (active w - n) 0); [lia|reflexivity].
  - intros p w Hfresh. apply run_lawful, fresh_orderly, Hfresh.
Qed.

Lemma C5_witness :
  exists w', FreeN 1 3 (mkWorld (mkGroup None None 2 0) []) =
             Fault "sema.Group: negative group counter" w'.
Proof.
  destruct (C5_FreeN_misuse 0) as [H _].
  destruct (H (mkWorld (mkGroup None None 2 0) []) 3
              (FreeN 1 3 (mkWorld (mkGroup None None 2 0) []))) as [H1 _].
  - lia.
  - reflexivity.
  - reflexivity.
  - vm_compute. constructor.
  - apply H1. vm_compute. reflexivity.
Defined.

(** * Invariants under scheduling *)

Section Upholds.

Context {A : Type} (inv : World -> Prop).

Lemma upholds_mono (err err' : string -> Prop) (o : outcome A) :
  (forall msg, err msg -> err' msg) ->
  upholds inv err o -> upholds inv err' o.
Proof.
  intros He H. induction H as [a w Hi|msg w Hi Hm|on w k Hi Hk IH|w Hi].
  - apply upholds_Done; auto.
  - apply upholds_Fault; auto.
  - apply upholds_Blocked; auto.
  - apply upholds_Spin; auto.
Qed.

Lemma upholds_bindO {B : Type} (err : string -> Prop)
    (o : outcome A) (f : A -> M B) :
  upholds inv err o ->
  (forall a w, inv w -> upholds inv err (f a w)) ->
  upholds inv err (bindO o f).
Proof.
  intros H Hf. induction H as [a w Hi|msg w Hi Hm|on w k Hi Hk IH|w Hi];
    cbn [bindO].
  - apply Hf; assumption.
  - apply upholds_Fault; assumption.
  - apply upholds_Blocked; [assumption|]. intros i w' Hw'. apply IH, Hw'.
  - apply upholds_Spin; assumption.
Qed.

End Upholds.

Section Wired.

Lemma isOpen_lookup w id :
  isOpen w (Chan id) = true ->
  exists s, chans w !! id = Some s /\ closed s = false.
Proof.
  cbn [isOpen]. destruct (chans w !! id) as [s|]; [|discriminate].
  intros H. exists s. split; [reflexivity|]. apply negb_true_iff, H.
Qed.

Lemma isOpen_Chan w c : isOpen w c = true -> exists id, c = Chan id.
Proof. destruct c; try discriminate. eauto. Qed.

Lemma wired_sameClosed w w' : sameClosed w w' -> wired w = true -> wired w' = true.
Proof.
  intros Hs. unfold wired. destruct Hs as [Hg Hc]. rewrite Hg.
  assert (Ho : forall c, isOpen w' c = isOpen w c)
    by (intros c; apply sameClosed_isOpen; split; assumption).
  destruct (blockChan (grp w)) as [bc|]; rewrite ?Ho;
    destruct (waitChan (grp w)) as [[| |id]|]; rewrite ?Ho; auto.
Qed.

Lemma wired_block w bc :
  wired w = true -> blockChan (grp w) = Some bc -> isOpen w bc = true.
Proof.
  unfold wired. intros H Hb. rewrite Hb in H.
  apply andb_prop in H as [H _]. exact H.
Qed.

Lemma wired_unset w :
  wired w = true -> blockChan (grp w) = None -> size (grp w) = 0.
Proof.
  unfold wired. intros H Hb. rewrite Hb in H.
  apply andb_prop in H as [H _]. apply Z.eqb_eq, H.
Qed.

Lemma wired_waitOk w : wired w = true -> waitOk w = true.
Proof.
  unfold wired, waitOk. intros H. apply andb_prop in H as [_ H].
  destruct (waitChan (grp w)) as [[| |id]|]; try reflexivity.
  - apply andb_prop in H as [H _]. exact H.
  - apply andb_prop in H as [H _]. exact H.
Qed.

Lemma wired_blockOk w : wired w = true -> blockOk w = true.
Proof.
  unfold wired, blockOk. intros H. apply andb_prop in H as [H _].
  destruct (blockChan (grp w)) as [[| |id]|]; try reflexivity; try discriminate.
  cbn [isOpen sendOk] in *. destruct (chans w !! id); [exact H|discriminate].
Qed.

Lemma wired_setCounter c w : wired (setCounter c w) = wired w.
Proof. reflexivity. Qed.

Lemma wired_released id s w :
  wired w = true -> waitChan (grp w) = Some (Chan id) ->
  wired (released id s w) = true.
Proof.
  unfold wired, released. cbn [grp chans blockChan waitChan size].
  intros H Hw. rewrite Hw in H. apply andb_prop in H as [Hb Hwt].
  apply andb_prop in Hwt as [_ Hne]. rewrite andb_true_r.
  destruct (blockChan (grp w)) as [bc|]; [|exact Hb].
  destruct bc as [| |b]; try discriminate.
  cbn [isOpen chans] in *.
  assert (b <> id).
  { intros ->. apply negb_true_iff in Hne.
    rewrite bool_decide_eq_false in Hne. contradiction. }
  rewrite list_lookup_insert_ne by congruence. exact Hb.
Qed.

Lemma wired_installed w : wired w = true -> wired (installed w) = true.
Proof.
  unfold wired, installed. cbn [grp chans blockChan waitChan size].
  intros H. apply andb_prop in H as [Hb _].
  assert (Ho : isOpen (mkWorld (grp w) (chans w ++ [mkChanState false 0 0]))
                 (Chan (length (chans w))) = true).
  { cbn [isOpen chans]. rewrite lookup_fresh. reflexivity. }
  destruct (blockChan (grp w)) as [bc|].
  - destruct bc as [| |b]; try discriminate.
    cbn [isOpen chans] in *.
    destruct (chans w !! b) as [s|] eqn:El; [|discriminate].
    rewrite lookup_app_l by (eapply lookup_lt_Some; exact El).
    rewrite El, Hb. rewrite lookup_fresh. cbn [closed negb andb].
    apply negb_true_iff, bool_decide_eq_false. intros E. injection E as ->.
    apply lookup_lt_Some in El. lia.
  - rewrite Hb. cbn [isOpen chans]. rewrite lookup_fresh. reflexivity.
Qed.

End Wired.

Section Communication.

Lemma readyFrom_In w cases : forall j i op,
  In (i, op) (readyFrom w j cases) -> In op cases.
Proof.
  induction cases as [|c cases IH]; intros j i op Hin; [destruct Hin|].
  cbn [readyFrom] in Hin. apply in_app_or in Hin as [Hin|Hin].
  - destruct (ready w c); [|destruct Hin].
    destruct Hin as [E|[]]. injection E as _ ->. left. reflexivity.
  - right. eapply IH, Hin.
Qed.

(** A communication on channels that are not closed for sending goes
    through and closes nothing. *)
Lemma perform_sameClosed op w :
  (forall c, op = Send c -> isOpen w c = true) ->
  exists w', perform op w = Done tt w' /\ sameClosed w w'.
Proof.
  intros Hop. destruct op as [[| |id]|[| |id]|]; cbn [perform];
    try (exists w; split; [reflexivity|apply sameClosed_refl]).
  - destruct (chans w !! id) as [s|] eqn:El;
      [|exists w; split; [reflexivity|apply sameClosed_refl]].
    destruct (closed s) eqn:Ec;
      [exists w; split; [reflexivity|apply sameClosed_refl]|].
    eexists. split; [reflexivity|].
    apply sameClosed_withChan with (s := s); [exact El|symmetry; exact Ec].
  - specialize (Hop closedChan eq_refl). discriminate.
  - specialize (Hop (Chan id) eq_refl).
    destruct (isOpen_lookup w id Hop) as (s & El & Ec). rewrite El, Ec.
    eexists. split; [reflexivity|].
    apply sameClosed_withChan with (s := s); [exact El|symmetry; exact Ec].
Qed.

(** A [select] whose sends are on open channels either goes through,
    closing nothing, or parks. *)
Lemma select_cases cases dflt w :
  (forall c, In (Send c) cases -> isOpen w c = true) ->
  (exists i w', select cases dflt w = Done i w' /\ sameClosed w w') \/
  (dflt = false \/ (1 < length cases)%nat) /\
  select cases dflt w = Blocked cases w (fun i w' => Done i w').
Proof.
  intros Hs. unfold select.
  destruct (readyFrom w 0 cases) as [|[i op] [|p rest]] eqn:E.
  - destruct dflt; [left; exists (length cases), w; split;
                      [reflexivity|apply sameClosed_refl]|].
    right. split; [left; reflexivity|reflexivity].
  - left. assert (Hin : In op cases).
    { apply (readyFrom_In w cases 0%nat i). rewrite E. left. reflexivity. }
    destruct (perform_sameClosed op w) as (w' & Ep & Hc).
    { intros c ->. apply Hs, Hin. }
    rewrite Ep. exists i, w'. split; [reflexivity|exact Hc].
  - right. split; [|reflexivity]. right.
    destruct cases as [|c1 [|c2 cases]]; cbn [length]; try lia.
    + discriminate.
    + cbn [readyFrom app] in E. destruct (ready w c1); discriminate.
Qed.

(** A [select] with a default branch over one case does not park. *)
Lemma select_default op w :
  (forall c, op = Send c -> isOpen w c = true) ->
  exists i w', select [op] true w = Done i w' /\ sameClosed w w'.
Proof.
  intros Hs. destruct (select_cases [op] true w) as [H|[[H|H] _]].
  - intros c [->|[]]. apply Hs. reflexivity.
  - exact H.
  - discriminate.
  - cbn [length] in H. lia.
Qed.

Lemma notifyWait_cases p a w :
  wired w = true ->
  notifyWait p a w = Done tt w \/
  exists id s, waitChan (grp w) = Some (Chan id) /\
               notifyWait p a w = Done tt (released id s w).
Proof.
  intros Hw.
  assert (E : notifyWait p a w =
              if (p >? 0) || (a >? 0) then Done tt w
              else match waitChan (grp w) with
                   | None => Done tt w
                   | Some c =>
                       if decide (c = nilChan) then Done tt w
                       else close_chan c
                              (mkWorld (mkGroup (Some nilChan) (blockChan (grp w))
                                                (counter (grp w)) (size (grp w)))
                                       (chans w))
                   end).
  { unfold notifyWait. destruct ((p >? 0) || (a >? 0)); [reflexivity|].
    unfold bind at 1. cbn [waitChan_Load bindO].
    destruct (waitChan (grp w)) as [c|] eqn:Ew; [|reflexivity].
    destruct (decide (c = nilChan)); [reflexivity|].
    unfold bind, waitChan_CompareAndSwap. rewrite Ew.
    destruct (decide (Some c = Some c)); [|contradiction]. reflexivity. }
  rewrite E. clear E.
  destruct ((p >? 0) || (a >? 0)); [left; reflexivity|].
  pose proof (wired_waitOk w Hw) as Hok. unfold waitOk in Hok.
  destruct (waitChan (grp w)) as [c|]; [|left; reflexivity].
  destruct (decide (c = nilChan)); [left; reflexivity|].
  destruct c as [| |id]; [contradiction|discriminate|].
  destruct (isOpen_lookup w id Hok) as (s & El & Ec).
  right. exists id, s. split; [reflexivity|].
  cbn [close_chan chans]. rewrite El, Ec. reflexivity.
Qed.

End Communication.

Section Stable.

Context (w0 : World) (bound : bool).

Hypothesis size_fits : 0 <= size (grp w0) <= maxUint32.

Let inv : World -> Prop := stable w0 bound.

Lemma stable_sameClosed w w' : sameClosed w w' -> inv w -> inv w'.
Proof.
  intros Hs (H1 & H2 & H3 & H4). pose proof Hs as [Hg _].
  unfold inv, stable, within, active. rewrite Hg.
  repeat split; try assumption. eapply wired_sameClosed; eauto.
Qed.

Lemma stable_setCounter c w :
  inv w ->
  (bound = true -> 0 < size (grp w0) -> snd (counterParts c) <= size (grp w0)) ->
  inv (setCounter c w).
Proof.
  intros (H1 & H2 & H3 & H4) Ha. unfold inv, stable.
  split; [exact H1|]. split; [exact H2|]. split; [exact H3|].
  unfold within, active. cbn [setCounter withGrp grp counter size].
  rewrite H1. exact Ha.
Qed.

Lemma stable_update pd ad w :
  inv w ->
  (bound = true -> 0 < size (grp w0) -> int32 (active w + ad) <= size (grp w0)) ->
  inv (setCounter (newCounterOf (counter (grp w)) pd ad) w).
Proof.
  intros Hi Ha. apply stable_setCounter; [exact Hi|].
  rewrite counterParts_newCounterOf. exact Ha.
Qed.

Lemma stable_active w :
  inv w -> bound = true -> 0 < size (grp w0) -> active w <= size (grp w0).
Proof.
  intros (H1 & _ & _ & H4) Hb Hs. rewrite <- H1. apply H4; [exact Hb|].
  rewrite H1. exact Hs.
Qed.

Lemma stable_pending pd w :
  inv w -> inv (setCounter (newCounterOf (counter (grp w)) pd 0) w).
Proof.
  intros Hi. apply stable_update; [exact Hi|].
  intros Hb Hs. pose proof (active_range w).
  rewrite Z.add_0_r, int32_small by lia. apply stable_active; assumption.
Qed.

Lemma stable_released id s w :
  inv w -> waitChan (grp w) = Some (Chan id) -> inv (released id s w).
Proof.
  intros (H1 & H2 & H3 & H4) Hw. unfold inv, stable.
  split; [exact H1|]. split; [exact H2|].
  split; [apply wired_released; assumption|exact H4].
Qed.

Lemma stable_installed w : inv w -> inv (installed w).
Proof.
  intros (H1 & H2 & H3 & H4). unfold inv, stable.
  split; [exact H1|]. split; [exact H2|].
  split; [apply wired_installed; assumption|exact H4].
Qed.

Lemma stable_block w bc :
  inv w -> blockChan (grp w0) = Some bc -> isOpen w bc = true.
Proof.
  intros (_ & H2 & H3 & _) Hb. apply wired_block; [exact H3|congruence].
Qed.

(** ** The steps of the methods *)

Section Steps.

Context (err : string -> Prop).

Lemma upholds_counterAdd fuel pd ad w :
  inv w ->
  (bound = true -> 0 < size (grp w0) -> int32 (active w + ad) <= size (grp w0)) ->
  upholds inv err (counterAdd fuel pd ad w).
Proof.
  intros Hi Ha. destruct fuel as [|fuel].
  - apply upholds_Spin, Hi.
  - rewrite counterAdd_S. apply upholds_Done.
    apply stable_update; assumption.
Qed.

Lemma upholds_select cases dflt w :
  inv w -> (forall c, In (Send c) cases -> isOpen w c = true) ->
  upholds inv err (select cases dflt w).
Proof.
  intros Hi Hs. destruct (select_cases cases dflt w Hs) as [(i & w' & E & Hc)|[_ E]];
    rewrite E.
  - apply upholds_Done. eapply stable_sameClosed; eauto.
  - apply upholds_Blocked; [exact Hi|]. intros i w' Hw'.
    apply upholds_Done. exact Hw'.
Qed.

Lemma upholds_recv c w : inv w -> upholds inv err (recv c w).
Proof.
  intros Hi. unfold recv, bind.
  eapply upholds_bindO.
  - apply upholds_select; [exact Hi|]. intros c' [E|[]]. discriminate.
  - intros i w' Hw'. apply upholds_Done. exact Hw'.
Qed.

Lemma upholds_notifyWait p a w : inv w -> upholds inv err (notifyWait p a w).
Proof.
  intros Hi. pose proof Hi as (_ & _ & Hw & _).
  destruct (notifyWait_cases p a w Hw) as [E|(id & s & Ew & E)]; rewrite E.
  - apply upholds_Done. exact Hi.
  - apply upholds_Done. apply stable_released; assumption.
Qed.

Lemma upholds_notifyFreeLoop bc fuel :
  blockChan (grp w0) = Some bc ->
  forall c p w, inv w -> upholds inv err (notifyFreeLoop fuel bc c p w).
Proof.
  intros Hb. induction fuel as [|fuel IH]; intros c p w Hi;
    cbn [notifyFreeLoop]; destruct (p >? 0);
    try (apply upholds_Done; exact Hi).
  - apply upholds_Spin, Hi.
  - unfold bind at 1.
    destruct (select_default (Send bc) w) as (i & w' & E & Hc).
    { intros c' E. injection E as <-. eapply stable_block; eauto. }
    rewrite E. cbn [bindO].
    assert (Hi' : inv w') by (eapply stable_sameClosed; eauto).
    destruct i as [|i].
    + unfold bind, counter_Load. cbn [bindO ret].
      apply upholds_Done. exact Hi'.
    + unfold bind at 1, Gosched. cbn [bindO].
      apply upholds_Blocked; [exact Hi'|]. intros j w1 Hw1.
      unfold bind at 1. cbn [counter_Load bindO]. apply IH, Hw1.
Qed.

Lemma upholds_notifyFree bc fuel w :
  blockChan (grp w0) = Some bc -> inv w ->
  upholds inv err (notifyFree fuel bc w).
Proof.
  intros Hb Hi. unfold notifyFree, bind. cbn [counter_Load bindO].
  apply upholds_notifyFreeLoop; assumption.
Qed.

Lemma upholds_reserveNAbortWait bc fuel n w :
  blockChan (grp w0) = Some bc -> inv w ->
  upholds inv err (reserveNAbortWait fuel bc n w).
Proof.
  intros Hb Hi. unfold reserveNAbortWait. unfold bind at 1.
  eapply upholds_bindO.
  - apply upholds_counterAdd; [exact Hi|].
    intros Hbd Hs. pose proof (active_range w).
    rewrite Z.add_0_r, int32_small by lia. apply stable_active; assumption.
  - intros c w1 Hw1. unfold bind at 1. eapply upholds_bindO.
    + apply upholds_notifyFree; eassumption.
    + intros c' w2 Hw2. destruct (counterParts c') as [p a].
      apply upholds_notifyWait, Hw2.
Qed.

(** A reservation that fits under the size leaves the active count under
    the size, also when the count wraps. *)
Lemma commit_within n w :
  0 < n -> active w + n <= size (grp w0) -> int32 (active w + n) <= size (grp w0).
Proof. intros Hn Hroom. pose proof (active_range w). modarith. Qed.

Lemma upholds_tryReserve fuel n tryCall w :
  inv w -> 0 < n <= size (grp w0) ->
  upholds inv err (tryReserve fuel (size (grp w0)) n tryCall w).
Proof.
  intros Hi Hn. destruct fuel as [|fuel]; [apply upholds_Spin, Hi|].
  pose proof (active_range w) as Har.
  assert (Hint : int (active w + n) = active w + n)
    by (apply int_small; unfold maxUint32 in size_fits; lia).
  destruct (Z.eq_dec (pending w) 0) as [Hp|Hp];
    [destruct (Z.le_gt_cases (active w + n) (size (grp w0))) as [Hle|Hgt]|].
  - rewrite tryReserve_commit by (rewrite ?Hint; assumption).
    apply upholds_Done. apply stable_update; [exact Hi|].
    intros _ _. apply commit_within; [lia|exact Hle].
  - destruct tryCall.
    + rewrite tryReserve_refuse by (rewrite Hint; right; lia).
      apply upholds_Done. exact Hi.
    + rewrite tryReserve_enqueue by (rewrite Hint; right; lia).
      apply upholds_Done. apply stable_pending, Hi.
  - destruct tryCall.
    + rewrite tryReserve_refuse by (left; exact Hp).
      apply upholds_Done. exact Hi.
    + rewrite tryReserve_enqueue by (left; exact Hp).
      apply upholds_Done. apply stable_pending, Hi.
Qed.

Lemma upholds_reserveNSuccessWait bc d n fuel :
  blockChan (grp w0) = Some bc -> 0 < n <= size (grp w0) ->
  forall w, inv w ->
    upholds inv err (reserveNSuccessWait fuel (size (grp w0)) d n bc w).
Proof.
  intros Hb Hn. induction fuel as [|fuel IH]; intros w Hi;
    [apply upholds_Spin, Hi|].
  pose proof (active_range w) as Har.
  cbn [reserveNSuccessWait]. unfold bind at 1. cbn [counter_Load bindO].
  rewrite counterParts_world.
  rewrite diffN_exact by assumption.
  destruct (Z.geb_spec (size (grp w0) - active w - n) 0) as [Hroom|Hfull].
  - unfold bind at 1.
    destruct (select_default (Recv d) w) as (i & w' & E & Hc); [discriminate|].
    rewrite E. cbn [bindO].
    assert (Hi' : inv w') by (eapply stable_sameClosed; eauto).
    destruct i as [|i].
    + unfold bind at 1. eapply upholds_bindO.
      * apply upholds_reserveNAbortWait; eassumption.
      * intros u w2 Hw2. apply upholds_Done. exact Hw2.
    + unfold bind at 1. destruct Hc as [Hg _].
      rewrite counterUpdate_load by (rewrite Hg; reflexivity).
      cbn [bindO negb ret]. apply upholds_Done.
      apply stable_setCounter; [exact Hi'|]. intros _ _.
      rewrite counterParts_newCounterOf. cbn [snd]. fold (active w).
      apply commit_within; lia.
  - destruct (pending w =? n); [apply upholds_Done; exact Hi|].
    destruct (int (pending w + active w) >? size (grp w0));
      [apply upholds_Done; exact Hi|].
    destruct (int (pending w - n) <=? 0); [apply IH, Hi|].
    unfold bind at 1. eapply upholds_bindO.
    + apply upholds_select; [exact Hi|].
      intros c [E|[E|[]]]; [|discriminate].
      injection E as <-. eapply stable_block; eauto.
    + intros i w' Hw'. destruct i as [|i]; [apply upholds_Done; exact Hw'|].
      apply IH, Hw'.
Qed.

Lemma upholds_reserveNSlowLoop bc d n fuel :
  blockChan (grp w0) = Some bc -> 0 < n <= size (grp w0) ->
  forall w, inv w ->
    upholds inv err (reserveNSlowLoop fuel (size (grp w0)) d n bc w).
Proof.
  intros Hb Hn. induction fuel as [|fuel IH]; intros w Hi;
    [apply upholds_Spin, Hi|].
  cbn [reserveNSlowLoop]. unfold bind at 1. eapply upholds_bindO.
  - apply upholds_select; [exact Hi|]. intros c [E|[E|[]]]; discriminate.
  - intros i w' Hw'. destruct i as [|i].
    + unfold bind at 1. eapply upholds_bindO.
      * apply upholds_reserveNSuccessWait; eassumption.
      * intros [reloop ok] w2 Hw2. destruct ok; [apply upholds_Done; exact Hw2|].
        destruct reloop; cbn [negb]; [apply IH, Hw2|apply upholds_Done; exact Hw2].
    + unfold bind at 1. eapply upholds_bindO.
      * apply upholds_reserveNAbortWait; eassumption.
      * intros u w2 Hw2. apply upholds_Done. exact Hw2.
Qed.

Lemma stable_configured w :
  inv w -> size (grp w0) <> 0 -> exists bc, blockChan (grp w0) = Some bc.
Proof.
  intros (H1 & H2 & H3 & _) Hs.
  destruct (blockChan (grp w0)) as [bc|] eqn:Eb; [eauto|].
  exfalso. apply Hs. rewrite <- H1. apply wired_unset; [exact H3|congruence].
Qed.

Lemma upholds_reserveNSlow d n fuel w :
  inv w -> 0 < n <= size (grp w0) ->
  upholds inv err (reserveNSlow fuel (size (grp w0)) d n w).
Proof.
  intros Hi Hn. destruct (stable_configured w Hi ltac:(lia)) as (bc & Hb).
  unfold reserveNSlow, bind. cbn [blockChan_Load bindO].
  destruct Hi as (H1 & H2 & H3 & H4) eqn:E. rewrite H2, Hb.
  apply upholds_reserveNSlowLoop; [exact Hb|exact Hn|].
  repeat split; assumption.
Qed.

Lemma upholds_initWaitChan w : inv w -> upholds inv err (initWaitChan w).
Proof.
  intros Hi.
  destruct (Z.eq_dec (pending w) 0) as [Hp|Hp];
    [destruct (Z.le_gt_cases (active w) 0) as [Ha|Ha]|].
  - rewrite initWaitChan_zero by assumption. apply upholds_Done. exact Hi.
  - destruct (waitChan (grp w)) as [c|] eqn:Ew.
    + destruct (decide (c = nilChan)) as [->|Hc].
      * rewrite initWaitChan_install by auto.
        apply upholds_Done. apply stable_installed, Hi.
      * rewrite (initWaitChan_live w c) by auto. apply upholds_Done. exact Hi.
    + rewrite initWaitChan_install by auto.
      apply upholds_Done. apply stable_installed, Hi.
  - pose proof (pending_range w).
    destruct (waitChan (grp w)) as [c|] eqn:Ew.
    + destruct (decide (c = nilChan)) as [->|Hc].
      * rewrite initWaitChan_install by (auto; left; lia).
        apply upholds_Done. apply stable_installed, Hi.
      * rewrite (initWaitChan_live w c) by (auto; left; lia).
        apply upholds_Done. exact Hi.
    + rewrite initWaitChan_install by (auto; left; lia).
      apply upholds_Done. apply stable_installed, Hi.
Qed.

End Steps.

End Stable.

Section Methods.

Context (w0 : World) (bound : bool).

Hypothesis size_fits : 0 <= size (grp w0) <= maxUint32.

Let inv : World -> Prop := stable w0 bound.

Lemma upholds_ReserveN fuel d n w :
  inv w -> upholds inv (mayPanic (CReserveN d n)) (ReserveN fuel d n w).
Proof.
  intros Hi. unfold ReserveN. destruct (Z.leb_spec n 0) as [Hn|Hn].
  { apply upholds_Fault; [exact Hi|]. split; [exact Hn|reflexivity]. }
  unfold bind at 1. eapply upholds_bindO.
  { destruct (decide (d = nilChan)); [apply upholds_Done; exact Hi|].
    apply upholds_select; [exact Hi|].
    intros c [E|[]]. discriminate. }
  intros i w1 Hw1. destruct i as [|i]; [apply upholds_Done; exact Hw1|].
  unfold bind at 1. cbn [size_Load bindO].
  pose proof Hw1 as (Hs1 & _). rewrite Hs1.
  destruct (Z.eqb_spec (size (grp w0)) 0) as [Hz|Hnz].
  { unfold bind at 1. eapply upholds_bindO.
    - apply upholds_counterAdd; [exact Hw1|]. intros _ ?. lia.
    - intros c w2 Hw2. apply upholds_Done. exact Hw2. }
  destruct (Z.gtb_spec n (size (grp w0))) as [Hbig|Hfit].
  { unfold bind at 1. eapply upholds_bindO.
    - destruct (decide (d = nilChan)); [apply upholds_Done; exact Hw1|].
      apply upholds_recv; exact Hw1.
    - intros u w2 Hw2. apply upholds_Done. exact Hw2. }
  unfold bind at 1. eapply upholds_bindO.
  { apply upholds_tryReserve; [exact size_fits|exact Hw1|lia]. }
  intros ok w2 Hw2. destruct ok; [apply upholds_Done; exact Hw2|].
  apply upholds_reserveNSlow; [exact size_fits|exact Hw2|lia].
Qed.

Lemma upholds_TryReserveN fuel n w :
  inv w -> upholds inv (mayPanic (CTryReserveN n)) (TryReserveN fuel n w).
Proof.
  intros Hi. unfold TryReserveN. destruct (Z.leb_spec n 0) as [Hn|Hn].
  { apply upholds_Fault; [exact Hi|]. split; [exact Hn|reflexivity]. }
  unfold bind at 1. cbn [size_Load bindO].
  pose proof Hi as (Hs1 & _). rewrite Hs1.
  destruct (Z.eqb_spec (size (grp w0)) 0) as [Hz|Hnz].
  { unfold bind at 1. eapply upholds_bindO.
    - apply upholds_counterAdd; [exact Hi|]. intros _ ?. lia.
    - intros c w2 Hw2. apply upholds_Done. exact Hw2. }
  destruct (Z.gtb_spec n (size (grp w0))) as [Hbig|Hfit];
    [apply upholds_Done; exact Hi|].
  apply upholds_tryReserve; [exact size_fits|exact Hi|lia].
Qed.

Lemma upholds_FreeN fuel n w :
  inv w -> (bound = true -> 0 < n -> minInt32 <= active w - n) ->
  upholds inv (mayPanic (CFreeN n)) (FreeN fuel n w).
Proof.
  intros Hi Hlo. unfold FreeN. destruct (Z.leb_spec n 0) as [Hn|Hn].
  { apply upholds_Fault; [exact Hi|]. left. split; [exact Hn|reflexivity]. }
  unfold bind at 1. cbn [blockChan_Load bindO].
  pose proof Hi as (_ & Hb & _). rewrite Hb.
  unfold bind at 1. eapply upholds_bindO.
  { apply upholds_counterAdd; [exact Hi|].
    intros Hbd Hs. specialize (Hlo Hbd Hn). pose proof (active_range w).
    pose proof (stable_active w0 bound w Hi Hbd Hs).
    rewrite int32_sub_int. unfold minInt32 in Hlo. rewrite int32_small by lia. lia. }
  intros c w1 Hw1. cbn zeta. unfold bind at 1. eapply upholds_bindO.
  { destruct (blockChan (grp w0)) as [bc|] eqn:Ebc.
    - unfold bind. eapply upholds_bindO.
      + apply upholds_notifyFree; [exact Ebc|exact Hw1].
      + intros c' w2 Hw2. apply upholds_Done. exact Hw2.
    - apply upholds_Done. exact Hw1. }
  intros p w2 Hw2. unfold bind at 1. eapply upholds_bindO.
  { apply upholds_notifyWait, Hw2. }
  intros u w3 Hw3. destruct (snd (counterParts c) <? 0).
  - apply upholds_Fault; [exact Hw3|]. right. split; [exact Hn|reflexivity].
  - apply upholds_Done. exact Hw3.
Qed.

Lemma upholds_Wait w : inv w -> upholds inv (fun _ => False) (Wait w).
Proof.
  intros Hi. unfold Wait, bind. eapply upholds_bindO.
  - apply upholds_initWaitChan, Hi.
  - intros c w1 Hw1. apply upholds_recv; exact Hw1.
Qed.

Lemma upholds_ret {A B} (o : outcome A) (f : A -> B) (err : string -> Prop) :
  upholds inv err o -> upholds inv err (bindO o (fun a => ret (f a))).
Proof.
  intros H. eapply upholds_bindO; [exact H|].
  intros a w Hw. apply upholds_Done. exact Hw.
Qed.

Lemma upholds_invoke fuel c :
  isSetSize c = false -> inv w0 ->
  (bound = true -> keepsBelow w0 c = true) ->
  upholds inv (mayPanic c) (invoke fuel c w0).
Proof.
  intros Hc Hi Hk.
  destruct c as [|d n|n| |n| | |n| | |]; cbn [invoke]; unfold bind at 1;
    try discriminate.
  - apply (upholds_ret _ (fun _ => VUnit)). unfold Reserve, bind.
    apply (upholds_ret _ (fun _ => tt)).
    eapply upholds_mono; [|apply upholds_ReserveN, Hi].
    intros msg [H _]. lia.
  - apply upholds_ret, upholds_ReserveN, Hi.
  - apply upholds_ret, upholds_TryReserveN, Hi.
  - apply (upholds_ret _ (fun _ => VUnit)). unfold Free.
    eapply upholds_mono; [|apply upholds_FreeN; [exact Hi|]].
    + intros msg [[H _]|[_ H]]; [lia|exact H].
    + intros Hb _. specialize (Hk Hb). cbn [keepsBelow] in Hk.
      apply Z.leb_le, Hk.
  - apply (upholds_ret _ (fun _ => VUnit)). apply upholds_FreeN; [exact Hi|].
    intros Hb Hn. specialize (Hk Hb). cbn [keepsBelow] in Hk.
    apply orb_prop in Hk as [Hk|Hk]; [apply Z.leb_le in Hk; lia|].
    apply Z.leb_le, Hk.
  - apply (upholds_ret _ (fun _ => VUnit)), upholds_Wait, Hi.
  - apply upholds_ret. unfold WaitChan. apply upholds_initWaitChan, Hi.
  - apply upholds_Done. exact Hi.
  - apply upholds_Done. exact Hi.
  - apply upholds_Done. exact Hi.
Qed.

End Methods.

Lemma stable_start w bound :
  wired w = true -> within bound w -> stable w bound w.
Proof. intros H1 H2. repeat split; assumption. Qed.

(** * Runs, benchmarks and the adapter *)

Section Accounting.

Context (fuel : nat).

Lemma run_tally p :
  forall bal w,
    balanced bal w -> legal bal (run (S fuel) p w) = true ->
    Forall2 (fun x b => ended (snd (fst x)) = true ->
                        ActiveCount (snd x) = Done b (snd x) /\
                        PendingCount (snd x) = Done 0 (snd x))
            (run (S fuel) p w) (tally bal (run (S fuel) p w)).
Proof.
  induction p as [|c0 p IH]; intros bal w Hbal Hleg; [constructor|].
  cbn [run] in *. destruct (exec (S fuel) c0 w) as [r0 w1] eqn:Hex.
  cbn [legal tally] in *.
  destruct (legalStep bal c0 r0) as [bal'|] eqn:Hstep; [|discriminate].
  destruct (exec_legal fuel c0 w bal r0 w1 bal' Hbal Hex Hstep) as [_ Hnext].
  constructor.
  - cbn [fst snd]. intros He.
    assert (Hb : balanced bal' w1) by (destruct r0; try discriminate; exact Hnext).
    destruct Hb as (_ & Hp & Ha & _).
    unfold ActiveCount, PendingCount, bind. cbn [counter_Load bindO ret].
    fold (active w1) (pending w1). rewrite Hp, Ha. split; reflexivity.
  - destruct r0 as [v|msg|on|]; try constructor; apply IH; assumption.
Qed.

End Accounting.

Section Plain.



End Plain.

Lemma zero_counts w : counter (grp w) = 0 -> pending w = 0 /\ active w = 0.
Proof. intros H. unfold pending, active. rewrite H. split; reflexivity. Qed.

(** One round of reserving, freeing and waiting on a group that is zero
    leaves everything as it was. *)
Lemma uncontendedLoop_idle fuel iterations w :
  counter (grp w) = 0 -> 0 <= size (grp w) <= maxUint32 ->
  waitChan (grp w) = None \/ waitChan (grp w) = Some nilChan ->
  uncontendedLoop (S fuel) iterations w = Done tt w.
Proof.
  intros Hc Hs Hw. destruct (zero_counts w Hc) as [Hp Ha].
  induction iterations as [|k IH]; [reflexivity|].
  cbn [uncontendedLoop].
  assert (H : exists w1, ReserveN (S fuel) nilChan 1 w = Done true w1 /\
                         FreeN (S fuel) 1 w1 = Done tt w).
  { destruct (round_trip fuel w nilChan 1) as (w1 & HR & _ & _ & HF).
    - unfold maxInt. lia.
    - rewrite Hc. lia.
    - exact Hs.
    - reflexivity.
    - exact Hp.
    - lia.
    - right. exact Hw.
    - destruct (Z.eq_dec (size (grp w)) 0); [left; assumption|right; lia].
    - exists w1. split; assumption. }
  destruct H as (w1 & HR & HF).
  unfold bind at 1, Reserve, bind at 1. rewrite HR. cbn [bindO ret].
  unfold bind at 1, Free. rewrite HF. cbn [bindO].
  unfold bind at 1. rewrite (Wait_zero w) by lia.
  cbn [bindO]. exact IH.
Qed.

Section Adapter.

Context (fuel : nat).









End Adapter.

Section NotifyReserve.

Lemma notifyReserve_alone bc n w :
  int (pending w - n) <= 0 ->
  notifyReserve bc n w = Done (counter (grp w), false) w.
Proof.
  intros H. unfold notifyReserve, bind. cbn [counter_Load bindO].
  rewrite counterParts_world.
  destruct (Z.leb_spec (int (pending w - n)) 0); [reflexivity|lia].
Qed.

Lemma notifyReserve_others b n w :
  0 < int (pending w - n) ->
  notifyReserve (Chan b) n w =
  bindO (select [Send (Chan b); Recv (Chan b)] false w)
    (fun i => match i with
              | O => ret (counter (grp w), true)
              | _ => ret (counter (grp w), false)
              end).
Proof.
  intros H. unfold notifyReserve, bind. cbn [counter_Load bindO].
  rewrite counterParts_world.
  destruct (Z.leb_spec (int (pending w - n)) 0); [lia|reflexivity].
Qed.

End NotifyReserve.

(** X14: the channels of a group stay in order.  Started on a group whose
    channels are in order (a block channel exactly when the size is not 0,
    allocated and open, and a wait slot that is empty, holds the nil
    channel or holds an open channel other than the block channel), every
    method but [SetSize] leaves the size and the block channel as they are
    and the channels in order, at every point where it parks or yields and
    when it ends, provided the other goroutines do so while it is
    suspended.  It never panics on a channel, and panics only as
    documented: on a weight that is not positive, and, for a free, on an
    active count that became negative. *)
Theorem X14_channels_stay_in_order (fuel : nat) (c : call) (w : World) :
  isSetSize c = false -> 0 <= size (grp w) <= maxUint32 -> wired w = true ->
  upholds (stable w false) (mayPanic c) (invoke fuel c w).
Proof.
  intros Hc Hs Hw. apply upholds_invoke; try assumption.
  - apply stable_start; [exact Hw|]. intros H. discriminate.
  - discriminate.
Qed.

Lemma X14_witness :
  upholds
    (stable (mkWorld (mkGroup None (Some (Chan 0)) 2 2) [mkChanState false 0 0]) false)
    (mayPanic (CReserveN nilChan 1))
    (invoke 3 (CReserveN nilChan 1)
       (mkWorld (mkGroup None (Some (Chan 0)) 2 2) [mkChanState false 0 0])).
Proof.
  apply (X14_channels_stay_in_order 3 (CReserveN nilChan 1)
           (mkWorld (mkGroup None (Some (Chan 0)) 2 2) [mkChanState false 0 0])).
  - reflexivity.
  - cbn. unfold maxUint32. lia.
  - reflexivity.
Defined.

(** X15: the active count stays within the size.  On a group with a
    limit whose channels are in order and whose active count is at most
    its size, every reservation, wait and read, and every free that does
    not take the active count below - 2^31, keeps the active count at most
    the size at every point where it parks or yields and when it ends,
    provided the other goroutines do so while it is suspended. *)
Theorem X15_active_within_size (fuel : nat) (c : call) (w : World) :
  isSetSize c = false -> 0 <= size (grp w) <= maxUint32 -> wired w = true ->
  (0 < size (grp w) -> active w <= size (grp w)) ->
  keepsBelow w c = true ->
  upholds (stable w true) (mayPanic c) (invoke fuel c w).
Proof.
  intros Hc Hs Hw Ha Hk. apply upholds_invoke; try assumption.
  - apply stable_start; [exact Hw|]. intros _. exact Ha.
  - intros _. exact Hk.
Qed.

Lemma X15_witness :
  upholds
    (stable (mkWorld (mkGroup None (Some (Chan 0)) 1 2) [mkChanState false 0 0]) true)
    (mayPanic (CReserveN nilChan 2))
    (invoke 3 (CReserveN nilChan 2)
       (mkWorld (mkGroup None (Some (Chan 0)) 1 2) [mkChanState false 0 0])).
Proof.
  apply (X15_active_within_size 3 (CReserveN nilChan 2)
           (mkWorld (mkGroup None (Some (Chan 0)) 1 2) [mkChanState false 0 0])).
  - reflexivity.
  - cbn. unfold maxUint32. lia.
  - reflexivity.
  - intros _. vm_compute. discriminate.
  - reflexivity.
Defined.

(** X16: the counts follow the balance.  In a program of reservations,
    frees and reads run by one goroutine on a fresh group, where the
    weights freed are positive and within the balance of committed
    reservations and that balance stays within 2^31 - 1, [ActiveCount]
    read after any call that ended is that balance, and [PendingCount] is
    0. *)
Theorem X16_counts_follow_balance (fuel : nat) (p : list call) (w : World) :
  fresh w = true -> legal 0 (run (S fuel) p w) = true ->
  Forall2 (fun x b => ended (snd (fst x)) = true ->
                      ActiveCount (snd x) = Done b (snd x) /\
                      PendingCount (snd x) = Done 0 (snd x))
          (run (S fuel) p w) (tally 0 (run (S fuel) p w)).
Proof.
  intros Hf Hl. apply run_tally; [apply fresh_balanced, Hf|exact Hl].
Qed.

Lemma X16_witness :
  let w := mkWorld (mkGroup None (Some (Chan 0)) 0 5) [mkChanState false 0 0] in
  let p := [CReserveN nilChan 3; CTryReserveN 3; CFreeN 2; CActiveCount] in
  Forall2 (fun x b => ended (snd (fst x)) = true ->
                      ActiveCount (snd x) = Done b (snd x) /\
                      PendingCount (snd x) = Done 0 (snd x))
          (run 1 p w) (tally 0 (run 1 p w)) /\
  tally 0 (run 1 p w) = [3; 3; 1; 1].
Proof.
  cbn zeta. split; [|reflexivity].
  apply (X16_counts_follow_balance 0
           [CReserveN nilChan 3; CTryReserveN 3; CFreeN 2; CActiveCount]
           (mkWorld (mkGroup None (Some (Chan 0)) 0 5) [mkChanState false 0 0]));
    reflexivity.
Defined.

Section Reserver.

Lemma select_both_send b s w :
  chans w !! b = Some s -> closed s = false ->
  (0 < recvq s)%nat -> sendq s = 0%nat ->
  select [Send (Chan b); Recv (Chan b)] false w =
  Done 0%nat (withChan b (mkChanState false (sendq s) (pred (recvq s))) w).
Proof.
  intros Hl Hc Hr Hs. unfold select. cbn [readyFrom ready]. rewrite Hl, Hc.
  replace (0 <? sendq s)%nat with false by (rewrite Hs; reflexivity).
  apply Nat.ltb_lt in Hr. rewrite Hr. cbn [orb app perform].
  rewrite Hl, Hc. reflexivity.
Qed.

Lemma select_both_recv b s w :
  chans w !! b = Some s -> closed s = false ->
  recvq s = 0%nat -> (0 < sendq s)%nat ->
  select [Send (Chan b); Recv (Chan b)] false w =
  Done 1%nat (withChan b (mkChanState false (pred (sendq s)) (recvq s)) w).
Proof.
  intros Hl Hc Hr Hs. unfold select. cbn [readyFrom ready]. rewrite Hl, Hc.
  replace (0 <? recvq s)%nat with false by (rewrite Hr; reflexivity).
  apply Nat.ltb_lt in Hs. rewrite Hs. cbn [orb app perform].
  rewrite Hl, Hc. reflexivity.
Qed.

Lemma select_both_idle b s w :
  chans w !! b = Some s -> closed s = false ->
  recvq s = 0%nat -> sendq s = 0%nat ->
  select [Send (Chan b); Recv (Chan b)] false w =
  Blocked [Send (Chan b); Recv (Chan b)] w (fun i w' => Done i w').
Proof.
  intros Hl Hc Hr Hs. unfold select. cbn [readyFrom ready]. rewrite Hl, Hc, Hr, Hs.
  reflexivity.
Qed.

End Reserver.

(** X17: [notifyReserve b n], which no method calls, writes nothing to the
    group.  When no other call is queued besides the [n] of its caller it
    returns the counter with false at once.  Otherwise it wakes a receiver
    parked on the block channel and returns true, or takes the value of a
    sender parked there and returns false, or, with nobody parked, parks on
    both; the counter it returns is the one it loaded before. *)
Theorem X17_notifyReserve (b : nat) (n : Z) (w : World) (s : chanState) :
  chans w !! b = Some s -> closed s = false ->
  (int (pending w - n) <= 0 ->
   notifyReserve (Chan b) n w = Done (counter (grp w), false) w) /\
  (0 < int (pending w - n) ->
   ((0 < recvq s)%nat -> sendq s = 0%nat ->
    notifyReserve (Chan b) n w =
    Done (counter (grp w), true)
         (withChan b (mkChanState false (sendq s) (pred (recvq s))) w)) /\
   (recvq s = 0%nat -> (0 < sendq s)%nat ->
    notifyReserve (Chan b) n w =
    Done (counter (grp w), false)
         (withChan b (mkChanState false (pred (sendq s)) (recvq s)) w)) /\
   (recvq s = 0%nat -> sendq s = 0%nat ->
    exists k, notifyReserve (Chan b) n w =
              Blocked [Send (Chan b); Recv (Chan b)] w k /\
              forall w', k 0%nat w' = Done (counter (grp w), true) w' /\
                         forall j, k (S j) w' = Done (counter (grp w), false) w')).
Proof.
  intros Hl Hc. split; [apply notifyReserve_alone|].
  intros Hp. rewrite notifyReserve_others by exact Hp. split; [|split].
  - intros Hr Hs. rewrite (select_both_send b s w) by assumption. reflexivity.
  - intros Hr Hs. rewrite (select_both_recv b s w) by assumption. reflexivity.
  - intros Hr Hs. rewrite (select_both_idle b s w) by assumption.
    cbn [bindO]. eexists. split; [reflexivity|].
    intros w'. split; [reflexivity|]. intros j. reflexivity.
Qed.

Lemma X17_witness :
  let w := mkWorld (mkGroup None (Some (Chan 0)) (3 * 2^32 + 2) 2)
                   [mkChanState false 0 1] in
  notifyReserve (Chan 0) 1 w =
  Done (3 * 2^32 + 2, true)
       (mkWorld (mkGroup None (Some (Chan 0)) (3 * 2^32 + 2) 2) [mkChanState false 0 0]).
Proof.
  cbn zeta.
  destruct (X17_notifyReserve 0 1
              (mkWorld (mkGroup None (Some (Chan 0)) (3 * 2^32 + 2) 2)
                       [mkChanState false 0 1])
              (mkChanState false 0 1)) as (_ & H).
  - reflexivity.
  - reflexivity.
  - destruct H as (H & _).
    + vm_compute. reflexivity.
    + apply H; [cbn; lia|reflexivity].
Defined.

(** X18: the loop of [benchmarkSemaGroupUncontended].  On a group whose
    counter is 0 and whose wait slot holds no channel, with or without a
    limit, [Reserve(); Free(); Wait()] run any number of times never parks
    and never panics, and leaves the group and the channels exactly as
    they were; so does the benchmark, on the zero value it declares. *)
Theorem X18_uncontended_loop (fuel : nat) (iterations : nat) (w : World) :
  (counter (grp w) = 0 -> 0 <= size (grp w) <= maxUint32 ->
   waitChan (grp w) = None \/ waitChan (grp w) = Some nilChan ->
   uncontendedLoop (S fuel) iterations w = Done tt w) /\
  benchmarkSemaGroupUncontended (S fuel) iterations w =
  Done tt (mkWorld zeroGroup (chans w)).
Proof.
  split; [apply uncontendedLoop_idle|].
  unfold benchmarkSemaGroupUncontended. apply uncontendedLoop_idle.
  - reflexivity.
  - cbn. unfold maxUint32. lia.
  - left. reflexivity.
Qed.

Lemma X18_witness :
  let w := mkWorld (mkGroup (Some nilChan) (Some (Chan 0)) 0 1) [mkChanState false 0 0] in
  uncontendedLoop 1 5 w = Done tt w.
Proof.
  cbn zeta.
  destruct (X18_uncontended_loop 0 5
              (mkWorld (mkGroup (Some nilChan) (Some (Chan 0)) 0 1)
                       [mkChanState false 0 0])) as (H & _).
  apply H.
  - reflexivity.
  - cbn. unfold maxUint32. lia.
  - right. reflexivity.
Defined.



(** * What the calls add to the counter *)

Section Value.

Lemma sameMod64_refl x : sameMod64 x x.
Proof. unfold sameMod64. rewrite Z.sub_diag. reflexivity. Qed.

Lemma sameMod64_sym x y : sameMod64 x y -> sameMod64 y x.
Proof. unfold sameMod64. intros H. Z.div_mod_to_equations. lia. Qed.

Lemma sameMod64_trans x y z : sameMod64 x y -> sameMod64 y z -> sameMod64 x z.
Proof. unfold sameMod64. intros H1 H2. Z.div_mod_to_equations. lia. Qed.

Lemma sameMod64_add x y d e :
  sameMod64 x y -> sameMod64 d e -> sameMod64 (x + d) (y + e).
Proof. unfold sameMod64. intros H1 H2. Z.div_mod_to_equations. lia. Qed.

Lemma valueOf_range c : - 2^31 <= valueOf c < 2^64 - 2^31.
Proof.
  unfold valueOf. destruct (counterParts c) as [p a] eqn:E.
  assert (Hp : 0 <= p < 2^32).
  { replace p with (fst (counterParts c)) by (rewrite E; reflexivity).
    unfold counterParts. cbn [fst]. apply uint32_range. }
  assert (Ha : - 2^31 <= a < 2^31).
  { replace a with (snd (counterParts c)) by (rewrite E; reflexivity).
    unfold counterParts. cbn [snd]. apply int32_range. }
  lia.
Qed.

Lemma valueOf_pack p a :
  0 <= p < 2^32 -> - 2^31 <= a < 2^31 -> valueOf (pack p a) = p * 2^32 + a.
Proof. intros Hp Ha. unfold valueOf. rewrite counterParts_pack by assumption. reflexivity. Qed.

Lemma eff_small ad : - 2^32 < ad < 2^32 -> eff ad = ad.
Proof.
  intros H. unfold eff. destruct (Z.gtb_spec ad 0).
  - apply Z.mod_small. lia.
  - rewrite Z.mod_small by lia. lia.
Qed.

(** The signed step of the active half, with the carry it causes. *)
Lemma active_step a ad :
  - 2^31 <= a < 2^31 ->
  int32 (a + ad) + carry a ad (int32 (a + ad)) * 2^32 = a + eff ad.
Proof.
  intros Ha. unfold carry, eff. set (a' := int32 (a + ad)).
  assert (Ha' : - 2^31 <= a' < 2^31) by apply int32_range.
  assert (Hc : (a' - (a + ad)) mod 2^32 = 0) by (subst a'; modarith).
  destruct (Z.gtb_spec ad 0) as [Hpos|Hnp].
  - destruct (Z.ltb_spec a' a); cbn [andb].
    + Z.div_mod_to_equations. lia.
    + destruct (Z.ltb_spec ad 0); [lia|]. cbn [andb].
      Z.div_mod_to_equations. lia.
  - cbn [andb]. destruct (Z.ltb_spec ad 0) as [Hneg|Hz].
    + destruct (Z.gtb_spec a' a); cbn [andb].
      * Z.div_mod_to_equations. lia.
      * Z.div_mod_to_equations. lia.
    + cbn [andb]. assert (ad = 0) by lia. subst ad.
      Z.div_mod_to_equations. lia.
Qed.

Lemma valueOf_update c pd ad :
  sameMod64 (valueOf (newCounterOf c pd ad)) (valueOf c + pd * 2^32 + eff ad).
Proof.
  unfold valueOf at 1. rewrite counterParts_newCounterOf.
  unfold valueOf. destruct (counterParts c) as [p a] eqn:E. cbn [fst snd].
  assert (Ha : - 2^31 <= a < 2^31).
  { replace a with (snd (counterParts c)) by (rewrite E; reflexivity).
    unfold counterParts. cbn [snd]. apply int32_range. }
  pose proof (active_step a ad Ha) as Hs.
  set (k := carry a ad (int32 (a + ad))) in *.
  set (a' := int32 (a + ad)) in *.
  unfold sameMod64, uint32. Z.div_mod_to_equations. lia.
Qed.

Lemma valueOf_inj c1 c2 :
  0 <= c1 < 2^64 -> 0 <= c2 < 2^64 ->
  sameMod64 (valueOf c1) (valueOf c2) -> c1 = c2.
Proof.
  intros H1 H2 Hv.
  pose proof (valueOf_range c1) as R1. pose proof (valueOf_range c2) as R2.
  assert (E : valueOf c1 = valueOf c2).
  { unfold sameMod64 in Hv. Z.div_mod_to_equations. lia. }
  rewrite <- (pack_counterParts c1 H1), <- (pack_counterParts c2 H2).
  unfold valueOf in E.
  destruct (counterParts c1) as [p1 a1] eqn:E1.
  destruct (counterParts c2) as [p2 a2] eqn:E2. cbn [fst snd].
  assert (Hp1 : 0 <= p1 < 2^32).
  { replace p1 with (fst (counterParts c1)) by (rewrite E1; reflexivity).
    unfold counterParts. cbn [fst]. apply uint32_range. }
  assert (Ha1 : - 2^31 <= a1 < 2^31).
  { replace a1 with (snd (counterParts c1)) by (rewrite E1; reflexivity).
    unfold counterParts. cbn [snd]. apply int32_range. }
  assert (Hp2 : 0 <= p2 < 2^32).
  { replace p2 with (fst (counterParts c2)) by (rewrite E2; reflexivity).
    unfold counterParts. cbn [fst]. apply uint32_range. }
  assert (Ha2 : - 2^31 <= a2 < 2^31).
  { replace a2 with (snd (counterParts c2)) by (rewrite E2; reflexivity).
    unfold counterParts. cbn [snd]. apply int32_range. }
  assert (p1 = p2 /\ a1 = a2) as [-> ->] by lia. reflexivity.
Qed.

Lemma newCounterOf_comm c pd ad pd' ad' :
  newCounterOf (newCounterOf c pd ad) pd' ad' =
  newCounterOf (newCounterOf c pd' ad') pd ad.
Proof.
  apply valueOf_inj; try apply newCounterOf_range.
  eapply sameMod64_trans; [apply valueOf_update|].
  apply sameMod64_sym.
  eapply sameMod64_trans; [apply valueOf_update|].
  pose proof (valueOf_update c pd ad) as H1.
  pose proof (valueOf_update c pd' ad') as H2.
  unfold sameMod64 in *. Z.div_mod_to_equations. lia.
Qed.

End Value.

(** X20: a counter update is an addition.  Seen as the number
    [pending * 2^32 + active], the counter after the retry loop of
    [counterUpdate] is the counter before plus [pendingDelta * 2^32] plus
    the active delta (cut to 32 bits, which leaves a delta between - 2^32
    and 2^32 as it is), as 64-bit words, whatever carry or borrow went
    between the halves.  So two updates give the same counter in either
    order. *)
Theorem X20_updates_add_up (fuel : nat) (pd ad pd' ad' : Z) (w : World) :
  sameMod64 (valueIn (worldOf (counterAdd (S fuel) pd ad w)))
            (valueIn w + pd * 2^32 + eff ad) /\
  (- 2^32 < ad < 2^32 -> eff ad = ad) /\
  (_ <- counterAdd (S fuel) pd ad ;; counterAdd (S fuel) pd' ad') w =
  (_ <- counterAdd (S fuel) pd' ad' ;; counterAdd (S fuel) pd ad) w.
Proof.
  split; [|split].
  - rewrite counterAdd_S. cbn [worldOf]. unfold valueIn.
    cbn [setCounter withGrp grp counter]. apply valueOf_update.
  - apply eff_small.
  - unfold bind. rewrite !counterAdd_S. cbn [bindO]. rewrite !counterAdd_S.
    cbn [setCounter withGrp grp counter chans waitChan blockChan size].
    rewrite (newCounterOf_comm (counter (grp w)) pd ad pd' ad'). reflexivity.
Qed.

Ltac cong := unfold sameMod64, int in *; Z.div_mod_to_equations; lia.

Section Contributes.

Context {A : Type}.

Lemma contributes_mono (P P' : A -> Z -> Prop) (mid mid' : Z -> Prop) base (o : outcome A) :
  (forall a z, P a z -> P' a z) -> (forall z, mid z -> mid' z) ->
  contributes P mid base o -> contributes P' mid' base o.
Proof.
  intros HP Hm H. induction H as [a w b H|msg w b H|on w k b H Hk IH|w b H].
  - apply contributes_Done; auto.
  - apply contributes_Fault; auto.
  - apply contributes_Blocked; auto.
  - apply contributes_Spin; auto.
Qed.

Lemma contributes_bindO {B : Type} (P : A -> Z -> Prop) (Q : B -> Z -> Prop)
    (mid : Z -> Prop) base (o : outcome A) (f : A -> M B) :
  contributes P mid base o ->
  (forall a w b, P a (valueIn w - b) -> contributes Q mid b (f a w)) ->
  contributes Q mid base (bindO o f).
Proof.
  intros H Hf. induction H as [a w b H|msg w b H|on w k b H Hk IH|w b H];
    cbn [bindO].
  - apply Hf, H.
  - apply contributes_Fault, H.
  - apply contributes_Blocked; [exact H|]. intros i w' Hi. apply IH, Hi.
  - apply contributes_Spin, H.
Qed.

(** A step that leaves the counter alone, used where the call has
    contributed [z] so far. *)
Lemma quiet_bindO {B : Type} (P : A -> Prop) (Q : B -> Z -> Prop) (mid : Z -> Prop)
    base z (o : outcome A) (f : A -> M B) :
  contributes (fun a z' => z' = z /\ P a) (fun z' => z' = z) base o ->
  mid z ->
  (forall a w b, valueIn w - b = z -> P a -> contributes Q mid b (f a w)) ->
  contributes Q mid base (bindO o f).
Proof.
  intros H Hm Hf.
  apply contributes_bindO with (P := fun a z' => z' = z /\ P a).
  - eapply contributes_mono; [| |exact H]; [auto|]. intros z' ->. exact Hm.
  - intros a w b [Hz Ha]. apply Hf; assumption.
Qed.

Lemma quiet_final (o : outcome A) w base :
  final o = true -> counter (grp (worldOf o)) = counter (grp w) ->
  contributes (fun _ z => z = valueIn w - base /\ True) (fun z => z = valueIn w - base) base o.
Proof.
  intros Hf Hc. destruct o as [a w'|msg w'|on w' k|w']; try discriminate;
    cbn [worldOf] in Hc.
  - apply contributes_Done. unfold valueIn. rewrite Hc. auto.
  - apply contributes_Fault. unfold valueIn. rewrite Hc. auto.
Qed.

End Contributes.

Section Quiet.

Lemma perform_final op w : final (perform op w) = true.
Proof.
  destruct op as [[| |id]|[| |id]|]; cbn [perform]; try reflexivity;
    destruct (chans w !! id) as [s|]; try reflexivity;
    destruct (closed s); reflexivity.
Qed.

Lemma readyFrom_lookup w cases : forall j i op,
  In (i, op) (readyFrom w j cases) ->
  exists i', i = (j + i')%nat /\ cases !! i' = Some op /\ ready w op = true.
Proof.
  induction cases as [|c cases IH]; intros j i op Hin; [destruct Hin|].
  cbn [readyFrom] in Hin. apply in_app_or in Hin as [Hin|Hin].
  - destruct (ready w c) eqn:Er; [|destruct Hin].
    destruct Hin as [E|[]]. injection E as <- <-.
    exists 0%nat. split; [lia|]. split; [reflexivity|exact Er].
  - destruct (IH _ _ _ Hin) as (i' & -> & El & Er).
    exists (S i'). split; [lia|]. split; [exact El|exact Er].
Qed.

Lemma ready_wakes w cases i op :
  cases !! i = Some op -> ready w op = true -> wakes cases i = true.
Proof.
  intros El Er. unfold wakes. rewrite El.
  destruct op as [[| |id]|[| |id]|]; try discriminate; reflexivity.
Qed.

(** What a [select] does: it takes a case that is not on a nil channel, or
    its default branch, or it faults, and then the group is as it was; or
    it parks on its cases. *)
Lemma select_shape cases dflt w :
  (exists i w', select cases dflt w = Done i w' /\ grp w' = grp w /\
                (wakes cases i = true \/ dflt = true /\ i = length cases)) \/
  (exists msg w', select cases dflt w = Fault msg w' /\ grp w' = grp w) \/
  select cases dflt w = Blocked cases w (fun i w' => Done i w').
Proof.
  unfold select. destruct (readyFrom w 0 cases) as [|[i op] [|p rest]] eqn:E.
  - destruct dflt; [|right; right; reflexivity].
    left. exists (length cases), w. auto.
  - destruct (readyFrom_lookup w cases 0%nat i op) as (i' & -> & El & Er).
    { rewrite E. left. reflexivity. }
    pose proof (ready_wakes w cases i' op El Er) as Hw. cbn [Nat.add].
    pose proof (perform_grp op w) as Hg. pose proof (perform_final op w) as Hf.
    destruct (perform op w) as [u w'|msg w'|on w' k|w']; try discriminate;
      cbn [bindO ret worldOf] in *.
    + left. exists i', w'. auto.
    + right. left. exists msg, w'. auto.
  - right. right. reflexivity.
Qed.

(** A [select] with a default branch over a receive goes through at once;
    it takes the receive only on a channel that is not nil. *)
Lemma select_recv_default d w :
  exists i w', select [Recv d] true w = Done i w' /\ grp w' = grp w /\
               (i = 0%nat -> d <> nilChan).
Proof.
  destruct (select_default (Recv d) w) as (i & w' & E & Hc); [discriminate|].
  exists i, w'. split; [exact E|]. split; [apply Hc|].
  intros -> ->. revert E. unfold select. cbn. discriminate.
Qed.

(** A [select] leaves the counter alone. *)
Lemma quiet_select cases dflt w base :
  contributes
    (fun i z => z = valueIn w - base /\
                (wakes cases i = true \/ dflt = true /\ i = length cases))
    (fun z => z = valueIn w - base) base (select cases dflt w).
Proof.
  destruct (select_shape cases dflt w)
    as [(i & w' & E & Hg & Hi)|[(msg & w' & E & Hg)|E]]; rewrite E.
  - apply contributes_Done. unfold valueIn. rewrite Hg. auto.
  - apply contributes_Fault. unfold valueIn. rewrite Hg. reflexivity.
  - apply contributes_Blocked; [reflexivity|]. intros i w' Hi.
    apply contributes_Done. split; [lia|]. left. exact Hi.
Qed.

Lemma quiet_recv c w base :
  contributes (fun _ z => z = valueIn w - base /\ c <> nilChan)
              (fun z => z = valueIn w - base) base (recv c w).
Proof.
  unfold recv, bind.
  eapply contributes_bindO; [apply quiet_select|].
  intros i w' b [Hz Hi]. apply contributes_Done. split; [exact Hz|].
  destruct Hi as [Hi|[Hi _]]; [|discriminate].
  unfold wakes in Hi. destruct i as [|i]; cbn in Hi; [|discriminate].
  intros ->. discriminate.
Qed.

Lemma quiet_notifyFreeLoop bc fuel : forall c p w base,
  contributes (fun _ z => z = valueIn w - base /\ True)
              (fun z => z = valueIn w - base) base (notifyFreeLoop fuel bc c p w).
Proof.
  induction fuel as [|fuel IH]; intros c p w base;
    cbn [notifyFreeLoop]; destruct (p >? 0);
    try (apply contributes_Done; auto).
  - apply contributes_Spin. reflexivity.
  - unfold bind at 1.
    eapply contributes_bindO; [apply quiet_select|].
    intros i w1 b [Hb _]. destruct i as [|i].
    + unfold bind, counter_Load. cbn [bindO ret].
      apply contributes_Done. auto.
    + unfold bind at 1, Gosched. cbn [bindO].
      apply contributes_Blocked; [exact Hb|]. intros j w2 _.
      unfold bind at 1. cbn [counter_Load bindO].
      eapply contributes_mono; [| |apply IH].
      * cbn beta. intros _ z [-> _]. split; [lia|exact I].
      * cbn beta. intros z ->. lia.
Qed.

Lemma quiet_notifyFree bc fuel w base :
  contributes (fun _ z => z = valueIn w - base /\ True)
              (fun z => z = valueIn w - base) base (notifyFree fuel bc w).
Proof.
  unfold notifyFree, bind. cbn [counter_Load bindO]. apply quiet_notifyFreeLoop.
Qed.

Lemma quiet_notifyWait p a w base :
  contributes (fun _ z => z = valueIn w - base /\ True)
              (fun z => z = valueIn w - base) base (notifyWait p a w).
Proof.
  destruct (notifyWait_core p a w) as [Hf (Hc & _)].
  apply quiet_final; assumption.
Qed.

Lemma quiet_initWaitChan w base :
  contributes (fun _ z => z = valueIn w - base /\ True)
              (fun z => z = valueIn w - base) base (initWaitChan w).
Proof.
  destruct (initWaitChan_core w) as [Hf (Hc & _)].
  apply quiet_final; assumption.
Qed.

Lemma contributes_counterAdd (mid : Z -> Prop) fuel pd ad w base :
  mid (valueIn w - base) ->
  contributes (fun _ z => sameMod64 z (valueIn w - base + pd * 2^32 + eff ad))
              mid base (counterAdd fuel pd ad w).
Proof.
  intros Hm. destruct fuel as [|fuel]; [apply contributes_Spin, Hm|].
  rewrite counterAdd_S. apply contributes_Done.
  unfold valueIn. cbn [setCounter withGrp grp counter].
  pose proof (valueOf_update (counter (grp w)) pd ad). cong.
Qed.

Lemma valueIn_setCounter c pd ad w base :
  counter (grp w) = c ->
  sameMod64 (valueIn (setCounter (newCounterOf c pd ad) w) - base)
            (valueIn w - base + pd * 2^32 + eff ad).
Proof.
  intros <-. unfold valueIn. cbn [setCounter withGrp grp counter].
  pose proof (valueOf_update (counter (grp w)) pd ad). cong.
Qed.

End Quiet.

Section Reserving.

Context (n : Z) (d : chan) (mid : Z -> Prop).

Hypothesis mid_none : forall z, sameMod64 z 0 -> mid z.
Hypothesis mid_queued : forall z, sameMod64 z (n * 2^32) -> mid z.

Lemma contributes_tryReserve fuel size (tryCall : bool) w base :
  sameMod64 (valueIn w - base) 0 ->
  contributes
    (fun (b : bool) z => sameMod64 z (if b then eff n
                             else if tryCall then 0 else n * 2^32))
    mid base (tryReserve fuel size n tryCall w).
Proof.
  intros Hz. destruct fuel as [|fuel]; [apply contributes_Spin, mid_none, Hz|].
  cbn [tryReserve]. unfold bind at 1. cbn [counter_Load bindO].
  destruct (counterParts (counter (grp w))) as [p a].
  destruct ((p =? 0) && (int (a + n) <=? size)).
  - unfold bind at 1. rewrite counterUpdate_load by reflexivity.
    cbn [bindO ret]. apply contributes_Done.
    pose proof (valueIn_setCounter (counter (grp w)) 0 n w base eq_refl). cong.
  - destruct tryCall; cbn [negb].
    + apply contributes_Done. exact Hz.
    + unfold bind at 1. rewrite counterUpdate_load by reflexivity.
      cbn [bindO ret]. apply contributes_Done.
      pose proof (valueIn_setCounter (counter (grp w)) n 0 w base eq_refl).
      change (eff 0) with 0 in *. cong.
Qed.

Lemma contributes_reserveNAbortWait fuel bc w base :
  sameMod64 (valueIn w - base) (n * 2^32) ->
  contributes (fun _ z => sameMod64 z 0) mid base (reserveNAbortWait fuel bc n w).
Proof.
  intros Hz. unfold reserveNAbortWait. unfold bind at 1.
  eapply contributes_bindO.
  { apply contributes_counterAdd. apply mid_queued, Hz. }
  cbn beta. intros c w1 b1 H1.
  assert (Hz1 : sameMod64 (valueIn w1 - b1) 0).
  { change (eff 0) with 0 in H1. cong. }
  unfold bind at 1.
  eapply quiet_bindO; [apply quiet_notifyFree|apply mid_none, Hz1|].
  intros c' w2 b2 H2 _. destruct (counterParts c') as [p a].
  eapply contributes_mono; [| |apply quiet_notifyWait].
  - cbn beta. intros _ z [-> _]. rewrite H2. exact Hz1.
  - cbn beta. intros z ->. apply mid_none. rewrite H2. exact Hz1.
Qed.

Lemma contributes_reserveNSuccessWait size bc fuel : forall w base,
  sameMod64 (valueIn w - base) (n * 2^32) ->
  contributes
    (fun (r : bool * bool) z =>
       if snd r then sameMod64 z (eff n)
       else if fst r then sameMod64 z (n * 2^32)
       else sameMod64 z 0 /\ d <> nilChan)
    mid base (reserveNSuccessWait fuel size d n bc w).
Proof.
  induction fuel as [|fuel IH]; intros w base Hz;
    [apply contributes_Spin, mid_queued, Hz|].
  cbn [reserveNSuccessWait]. unfold bind at 1. cbn [counter_Load bindO].
  destruct (counterParts (counter (grp w))) as [p a].
  destruct (int (int (size - a) - n) >=? 0).
  - unfold bind at 1.
    destruct (select_recv_default d w) as (i & w' & E & Hg & Hi).
    rewrite E. cbn [bindO].
    assert (Hz' : sameMod64 (valueIn w' - base) (n * 2^32))
      by (unfold valueIn in *; rewrite Hg; exact Hz).
    destruct i as [|i].
    + assert (Hd : d <> nilChan) by (apply Hi; reflexivity).
      unfold bind at 1. eapply contributes_bindO.
      { apply contributes_reserveNAbortWait. exact Hz'. }
      cbn beta. intros u w2 b2 H2. apply contributes_Done.
      cbn [fst snd]. split; [exact H2|exact Hd].
    + unfold bind at 1.
      rewrite counterUpdate_load by (rewrite Hg; reflexivity).
      cbn [bindO negb ret]. apply contributes_Done. cbn [fst snd].
      pose proof (valueIn_setCounter (counter (grp w)) (int (- n)) n w' base
                    ltac:(rewrite Hg; reflexivity)) as Hs.
      cong.
  - destruct (p =? n); [apply contributes_Done; exact Hz|].
    destruct (int (p + a) >? size); [apply contributes_Done; exact Hz|].
    destruct (int (p - n) <=? 0); [apply IH, Hz|].
    unfold bind at 1.
    eapply quiet_bindO; [apply quiet_select|apply mid_queued, Hz|].
    intros i w' b Hb _. destruct i as [|i].
    + apply contributes_Done. rewrite Hb. exact Hz.
    + apply IH. rewrite Hb. exact Hz.
Qed.

Lemma contributes_reserveNSlowLoop size bc fuel : forall w base,
  sameMod64 (valueIn w - base) (n * 2^32) ->
  contributes
    (fun (b : bool) z => if b then sameMod64 z (eff n)
                else sameMod64 z 0 /\ d <> nilChan)
    mid base (reserveNSlowLoop fuel size d n bc w).
Proof.
  induction fuel as [|fuel IH]; intros w base Hz;
    [apply contributes_Spin, mid_queued, Hz|].
  cbn [reserveNSlowLoop]. unfold bind at 1.
  eapply quiet_bindO; [apply quiet_select|apply mid_queued, Hz|].
  intros i w1 b1 H1 Hi. cbn beta in Hi.
  assert (Hz1 : sameMod64 (valueIn w1 - b1) (n * 2^32)) by (rewrite H1; exact Hz).
  destruct i as [|i].
  - unfold bind at 1. eapply contributes_bindO.
    { apply contributes_reserveNSuccessWait, Hz1. }
    intros [reloop ok] w2 b2 H2. destruct ok; [apply contributes_Done, H2|].
    destruct reloop; cbn [negb]; [apply IH, H2|apply contributes_Done, H2].
  - assert (Hd : d <> nilChan).
    { destruct Hi as [Hi|[Hi _]]; [|discriminate].
      unfold wakes in Hi. destruct i as [|i]; cbn in Hi; [|discriminate].
      intros ->. discriminate. }
    unfold bind at 1. eapply contributes_bindO.
    { apply contributes_reserveNAbortWait, Hz1. }
    cbn beta. intros u w2 b2 H2. apply contributes_Done. auto.
Qed.

Lemma contributes_reserveNSlow size fuel w base :
  sameMod64 (valueIn w - base) (n * 2^32) ->
  contributes
    (fun (b : bool) z => if b then sameMod64 z (eff n)
                else sameMod64 z 0 /\ d <> nilChan)
    mid base (reserveNSlow fuel size d n w).
Proof.
  intros Hz. unfold reserveNSlow, bind. cbn [blockChan_Load bindO].
  destruct (blockChan (grp w)) as [bc|].
  - apply contributes_reserveNSlowLoop, Hz.
  - apply contributes_Fault, mid_queued, Hz.
Qed.

Lemma contributes_ReserveN fuel w :
  contributes
    (fun (b : bool) z => if b then sameMod64 z (eff n)
                else sameMod64 z 0 /\
                     (d <> nilChan \/ size (grp w) <> 0 /\ size (grp w) < n))
    mid (valueIn w) (ReserveN fuel d n w).
Proof.
  assert (Hz : sameMod64 (valueIn w - valueIn w) 0).
  { rewrite Z.sub_diag. apply sameMod64_refl. }
  unfold ReserveN. destruct (Z.leb_spec n 0) as [Hn|Hn].
  { apply contributes_Fault, mid_none, Hz. }
  assert (Hpre : exists i w1,
             (if decide (d = nilChan) then ret 1%nat
              else select [Recv d] true) w = Done i w1 /\
             grp w1 = grp w /\ (i = 0%nat -> d <> nilChan)).
  { destruct (decide (d = nilChan)) as [Hd|Hd].
    - exists 1%nat, w. repeat split. discriminate.
    - apply select_recv_default. }
  destruct Hpre as (i & w1 & E & Hg & Hi).
  unfold bind at 1. rewrite E. cbn [bindO].
  assert (Hz1 : sameMod64 (valueIn w1 - valueIn w) 0).
  { unfold valueIn. rewrite Hg. exact Hz. }
  destruct i as [|i]; [apply contributes_Done; auto|].
  unfold bind at 1. cbn [size_Load bindO]. rewrite Hg.
  destruct (Z.eqb_spec (size (grp w)) 0) as [Hs|Hs].
  { unfold bind at 1. eapply contributes_bindO.
    - apply contributes_counterAdd. apply mid_none, Hz1.
    - cbn beta. intros c w2 b2 H2. apply contributes_Done. cong. }
  destruct (Z.gtb_spec n (size (grp w))) as [Hbig|Hfit].
  { unfold bind at 1. destruct (decide (d = nilChan)) as [Hd|Hd].
    - cbn [ret bindO]. apply contributes_Done.
      split; [exact Hz1|right; split; [exact Hs|lia]].
    - eapply quiet_bindO; [apply quiet_recv|apply mid_none, Hz1|].
      intros u w2 b2 H2 _. apply contributes_Done.
      split; [rewrite H2; exact Hz1|left; exact Hd]. }
  unfold bind at 1. eapply contributes_bindO.
  { apply contributes_tryReserve, Hz1. }
  intros ok w2 b2 H2. destruct ok; [apply contributes_Done, H2|].
  eapply contributes_mono; [| |apply contributes_reserveNSlow, H2]; [|auto].
  intros [|] z; [auto|]. intros [H Hd]. split; [exact H|left; exact Hd].
Qed.

Lemma contributes_TryReserveN fuel w :
  contributes (fun (b : bool) z => sameMod64 z (if b then eff n else 0))
              mid (valueIn w) (TryReserveN fuel n w).
Proof.
  assert (Hz : sameMod64 (valueIn w - valueIn w) 0).
  { rewrite Z.sub_diag. apply sameMod64_refl. }
  unfold TryReserveN. destruct (Z.leb_spec n 0) as [Hn|Hn].
  { apply contributes_Fault, mid_none, Hz. }
  unfold bind at 1. cbn [size_Load bindO].
  destruct (size (grp w) =? 0).
  { unfold bind at 1. eapply contributes_bindO.
    - apply contributes_counterAdd. apply mid_none, Hz.
    - cbn beta. intros c w2 b2 H2. apply contributes_Done. cong. }
  destruct (n >? size (grp w)); [apply contributes_Done, Hz|].
  eapply contributes_mono; [| |apply contributes_tryReserve, Hz]; [|auto].
  intros [|] z; auto.
Qed.

End Reserving.

Section Freeing.

Context (n : Z) (mid : Z -> Prop).

Hypothesis mid_none : forall z, sameMod64 z 0 -> mid z.
Hypothesis mid_freed : forall z, sameMod64 z (eff (int (- n))) -> mid z.

Lemma contributes_FreeN fuel w :
  contributes (fun _ z => sameMod64 z (eff (int (- n))))
              mid (valueIn w) (FreeN fuel n w).
Proof.
  assert (Hz : sameMod64 (valueIn w - valueIn w) 0).
  { rewrite Z.sub_diag. apply sameMod64_refl. }
  unfold FreeN. destruct (Z.leb_spec n 0) as [Hn|Hn].
  { apply contributes_Fault, mid_none, Hz. }
  unfold bind at 1. cbn [blockChan_Load bindO].
  unfold bind at 1. eapply contributes_bindO.
  { apply contributes_counterAdd. apply mid_none, Hz. }
  cbn beta. intros c w1 b1 H1. cbn zeta.
  assert (Hz1 : sameMod64 (valueIn w1 - b1) (eff (int (- n)))).
  { unfold sameMod64 in *. Z.div_mod_to_equations. lia. }
  unfold bind at 1.
  apply contributes_bindO
    with (P := fun (_ : Z) z => sameMod64 z (eff (int (- n)))).
  { destruct (blockChan (grp w)) as [bc|].
    - unfold bind. eapply quiet_bindO;
        [apply quiet_notifyFree|apply mid_freed, Hz1|].
      intros c' w2 b2 H2 _. apply contributes_Done. rewrite H2. exact Hz1.
    - apply contributes_Done. exact Hz1. }
  intros p w2 b2 H2. unfold bind at 1.
  eapply quiet_bindO; [apply quiet_notifyWait|apply mid_freed, H2|].
  intros u w3 b3 H3 _. destruct (snd (counterParts c) <? 0).
  - apply contributes_Fault, mid_freed. rewrite H3. exact H2.
  - apply contributes_Done. rewrite H3. exact H2.
Qed.

End Freeing.

Section Calls.

Lemma SetSize_counter n w :
  final (SetSize n w) = true /\
  counter (grp (worldOf (SetSize n w))) = counter (grp w).
Proof.
  unfold SetSize, bind. cbn [counter_Load bindO].
  destruct (negb (counter (grp w) =? 0)); [split; reflexivity|].
  cbn [blockChan_Load bindO].
  destruct (blockChan (grp w)); [split; reflexivity|].
  unfold setSize.
  destruct (((if n <? 0 then 0 else n)) >? 0).
  - destruct (negb (uint32 (if n <? 0 then 0 else n) =? (if n <? 0 then 0 else n)));
      [split; reflexivity|].
    unfold bind. cbn [size_Store bindO make_chan blockChan_Store withGrp grp
                      counter counter_Load chans].
    destruct (negb (counter (grp w) =? 0)); split; reflexivity.
  - cbn [ret bindO counter_Load].
    destruct (negb (counter (grp w) =? 0)); split; reflexivity.
Qed.

Lemma contributes_ret {A B} (P : A -> Z -> Prop) (Q : B -> Z -> Prop) mid base
    (o : outcome A) (f : A -> B) :
  (forall a z, P a z -> Q (f a) z) ->
  contributes P mid base o ->
  contributes Q mid base (bindO o (fun a => ret (f a))).
Proof.
  intros HPQ H. eapply contributes_bindO; [exact H|].
  intros a w b Ha. apply contributes_Done, HPQ, Ha.
Qed.

Lemma quiet_call {A} (o : outcome A) (f : A -> value) c w :
  owed c = (fun _ => 0) ->
  contributes (fun _ z => z = valueIn w - valueIn w /\ True)
              (fun z => z = valueIn w - valueIn w) (valueIn w) o ->
  contributes (fun v z => sameMod64 z (owed c v)) (inFlight c) (valueIn w)
              (bindO o (fun a => ret (f a))).
Proof.
  intros Hc H. apply contributes_ret with (P := fun _ z => sameMod64 z 0).
  - intros a z Hz. rewrite Hc. exact Hz.
  - eapply contributes_mono; [| |exact H]; cbn beta.
    + intros _ z [-> _]. rewrite Z.sub_diag. apply sameMod64_refl.
    + intros z ->. left. rewrite Z.sub_diag. apply sameMod64_refl.
Qed.

End Calls.

(** X21: what a call adds to the counter, however it is scheduled.  Take
    the counter as the number [pending * 2^32 + active], and count for a
    call only the changes it makes itself between two suspensions, in
    whatever world it is resumed, through a case that is not on a nil
    channel.  Then, on a group whose size is not negative, a call that
    returns has changed that number, as a 64-bit word, by [eff n] for a
    [ReserveN] or [TryReserveN] of [n] that returned [true] and by 1 for a
    [Reserve]; by nothing for one that returned [false]; by
    [eff (int (- n))] for a [FreeN] of [n] and by -1 for a [Free]; by
    nothing for every other method.  While it is suspended, spinning or
    panicking it has changed it by nothing, or by [n * 2^32] (a
    reservation that waits, counted as pending), or by [eff (int (- n))]
    (a free that has committed).  For [n] a positive [int], [eff n] is
    [n mod 2^32] and [eff (int (- n))] is [- (n mod 2^32)]; how the change
    shows in the two counts is not stated, a carry or borrow can move it
    between them. *)
Theorem X21_calls_add_their_weight (fuel : nat) (c : call) (w : World) :
  (0 <= size (grp w) ->
   contributes (fun v z => sameMod64 z (owed c v)) (inFlight c) (valueIn w)
               (invoke fuel c w)) /\
  (forall n, 0 < n <= maxInt ->
     eff n = n mod 2^32 /\ eff (int (- n)) = - (n mod 2^32)).
Proof.
  split.
  2:{ intros n Hn. unfold maxInt in Hn. rewrite int_small by lia. unfold eff.
      destruct (Z.gtb_spec n 0); [|lia].
      destruct (Z.gtb_spec (- n) 0); [lia|].
      rewrite Z.opp_involutive. split; reflexivity. }
  intros Hsize.
  destruct c as [|d n|n| |n| | |n| | |]; cbn [invoke]; unfold bind at 1.
  - unfold Reserve, bind.
    apply contributes_ret with (P := fun (_ : unit) z => sameMod64 z 1); [auto|].
    apply contributes_ret
      with (P := fun (b : bool) z =>
                   if b then sameMod64 z (eff 1)
                   else sameMod64 z 0 /\
                        (nilChan <> nilChan \/ size (grp w) <> 0 /\ size (grp w) < 1)).
    + intros [|] z; [auto|]. intros [_ [H|H]]; [contradiction|lia].
    + apply contributes_ReserveN.
      * intros z Hz. left. exact Hz.
      * intros z Hz. right. exact Hz.
  - apply contributes_ret
      with (P := fun (b : bool) z =>
                   if b then sameMod64 z (eff n)
                   else sameMod64 z 0 /\
                        (d <> nilChan \/ size (grp w) <> 0 /\ size (grp w) < n)).
    + intros [|] z; [auto|]. intros [H _]. exact H.
    + apply contributes_ReserveN.
      * intros z Hz. left. exact Hz.
      * intros z Hz. right. exact Hz.
  - apply contributes_ret
      with (P := fun (b : bool) z => sameMod64 z (if b then eff n else 0)).
    + intros [|] z; auto.
    + apply contributes_TryReserveN; intros z Hz; left; exact Hz.
  - unfold Free.
    apply contributes_ret with (P := fun (_ : unit) z => sameMod64 z (-1)); [auto|].
    change (-1) with (eff (int (Z.opp 1))).
    apply (contributes_FreeN 1).
    + intros z Hz. left. exact Hz.
    + intros z Hz. right. exact Hz.
  - apply contributes_ret with (P := fun (_ : unit) z => sameMod64 z (eff (int (- n))));
      [auto|].
    apply contributes_FreeN.
    + intros z Hz. left. exact Hz.
    + intros z Hz. right. exact Hz.
  - apply quiet_call; [reflexivity|]. unfold Wait, bind.
    eapply contributes_bindO; [apply quiet_initWaitChan|].
    intros ch w1 b1 [H1 _].
    eapply contributes_mono; [| |apply quiet_recv]; cbn beta.
    + intros _ z [-> _]. split; [exact H1|exact I].
    + intros z ->. exact H1.
  - apply quiet_call; [reflexivity|]. apply quiet_initWaitChan.
  - apply quiet_call; [reflexivity|].
    destruct (SetSize_counter n w). apply quiet_final; assumption.
  - apply quiet_call; [reflexivity|]. apply quiet_final; reflexivity.
  - apply quiet_call; [reflexivity|]. apply quiet_final; reflexivity.
  - apply quiet_call; [reflexivity|]. apply quiet_final; reflexivity.
Qed.

Lemma X21_witness :
  let w := mkWorld (mkGroup None (Some (Chan 0)) (pack 1 2) 2)
                   [mkChanState false 0 1] in
  contributes (fun v z => sameMod64 z (owed (CReserveN closedChan 2) v))
              (inFlight (CReserveN closedChan 2)) (valueIn w)
              (invoke 3 (CReserveN closedChan 2) w).
Proof.
  cbn zeta.
  destruct (X21_calls_add_their_weight 3 (CReserveN closedChan 2)
              (mkWorld (mkGroup None (Some (Chan 0)) (pack 1 2) 2)
                       [mkChanState false 0 1])) as [H _].
  apply H. cbn [grp size]. lia.
Defined.

(** X22: a reservation that cannot be cancelled does not give up.  With a
    nil [doneChan], on a group without a limit or with [n] within its
    size, [ReserveN] never returns [false], however it is scheduled: when
    it returns it returns [true], and its own steps have changed the
    counter, taken as the number [pending * 2^32 + active], by
    [n mod 2^32] as a 64-bit word; while it is suspended, spinning or
    panicking they have changed it by nothing or by [n * 2^32], its weight
    counted as pending. *)
Theorem X22_reserve_without_cancel (fuel : nat) (n : Z) (w : World) :
  size (grp w) = 0 \/ n <= size (grp w) ->
  contributes (fun b z => b = true /\ sameMod64 z (n mod 2^32))
              (inFlight (CReserveN nilChan n)) (valueIn w)
              (ReserveN fuel nilChan n w).
Proof.
  intros Hfit.
  destruct (Z.le_gt_cases n 0) as [Hn|Hn].
  { unfold ReserveN. destruct (Z.leb_spec n 0); [|lia].
    apply contributes_Fault. left. rewrite Z.sub_diag. apply sameMod64_refl. }
  assert (He : eff n = n mod 2^32).
  { unfold eff. destruct (Z.gtb_spec n 0); [reflexivity|lia]. }
  eapply contributes_mono; [| |apply (contributes_ReserveN n nilChan)].
  - cbn beta. intros [|] z H; [split; [reflexivity|rewrite <- He; exact H]|].
    destruct H as [_ [H|[H1 H2]]]; [contradiction|lia].
  - intros z H. exact H.
  - intros z Hz. left. exact Hz.
  - intros z Hz. right. exact Hz.
Qed.

Lemma X22_witness :
  let w := mkWorld (mkGroup None (Some (Chan 0)) 3 3) [mkChanState false 0 0] in
  contributes (fun b z => b = true /\ sameMod64 z (2 mod 2^32))
              (inFlight (CReserveN nilChan 2)) (valueIn w)
              (ReserveN 4 nilChan 2 w).
Proof.
  cbn zeta. apply X22_reserve_without_cancel. right. cbn [grp size]. lia.
Defined.

(** * Where the calls park *)

Section ParksOn.

Context {A : Type}.

Lemma parksOn_mono (post post' : A -> Prop) (P P' : list comm -> Prop) (o : outcome A) :
  (forall a, post a -> post' a) -> (forall on, P on -> P' on) ->
  parksOn post P o -> parksOn post' P' o.
Proof.
  intros Hp HP H. induction H as [a w H|msg w|on w k H Hk IH|w].
  - apply parksOn_Done; auto.
  - apply parksOn_Fault.
  - apply parksOn_Blocked; auto.
  - apply parksOn_Spin.
Qed.

Lemma parksOn_widen (post : A -> Prop) (P P' : list comm -> Prop) (o : outcome A) :
  (forall on, P on -> P' on) -> parksOn post P o -> parksOn post P' o.
Proof. apply parksOn_mono. auto. Qed.

Lemma parksOn_bindO {B : Type} (post : A -> Prop) (post' : B -> Prop)
    (P : list comm -> Prop) (o : outcome A) (f : A -> M B) :
  parksOn post P o ->
  (forall a w, post a -> parksOn post' P (f a w)) ->
  parksOn post' P (bindO o f).
Proof.
  intros H Hf. induction H as [a w H|msg w|on w k H Hk IH|w]; cbn [bindO].
  - apply Hf, H.
  - apply parksOn_Fault.
  - apply parksOn_Blocked; [exact H|]. intros i w' Hi. apply IH, Hi.
  - apply parksOn_Spin.
Qed.

(** An outcome that is a return or a fault parks nowhere. *)
Lemma parksOn_final (P : list comm -> Prop) (o : outcome A) :
  final o = true -> parksOn (fun _ => True) P o.
Proof.
  destruct o; try discriminate; intros _;
    [apply parksOn_Done; exact I|apply parksOn_Fault].
Qed.

End ParksOn.

Section Suspensions.

(** A [select] with a default branch over one case goes through at once. *)
Lemma select_single_final op w : final (select [op] true w) = true.
Proof.
  unfold select. cbn [readyFrom app]. destruct (ready w op); cbn [app].
  - pose proof (perform_final op w). destruct (perform op w); try discriminate;
      reflexivity.
  - reflexivity.
Qed.

(** A [select] parks on its cases only. *)
Lemma parksOn_select cases dflt w :
  parksOn (fun i => wakes cases i = true \/ dflt = true /\ i = length cases)
          (fun on => on = cases) (select cases dflt w).
Proof.
  destruct (select_shape cases dflt w)
    as [(i & w' & E & Hg & Hi)|[(msg & w' & E & Hg)|E]]; rewrite E.
  - apply parksOn_Done, Hi.
  - apply parksOn_Fault.
  - apply parksOn_Blocked; [reflexivity|]. intros i w' Hi.
    apply parksOn_Done. left. exact Hi.
Qed.

Lemma parksOn_counterAdd (P : list comm -> Prop) fuel pd ad w :
  parksOn (fun _ => True) P (counterAdd fuel pd ad w).
Proof.
  destruct fuel as [|fuel]; [apply parksOn_Spin|].
  rewrite counterAdd_S. apply parksOn_Done. exact I.
Qed.

Lemma parksOn_notifyFreeLoop bc fuel : forall c p w,
  parksOn (fun _ => True) (fun on => on = [Sched]) (notifyFreeLoop fuel bc c p w).
Proof.
  induction fuel as [|fuel IH]; intros c p w;
    cbn [notifyFreeLoop]; destruct (p >? 0);
    try (apply parksOn_Done; exact I).
  - apply parksOn_Spin.
  - unfold bind at 1.
    pose proof (select_single_final (Send bc) w) as Hf.
    destruct (select [Send bc] true w) as [i w1|msg w1|on w1 k|w1];
      try discriminate; cbn [bindO]; [|apply parksOn_Fault].
    destruct i as [|i].
    + unfold bind, counter_Load. cbn [bindO ret]. apply parksOn_Done. exact I.
    + unfold bind at 1, Gosched. cbn [bindO].
      apply parksOn_Blocked; [reflexivity|]. intros j w2 _.
      unfold bind at 1. cbn [counter_Load bindO]. apply IH.
Qed.

Lemma parksOn_notifyFree bc fuel w :
  parksOn (fun _ => True) (fun on => on = [Sched]) (notifyFree fuel bc w).
Proof.
  unfold notifyFree, bind. cbn [counter_Load bindO]. apply parksOn_notifyFreeLoop.
Qed.

Lemma parksOn_notifyWait (P : list comm -> Prop) p a w :
  parksOn (fun _ => True) P (notifyWait p a w).
Proof. apply parksOn_final. apply notifyWait_core. Qed.

Lemma parksOn_reserveNAbortWait fuel bc n w :
  parksOn (fun _ => True) (fun on => on = [Sched]) (reserveNAbortWait fuel bc n w).
Proof.
  unfold reserveNAbortWait. unfold bind at 1.
  eapply parksOn_bindO; [apply parksOn_counterAdd|].
  intros c w1 _. unfold bind at 1.
  eapply parksOn_bindO; [apply parksOn_notifyFree|].
  intros c' w2 _. destruct (counterParts c') as [p a]. apply parksOn_notifyWait.
Qed.

(** [tryReserve] never parks and leaves the block channel alone. *)
Lemma tryReserve_shape fuel size n tryCall w :
  (exists b w', tryReserve fuel size n tryCall w = Done b w' /\
                blockChan (grp w') = blockChan (grp w)) \/
  tryReserve fuel size n tryCall w = Spin w.
Proof.
  destruct fuel as [|fuel]; [right; reflexivity|]. left.
  cbn [tryReserve]. unfold bind at 1. cbn [counter_Load bindO].
  destruct (counterParts (counter (grp w))) as [p a].
  destruct ((p =? 0) && (int (a + n) <=? size)).
  - unfold bind at 1. rewrite counterUpdate_load by reflexivity.
    cbn [bindO ret]. eexists _, _. split; reflexivity.
  - destruct tryCall; cbn [negb].
    + eexists _, _. split; reflexivity.
    + unfold bind at 1. rewrite counterUpdate_load by reflexivity.
      cbn [bindO ret]. eexists _, _. split; reflexivity.
Qed.

Section Slow.

Context (size n : Z) (d bc : chan).

Let slowly (on : list comm) : Prop :=
  on = [Recv bc; Recv d] \/ on = [Send bc; Recv bc] \/
  d <> nilChan /\ on = [Sched].

Lemma parksOn_reserveNSuccessWait fuel : forall w,
  parksOn (fun r : bool * bool => snd r = false -> fst r = false -> d <> nilChan)
          slowly (reserveNSuccessWait fuel size d n bc w).
Proof.
  induction fuel as [|fuel IH]; intros w; [apply parksOn_Spin|].
  cbn [reserveNSuccessWait]. unfold bind at 1. cbn [counter_Load bindO].
  destruct (counterParts (counter (grp w))) as [p a].
  destruct (int (int (size - a) - n) >=? 0).
  - unfold bind at 1.
    destruct (select_recv_default d w) as (i & w' & E & Hg & Hi).
    rewrite E. cbn [bindO]. destruct i as [|i].
    + assert (Hd : d <> nilChan) by (apply Hi; reflexivity).
      unfold bind at 1. eapply parksOn_bindO.
      { eapply parksOn_widen; [|apply parksOn_reserveNAbortWait].
        intros on ->. right. right. auto. }
      cbn beta. intros u w2 _. apply parksOn_Done. auto.
    + unfold bind at 1.
      rewrite counterUpdate_load by (rewrite Hg; reflexivity).
      cbn [bindO negb ret]. apply parksOn_Done. discriminate.
  - destruct (p =? n); [apply parksOn_Done; discriminate|].
    destruct (int (p + a) >? size); [apply parksOn_Done; discriminate|].
    destruct (int (p - n) <=? 0); [apply IH|].
    unfold bind at 1. eapply parksOn_bindO.
    { eapply parksOn_widen; [|apply parksOn_select].
      intros on ->. right. left. reflexivity. }
    intros i w' _. destruct i as [|i]; [apply parksOn_Done; discriminate|].
    apply IH.
Qed.

Lemma parksOn_reserveNSlowLoop fuel : forall w,
  parksOn (fun b : bool => b = false -> d <> nilChan)
          slowly (reserveNSlowLoop fuel size d n bc w).
Proof.
  induction fuel as [|fuel IH]; intros w; [apply parksOn_Spin|].
  cbn [reserveNSlowLoop]. unfold bind at 1. eapply parksOn_bindO.
  { eapply parksOn_widen; [|apply parksOn_select].
    intros on ->. left. reflexivity. }
  cbn beta. intros i w1 Hi. destruct i as [|i].
  - unfold bind at 1. eapply parksOn_bindO.
    { apply parksOn_reserveNSuccessWait. }
    cbn beta. intros [reloop ok] w2 H2. cbn [fst snd] in H2.
    destruct ok; [apply parksOn_Done; discriminate|].
    destruct reloop; cbn [negb]; [apply IH|].
    apply parksOn_Done. auto.
  - assert (Hd : d <> nilChan).
    { destruct Hi as [Hi|[Hi _]]; [|discriminate].
      unfold wakes in Hi. destruct i as [|i]; cbn in Hi; [|discriminate].
      intros ->. discriminate. }
    unfold bind at 1. eapply parksOn_bindO.
    { eapply parksOn_widen; [|apply parksOn_reserveNAbortWait].
      intros on ->. right. right. auto. }
    cbn beta. intros u w2 _. apply parksOn_Done. auto.
Qed.

End Slow.

Lemma parksOn_recv c w :
  parksOn (fun _ => True) (fun on => on = [Recv c]) (recv c w).
Proof.
  unfold recv, bind. eapply parksOn_bindO; [apply parksOn_select|].
  intros i w' _. apply parksOn_Done. exact I.
Qed.

Lemma parksOn_ReserveN fuel d n w :
  parksOn (fun b : bool =>
             b = false -> d <> nilChan \/ size (grp w) <> 0 /\ size (grp w) < n)
          (parksAt (CReserveN d n) w) (ReserveN fuel d n w).
Proof.
  unfold ReserveN. destruct (Z.leb_spec n 0) as [Hn|Hn]; [apply parksOn_Fault|].
  assert (Hpre : exists i w1,
             (if decide (d = nilChan) then ret 1%nat
              else select [Recv d] true) w = Done i w1 /\
             grp w1 = grp w /\ (i = 0%nat -> d <> nilChan)).
  { destruct (decide (d = nilChan)) as [Hd|Hd].
    - exists 1%nat, w. repeat split. discriminate.
    - apply select_recv_default. }
  destruct Hpre as (i & w1 & E & Hg & Hi).
  unfold bind at 1. rewrite E. cbn [bindO].
  destruct i as [|i]; [apply parksOn_Done; auto|].
  unfold bind at 1. cbn [size_Load bindO]. rewrite Hg.
  destruct (Z.eqb_spec (size (grp w)) 0) as [Hs|Hs].
  { unfold bind at 1. eapply parksOn_bindO; [apply parksOn_counterAdd|].
    intros c w2 _. apply parksOn_Done. discriminate. }
  destruct (Z.gtb_spec n (size (grp w))) as [Hbig|Hfit].
  { unfold bind at 1. destruct (decide (d = nilChan)) as [Hd|Hd].
    - cbn [ret bindO]. apply parksOn_Done. intros _. right. split; [exact Hs|lia].
    - eapply parksOn_bindO.
      + eapply parksOn_widen; [|apply parksOn_recv].
        intros on ->. left. auto.
      + intros u w2 _. apply parksOn_Done. auto. }
  unfold bind at 1.
  destruct (tryReserve_shape fuel (size (grp w)) n false w1)
    as [(b & w2 & E2 & Hb)|E2]; rewrite E2; cbn [bindO]; [|apply parksOn_Spin].
  destruct b; [apply parksOn_Done; discriminate|].
  unfold reserveNSlow, bind. cbn [blockChan_Load bindO]. rewrite Hb, Hg.
  destruct (blockChan (grp w)) as [bc|] eqn:Ebc; [|apply parksOn_Fault].
  eapply parksOn_mono; [| |apply parksOn_reserveNSlowLoop].
  - cbn beta. intros b H Hf. left. auto.
  - cbn beta. intros on [->|[->|[Hd ->]]].
    + right. exists bc. auto.
    + right. exists bc. auto.
    + left. auto.
Qed.

Lemma parksOn_FreeN fuel n w :
  parksOn (fun _ => True) (fun on => on = [Sched]) (FreeN fuel n w).
Proof.
  unfold FreeN. destruct (n <=? 0); [apply parksOn_Fault|].
  unfold bind at 1. cbn [blockChan_Load bindO].
  unfold bind at 1. eapply parksOn_bindO; [apply parksOn_counterAdd|].
  intros c w1 _. cbn zeta. unfold bind at 1.
  apply parksOn_bindO with (post := fun _ : Z => True).
  { destruct (blockChan (grp w)) as [bc|].
    - unfold bind. eapply parksOn_bindO; [apply parksOn_notifyFree|].
      intros c' w2 _. apply parksOn_Done. exact I.
    - apply parksOn_Done. exact I. }
  intros p w2 _. unfold bind at 1.
  eapply parksOn_bindO; [apply parksOn_notifyWait|].
  intros u w3 _. destruct (snd (counterParts c) <? 0);
    [apply parksOn_Fault|apply parksOn_Done; exact I].
Qed.

(** The channel that [initWaitChan] hands out is never nil. *)
Lemma initWaitChan_not_nil w :
  parksOn (fun c => c <> nilChan) (fun _ => False) (initWaitChan w).
Proof.
  unfold initWaitChan, bind. cbn [waitChan_Load counter_Load bindO].
  destruct (counterParts (counter (grp w))) as [p a].
  destruct ((p <=? 0) && (a <=? 0)); [apply parksOn_Done; discriminate|].
  assert (Hslow : forall wc, parksOn (fun c => c <> nilChan) (fun _ => False)
                               (initWaitChanSlow wc w)).
  { intros wc. unfold initWaitChanSlow. unfold bind at 1. unfold make_chan.
    cbn [bindO]. unfold bind at 1, waitChan_CompareAndSwap. cbn [grp waitChan].
    destruct (decide (waitChan (grp w) = wc)) as [_|_]; cbn [bindO].
    - unfold bind, counter_Load. cbn [bindO withGrp grp counter].
      destruct (counterParts (counter (grp w))) as [p' a'].
      destruct ((p' <=? 0) && (a' <=? 0)); apply parksOn_Done; discriminate.
    - unfold bind, waitChan_Load. cbn [bindO grp waitChan].
      destruct (waitChan (grp w)) as [c|]; [|apply parksOn_Fault].
      destruct (decide (c = nilChan)); apply parksOn_Done;
        [discriminate|assumption]. }
  destruct (waitChan (grp w)) as [c|]; [|apply Hslow].
  destruct (decide (c = nilChan)); [apply Hslow|].
  apply parksOn_Done. assumption.
Qed.

Lemma parksOn_ret {A B} (post : A -> Prop) (P : list comm -> Prop)
    (o : outcome A) (f : A -> B) :
  parksOn post P o -> parksOn (fun _ => True) P (bindO o (fun a => ret (f a))).
Proof.
  intros H. eapply parksOn_bindO; [exact H|].
  intros a w _. apply parksOn_Done. exact I.
Qed.

End Suspensions.

(** X23: where the methods park.  However it is scheduled, [FreeN] (and
    [Free]) never waits on a channel: it parks only to yield the
    processor.  [TryReserveN], [WaitChan], [SetSize] and the three
    counters never park.  [Wait] parks only to receive from one channel,
    which is never nil.  [ReserveN] parks only to receive from its
    [doneChan] or to yield, both only when [doneChan] is not nil, or on
    the block channel the group had when the call was made: to receive
    from it or from [doneChan], or to send to it or receive from it. *)
Theorem X23_where_calls_park (fuel : nat) (c : call) (w : World) :
  parksOn (fun _ => True) (parksAt c w) (invoke fuel c w).
Proof.
  destruct c as [|d n|n| |n| | |n| | |]; cbn [invoke]; unfold bind at 1.
  - unfold Reserve, bind. eapply parksOn_ret, parksOn_ret.
    eapply parksOn_mono; [| |apply (parksOn_ReserveN fuel nilChan 1 w)].
    + intros b H. exact H.
    + cbn [parksAt]. intros on [[Hd _]|H]; [contradiction|exact H].
  - eapply parksOn_ret. apply parksOn_ReserveN.
  - unfold TryReserveN. destruct (n <=? 0); [apply parksOn_Fault|].
    unfold bind at 1. cbn [size_Load bindO].
    destruct (size (grp w) =? 0).
    { unfold bind at 1. apply parksOn_ret with (post := fun _ : bool => True).
      eapply parksOn_bindO; [apply parksOn_counterAdd|].
      intros c w2 _. apply parksOn_Done. exact I. }
    destruct (n >? size (grp w)); [apply parksOn_Done; exact I|].
    destruct (tryReserve_shape fuel (size (grp w)) n true w)
      as [(b & w2 & E2 & Hb)|E2]; rewrite E2; cbn [bindO];
      [apply parksOn_Done; exact I|apply parksOn_Spin].
  - unfold Free. eapply parksOn_ret. apply parksOn_FreeN.
  - eapply parksOn_ret. apply parksOn_FreeN.
  - eapply parksOn_ret. unfold Wait, bind.
    eapply parksOn_bindO.
    + eapply parksOn_widen; [|apply initWaitChan_not_nil]. contradiction.
    + intros c w1 Hc.
      eapply parksOn_widen; [|apply parksOn_recv].
      intros on ->. exists c. auto.
  - eapply parksOn_ret. unfold WaitChan.
    eapply parksOn_widen; [|apply initWaitChan_not_nil]. contradiction.
  - eapply parksOn_ret. apply parksOn_final. apply SetSize_counter.
  - apply parksOn_Done. exact I.
  - apply parksOn_Done. exact I.
  - apply parksOn_Done. exact I.
Qed.
